(** * CuckooUTXO: the bucketized cuckoo store for UTXO records

    A shallow embedding of [UTXOManager] (Perfect_Cuckoo_Filter.cpp,
    computational_Time_CuckooUTXO.cpp, rst2.cpp) and the properties of its
    addressing, relocation walk and public operations; of the reader and
    loader of the dataset; and of the exact map rst2.cpp measures it
    against.

    Conventions.
    - [uint32_t] values are integers in [Z]; the only operation of the code
      that can leave the range [0, 2^32) is the multiplication in
      [get_alt_bucket], whose wrap-around is written out with [u32].
    - [size_t] counters (sizes, depth) are [nat].
    - [vector<vector<BucketEntry>>] is a list of lists, read and updated by
      index with stdpp's lookup and [alter].  [operator[]] out of range is
      undefined behaviour in the source; the model reads an empty bucket and
      writes nothing there, and the range lemmas below show that no
      operation leaves [0, NUM_BUCKETS) when NUM_BUCKETS = 2^BUCKET_BITS.
    - [rand()] is an oracle [rand : nat -> nat]: [rand n] is the value of the
      n-th call since seeding; the manager state counts the calls made.
    - [std::stoull] is a parameter [stoull : string -> option Z] of the row
      parser and of the loader, [None] when it throws; [std_stoull] is what
      it does in base 10, for the statements at concrete inputs.
    - A file is the list of its lines, [None] when it cannot be opened; what
      the programs print is not modelled. *)

From Stdlib Require Import ZArith List Bool Ascii String Lia Permutation.
From stdpp Require Import base list gmap strings.

Local Open Scope Z_scope.

(** ** Data model *)

Record UTXOValue := mkUTXOValue {
  coinbase : bool;
  height : Z;
  amount : Z;
  script : string;
  address : string
}.

Record BucketEntry := mkBucketEntry {
  fingerprint : Z;
  selector_bit : bool;
  value : UTXOValue
}.

(** [UTXOValue()] and [BucketEntry()], the default constructors. *)
Definition UTXOValue_default : UTXOValue :=
  mkUTXOValue false 0 0 EmptyString EmptyString.

Definition BucketEntry_default : BucketEntry :=
  mkBucketEntry 0 false UTXOValue_default.

(** The constants of the class; rst2.cpp makes them runtime fields. *)
Record Config := mkConfig {
  BUCKET_SIZE : nat;
  NUM_BUCKETS : nat;
  MAX_RELOCATIONS : nat;
  FINGERPRINT_BITS : Z;
  BUCKET_BITS : Z
}.

(** The manager: the bucket array and the number of [rand()] calls made. *)
Record Manager := mkManager {
  buckets : list (list BucketEntry);
  rand_calls : nat
}.

(** ** Hash and address derivation *)

Definition u32 (z : Z) : Z := z mod 2 ^ 32.

Definition polynomial : Z := 0xEDB88320.

(** [crc = (crc >> 1) ^ ((crc & 1) ? polynomial : 0)] *)
Definition crc32_shift (crc : Z) : Z :=
  Z.lxor (Z.shiftr crc 1) (if Z.land crc 1 =? 0 then 0 else polynomial).

(** [crc ^= static_cast<uint8_t>(c)] followed by the eight shift steps. *)
Definition crc32_byte (crc : Z) (c : ascii) : Z :=
  Nat.iter 8 crc32_shift (Z.lxor crc (Z.of_N (N_of_ascii c))).

Fixpoint crc32_loop (key : string) (crc : Z) : Z :=
  match key with
  | EmptyString => crc
  | String c rest => crc32_loop rest (crc32_byte crc c)
  end.

Definition crc32_hash (key : string) : Z :=
  u32 (Z.lnot (crc32_loop key 0xFFFFFFFF)).

(** [(1 << bits) - 1], the mask of the low [bits] bits.  The source shifts
    an [int]: the expression is defined for 0 <= bits <= 30, and the model is
    that of the code in this range only (the fixed profile has 19 and 13;
    rst2.cpp runs 18, 19 and 20 bucket bits with 13, 15 and 17 fingerprint
    bits). *)
Definition low_mask (bits : Z) : Z := Z.shiftl 1 bits - 1.

Definition get_bucket_fingerprint (cfg : Config) (key : string) : Z * Z :=
  let h := crc32_hash key in
  (Z.land h (low_mask (BUCKET_BITS cfg)),
   Z.land (Z.shiftr h (BUCKET_BITS cfg)) (low_mask (FINGERPRINT_BITS cfg))).

Definition get_alt_bucket (cfg : Config) (bucket fp : Z) : Z :=
  let fp_hash := u32 (fp * 0xCC9E2D51) in
  Z.lxor bucket (Z.land fp_hash (low_mask (BUCKET_BITS cfg))).

(** ** Bucket store *)

Definition bucket_at (m : Manager) (i : Z) : list BucketEntry :=
  default [] (buckets m !! Z.to_nat i).

(** [buckets[i].push_back(e)] *)
Definition push_back (m : Manager) (i : Z) (e : BucketEntry) : Manager :=
  mkManager (alter (fun b => b ++ [e]) (Z.to_nat i) (buckets m)) (rand_calls m).

(** [buckets[i][idx] = e] *)
Definition set_slot (m : Manager) (i : Z) (idx : nat) (e : BucketEntry) : Manager :=
  mkManager (alter (fun b => <[idx := e]> b) (Z.to_nat i) (buckets m)) (rand_calls m).

(** One call of [rand()] has been made. *)
Definition tick (m : Manager) : Manager :=
  mkManager (buckets m) (S (rand_calls m)).

(** [entry.fingerprint == fp && entry.selector_bit == sb] *)
Definition entry_matches (fp : Z) (sb : bool) (e : BucketEntry) : bool :=
  (fingerprint e =? fp) && eqb (selector_bit e) sb.

(** [erase] of the first matching entry; [None] when the loop finds none. *)
Fixpoint erase_first (fp : Z) (sb : bool) (b : list BucketEntry)
  : option (list BucketEntry) :=
  match b with
  | [] => None
  | e :: rest =>
      if entry_matches fp sb e then Some rest
      else option_map (cons e) (erase_first fp sb rest)
  end.

Definition set_bucket (m : Manager) (i : Z) (b : list BucketEntry) : Manager :=
  mkManager (alter (fun _ => b) (Z.to_nat i) (buckets m)) (rand_calls m).

(** ** Relocation engine and manager API *)

Section Manager.

Variable cfg : Config.
Variable rand : nat -> nat.

(** [relocate]: the recursion of the source, with [fuel] bounding the number
    of nested calls; [None] only when the fuel runs out.  The eviction index
    is [rand() % size] of a full bucket: with BUCKET_SIZE = 0 the source
    divides by zero, so the model is that of the code for BUCKET_SIZE > 0
    only ([mod] by 0 and [nth] on an empty bucket have no counterpart in the
    source). *)
Fixpoint relocate (fuel : nat) (m : Manager) (bucket fp : Z) (v : UTXOValue)
    (depth : nat) : option (bool * Manager) :=
  match fuel with
  | O => None
  | S fuel' =>
    if (MAX_RELOCATIONS cfg <? depth)%nat then Some (false, m) else
    let alt_bucket := get_alt_bucket cfg bucket fp in
    if (length (bucket_at m alt_bucket) <? BUCKET_SIZE cfg)%nat then
      Some (true, push_back m alt_bucket (mkBucketEntry fp true v))
    else
      let evict_idx :=
        (rand (rand_calls m) mod length (bucket_at m alt_bucket))%nat in
      let evicted := nth evict_idx (bucket_at m alt_bucket) BucketEntry_default in
      let m1 := set_slot (tick m) alt_bucket evict_idx (mkBucketEntry fp true v) in
      let new_bucket :=
        if selector_bit evicted
        then Z.lxor alt_bucket
               (Z.land (u32 (fingerprint evicted * 0xCC9E2D51))
                       (low_mask (BUCKET_BITS cfg)))
        else get_alt_bucket cfg alt_bucket (fingerprint evicted) in
      if (length (bucket_at m1 new_bucket) <? BUCKET_SIZE cfg)%nat then
        Some (true, push_back m1 new_bucket evicted)
      else
        relocate fuel' m1 new_bucket (fingerprint evicted) (value evicted)
                 (S depth)
  end.

Definition add_utxo (fuel : nat) (key : string) (v : UTXOValue) (m : Manager)
  : option (bool * Manager) :=
  let '(bucket, fp) := get_bucket_fingerprint cfg key in
  if existsb (entry_matches fp false) (bucket_at m bucket) then Some (false, m)
  else
    let alt_bucket := get_alt_bucket cfg bucket fp in
    if existsb (entry_matches fp true) (bucket_at m alt_bucket)
    then Some (false, m)
    else if (length (bucket_at m bucket) <? BUCKET_SIZE cfg)%nat then
      Some (true, push_back m bucket (mkBucketEntry fp false v))
    else if (length (bucket_at m alt_bucket) <? BUCKET_SIZE cfg)%nat then
      Some (true, push_back m alt_bucket (mkBucketEntry fp true v))
    else relocate fuel m bucket fp v 0.

(** [get_utxo]: [Some v] for a pointer to a stored value, [None] for
    [nullptr]. *)
Definition get_utxo (key : string) (m : Manager) : option UTXOValue :=
  let '(bucket, fp) := get_bucket_fingerprint cfg key in
  match find (entry_matches fp false) (bucket_at m bucket) with
  | Some e => Some (value e)
  | None =>
      let alt_bucket := get_alt_bucket cfg bucket fp in
      match find (entry_matches fp true) (bucket_at m alt_bucket) with
      | Some e => Some (value e)
      | None => None
      end
  end.

(** [remove_utxo] (named [delete_utxo] in the timing program). *)
Definition remove_utxo (key : string) (m : Manager) : bool * Manager :=
  let '(bucket, fp) := get_bucket_fingerprint cfg key in
  match erase_first fp false (bucket_at m bucket) with
  | Some b' => (true, set_bucket m bucket b')
  | None =>
      let alt_bucket := get_alt_bucket cfg bucket fp in
      match erase_first fp true (bucket_at m alt_bucket) with
      | Some b' => (true, set_bucket m alt_bucket b')
      | None => (false, m)
      end
  end.

End Manager.

Definition count (m : Manager) : nat :=
  fold_left (fun total b => (total + length b)%nat) (buckets m) 0%nat.

(** The fixed profile of Perfect_Cuckoo_Filter.cpp and of the timing
    program. *)
Definition perfect_cfg : Config := mkConfig 4 (2 ^ 19) 500 13 19.

(** [UTXOManager() : buckets(NUM_BUCKETS)] *)
Definition empty_manager (cfg : Config) : Manager :=
  mkManager (replicate (NUM_BUCKETS cfg) []) 0.

(** ** Sizes and contents *)

(** Field-wise equality of records, and whether some entry of the table
    holds a given record. *)
Definition UTXOValue_eqb (a b : UTXOValue) : bool :=
  eqb (coinbase a) (coinbase b) && (height a =? height b) &&
  (amount a =? amount b) && String.eqb (script a) (script b) &&
  String.eqb (address a) (address b).

Definition stores (v : UTXOValue) (m : Manager) : bool :=
  existsb (existsb (fun e => UTXOValue_eqb (value e) v)) (buckets m).

Definition sizes (m : Manager) : list nat := map length (buckets m).

Definition within_capacity (cfg : Config) (m : Manager) : Prop :=
  Forall (fun b => (length b <= BUCKET_SIZE cfg)%nat) (buckets m).

(** ** Operation sequences and reachable tables *)

Inductive op :=
| Add (key : string) (v : UTXOValue)
| Remove (key : string).

Definition apply_op (cfg : Config) (rand : nat -> nat) (fuel : nat) (o : op)
    (m : Manager) : option (bool * Manager) :=
  match o with
  | Add key v => add_utxo cfg rand fuel key v m
  | Remove key => Some (remove_utxo cfg key m)
  end.

(** The results of a sequence of calls, and the table they leave. *)
Fixpoint run (cfg : Config) (rand : nat -> nat) (fuel : nat) (ops : list op)
    (m : Manager) : option (list bool * Manager) :=
  match ops with
  | [] => Some ([], m)
  | o :: rest =>
      match apply_op cfg rand fuel o m with
      | Some (b, m') =>
          match run cfg rand fuel rest m' with
          | Some (bs, m'') => Some (b :: bs, m'')
          | None => None
          end
      | None => None
      end
  end.

Inductive reachable (cfg : Config) (rand : nat -> nat) : Manager -> Prop :=
| reachable_empty : reachable cfg rand (empty_manager cfg)
| reachable_add fuel key v m b m' :
    reachable cfg rand m ->
    add_utxo cfg rand fuel key v m = Some (b, m') ->
    reachable cfg rand m'
| reachable_remove key m :
    reachable cfg rand m ->
    reachable cfg rand (snd (remove_utxo cfg key m)).

(** ** Well-formed configurations and tables *)

(** What the addressing relies on: a power-of-two bucket count, addressed by
    exactly BUCKET_BITS bits. *)
Definition wf_config (cfg : Config) : Prop :=
  0 <= BUCKET_BITS cfg /\
  Z.of_nat (NUM_BUCKETS cfg) = 2 ^ BUCKET_BITS cfg.

Definition wf_manager (cfg : Config) (m : Manager) : Prop :=
  length (buckets m) = NUM_BUCKETS cfg.

(** [add_utxo] gets past the duplicate checks and finds both candidate
    buckets full, so it calls [relocate]. *)
Definition enters_relocation (cfg : Config) (key : string) (m : Manager) : bool :=
  let '(bucket, fp) := get_bucket_fingerprint cfg key in
  let alt_bucket := get_alt_bucket cfg bucket fp in
  negb (existsb (entry_matches fp false) (bucket_at m bucket)) &&
  negb (existsb (entry_matches fp true) (bucket_at m alt_bucket)) &&
  negb (length (bucket_at m bucket) <? BUCKET_SIZE cfg)%nat &&
  negb (length (bucket_at m alt_bucket) <? BUCKET_SIZE cfg)%nat.

Definition op_key (o : op) : string :=
  match o with Add key _ => key | Remove key => key end.

(** A sequence of calls that leaves a key alone: no call is on a key with
    the same (bucket, fingerprint) pair, and no insert calls [relocate]. *)
Fixpoint undisturbed (cfg : Config) (rand : nat -> nat) (fuel : nat)
    (key : string) (ops : list op) (m : Manager) : Prop :=
  match ops with
  | [] => True
  | o :: rest =>
      get_bucket_fingerprint cfg (op_key o) <> get_bucket_fingerprint cfg key /\
      match o with
      | Add key' _ => enters_relocation cfg key' m = false
      | Remove _ => True
      end /\
      match apply_op cfg rand fuel o m with
      | Some (_, m') => undisturbed cfg rand fuel key rest m'
      | None => True
      end
  end.

(** ** A walk that cannot succeed *)

(** The walk entered for bucket [A] is blocked when [A] is full and every
    entry of [A] would be sent to a bucket that is full as well. *)
Definition blocked (cfg : Config) (m : Manager) (A : Z) : Prop :=
  (0 < BUCKET_SIZE cfg)%nat /\
  length (bucket_at m A) = BUCKET_SIZE cfg /\
  forall e, In e (bucket_at m A) ->
    (BUCKET_SIZE cfg
     <= length (bucket_at m (get_alt_bucket cfg A (fingerprint e))))%nat.

Definition walk_blocked (cfg : Config) (m : Manager) (A : Z) : bool :=
  (0 <? BUCKET_SIZE cfg)%nat &&
  (length (bucket_at m A) =? BUCKET_SIZE cfg)%nat &&
  forallb (fun e =>
             (BUCKET_SIZE cfg
              <=? length (bucket_at m (get_alt_bucket cfg A (fingerprint e))))%nat)
          (bucket_at m A).

(** ** Concrete keys for the fixed profile

    Keys of the form [txid:index] with these CRC-32 digests, under the fixed
    profile (19 bucket bits, 13 fingerprint bits).  [k_new] and [k_twin]
    have the same digest; [k_prime] has the fingerprint of [k_new] and lives
    in the alternate bucket of [k_new]. *)

Module Scenario.

Local Open Scope string_scope.

(** A record that carries the key it was inserted under in its address. *)
Definition record_of (key : string) : UTXOValue :=
  mkUTXOValue false 0 0 "" key.

Definition k_new : string := "000000000002a084:0".
Definition k_twin : string := "0000000116447bf8:0".
Definition k_prime : string := "00000001df71a045:0".

Definition kB1 : string := "000000000002b486:0".
Definition kB2 : string := "000000000007083c:0".
Definition kB3 : string := "000000000007543e:0".
Definition kB4 : string := "0000000000219da7:0".

Definition kA1 : string := "0000000015bde5ce:0".
Definition kA2 : string := "0000000018e3a08c:0".
Definition kA3 : string := "000000001f3825b3:0".

Definition keys_B : list string := [kB1; kB2; kB3; kB4].
Definition keys_A : list string := [k_prime; kA1; kA2; kA3].
Definition keys_C1 : list string :=
  ["000000000004ddd2:0"; "00000000001386d3:0"; "0000000000231994:0";
   "0000000000234592:0"].
Definition keys_C2 : list string :=
  ["000000000001ae27:0"; "000000000001ba25:0"; "0000000000045a9f:0";
   "0000000000046e9d:0"].
Definition keys_C3 : list string :=
  ["0000000000008644:0"; "0000000000040307:0"; "0000000000043705:0";
   "000000000017dd45:0"].

Definition adds (keys : list string) : list op :=
  map (fun key => Add key (record_of key)) keys.

(** The table after a sequence of calls on the empty table of the fixed
    profile (the empty table again if the fuel does not suffice). *)
Definition table_after (rand : nat -> nat) (ops : list op) : Manager :=
  match run perfect_cfg rand 502 ops (empty_manager perfect_cfg) with
  | Some (_, m) => m
  | None => empty_manager perfect_cfg
  end.

(** [rand()] returning the listed values, then zero. *)
Definition draws (l : list nat) (n : nat) : nat := nth n l 0%nat.

(** Twenty direct placements: bucket 529 and bucket 1300 full, and full as
    well the three buckets 827, 1546 and 31 where the entries of bucket 1300
    would go. *)
Definition blocked_ops : list op :=
  adds (keys_B ++ keys_A ++ keys_C1 ++ keys_C2 ++ keys_C3).

Abbreviation blocked_table rand := (table_after rand blocked_ops).

(** The entry taken out of slot [idx] of bucket 1300 was the only one there
    with its fingerprint, and no entry with that fingerprint and the
    selector bit set waits in the bucket it would be sent to. *)
Definition slot_lost (rand : nat -> nat) (idx : nat) (g0 : Z) : bool :=
  let m := blocked_table rand in
  negb (Z.to_nat (get_alt_bucket perfect_cfg 1300 g0) =? Z.to_nat 1300)%nat &&
  negb (existsb (entry_matches g0 true)
          (bucket_at m (get_alt_bucket perfect_cfg 1300 g0))) &&
  forallb (fun e => negb (fingerprint e =? g0)%Z) (delete idx (bucket_at m 1300)).

(** An entry moved without its selector bit.

    Eight direct placements fill buckets 529 and 1300; the ninth insert,
    of [k_new], finds both full and calls [relocate], which takes the entry
    of [kA1] out of slot 1 of bucket 1300 and appends it, as it is, to
    bucket 827. *)

Definition moved_ops : list op :=
  adds (keys_B ++ keys_A) ++ [Add k_new (record_of k_new)].

(** Read-back after a relocation.

    Twelve direct placements fill buckets 529, 1300 and 1546; bucket 1300
    holds, in slot 0, the entry of [k_prime], whose fingerprint is that of
    [k_new].  The insert of [k_new] then walks three steps, with [rand()]
    returning 2, 0 and 1: it takes slot 2, puts the evicted entry into
    slot 0, and puts the entry of [k_prime], evicted from there, into slot 1
    with the selector bit set, in front of the entry of [k_new]. *)

Definition shadowed_ops : list op :=
  adds (keys_B ++ keys_A ++ keys_C2) ++ [Add k_new (record_of k_new)].

(** The table the failed insert of [k_new] leaves behind. *)
Abbreviation failed_table rand :=
  (table_after rand
     (blocked_ops
        ++ [Add k_new (record_of k_new)])).

(** After [k_new]: an insert of [kB1] into the same bucket, its removal, an
    insert of [k_prime] into the alternate bucket of [k_new], and a remove
    of a key that is not there. *)
Definition quiet_ops : list op :=
  [Add kB1 (record_of kB1);
   Remove kB1;
   Add k_prime (record_of k_prime);
   Remove kA1].

End Scenario.

(** ** The parametrised program (rst2.cpp) *)

Module Rst2.

(** The constructor: it stores its three parameters, fixes MAX_RELOCATIONS
    at 100, takes BUCKET_BITS = ceil(log2(num_buckets)) and allocates
    [num_buckets] empty buckets.  It checks nothing.  The model is that of
    a construction whose allocations succeed: [vector(num_buckets)] and
    [reserve(bucket_size)] throw when the sizes exceed what can be
    allocated, which is not modelled.  For [num_buckets = 0] the source
    converts an infinite value to an integer, which is undefined, and
    [Z.log2_up] is the ceiling of the double-precision logarithm for bucket
    counts up to 2^30: statements about BUCKET_BITS are made for bucket
    counts from 1 to 2^30. *)
Definition UTXOManager_new (num_buckets bucket_size : nat) (fingerprint_bits : Z)
  : Config * Manager :=
  (mkConfig bucket_size num_buckets 100 fingerprint_bits
            (Z.log2_up (Z.of_nat num_buckets)),
   mkManager (replicate num_buckets []) 0).


(** [bucket >= NUM_BUCKETS] *)
Definition out_of_range (cfg : Config) (bucket : Z) : bool :=
  Z.of_nat (NUM_BUCKETS cfg) <=? bucket.

Section Guarded.

Variable cfg : Config.
Variable rand : nat -> nat.

(** [relocate] of rst2.cpp: the walk of the other two programs with three
    index checks added.  The eviction index is drawn from [0, size - 1];
    with BUCKET_SIZE = 0 the source draws from [0, SIZE_MAX] and indexes an
    empty vector, so here too the model is that of the code for
    BUCKET_SIZE > 0 only. *)
Fixpoint relocate (fuel : nat) (m : Manager) (bucket fp : Z) (v : UTXOValue)
    (depth : nat) : option (bool * Manager) :=
  match fuel with
  | O => None
  | S fuel' =>
    if (MAX_RELOCATIONS cfg <? depth)%nat then Some (false, m) else
    if out_of_range cfg bucket then Some (false, m) else
    let alt_bucket := get_alt_bucket cfg bucket fp in
    if out_of_range cfg alt_bucket then Some (false, m) else
    if (length (bucket_at m alt_bucket) <? BUCKET_SIZE cfg)%nat then
      Some (true, push_back m alt_bucket (mkBucketEntry fp true v))
    else
      let evict_idx :=
        (rand (rand_calls m) mod length (bucket_at m alt_bucket))%nat in
      let evicted := nth evict_idx (bucket_at m alt_bucket) BucketEntry_default in
      let m1 := set_slot (tick m) alt_bucket evict_idx (mkBucketEntry fp true v) in
      let new_bucket :=
        if selector_bit evicted
        then Z.lxor alt_bucket
               (Z.land (u32 (fingerprint evicted * 0xCC9E2D51))
                       (low_mask (BUCKET_BITS cfg)))
        else get_alt_bucket cfg alt_bucket (fingerprint evicted) in
      if out_of_range cfg new_bucket then Some (false, m1) else
      if (length (bucket_at m1 new_bucket) <? BUCKET_SIZE cfg)%nat then
        Some (true, push_back m1 new_bucket evicted)
      else
        relocate fuel' m1 new_bucket (fingerprint evicted) (value evicted)
                 (S depth)
  end.

Definition add_utxo (fuel : nat) (key : string) (v : UTXOValue) (m : Manager)
  : option (bool * Manager) :=
  let '(bucket, fp) := get_bucket_fingerprint cfg key in
  if out_of_range cfg bucket then Some (false, m) else
  if existsb (entry_matches fp false) (bucket_at m bucket) then Some (false, m)
  else
    let alt_bucket := get_alt_bucket cfg bucket fp in
    if out_of_range cfg alt_bucket then Some (false, m) else
    if existsb (entry_matches fp true) (bucket_at m alt_bucket)
    then Some (false, m)
    else if (length (bucket_at m bucket) <? BUCKET_SIZE cfg)%nat then
      Some (true, push_back m bucket (mkBucketEntry fp false v))
    else if (length (bucket_at m alt_bucket) <? BUCKET_SIZE cfg)%nat then
      Some (true, push_back m alt_bucket (mkBucketEntry fp true v))
    else relocate fuel m bucket fp v 0.

Definition get_utxo (key : string) (m : Manager) : option UTXOValue :=
  let '(bucket, fp) := get_bucket_fingerprint cfg key in
  if out_of_range cfg bucket then None else
  match find (entry_matches fp false) (bucket_at m bucket) with
  | Some e => Some (value e)
  | None =>
      let alt_bucket := get_alt_bucket cfg bucket fp in
      if out_of_range cfg alt_bucket then None else
      match find (entry_matches fp true) (bucket_at m alt_bucket) with
      | Some e => Some (value e)
      | None => None
      end
  end.

End Guarded.

End Rst2.

(** ** What the table holds, and what a call sequence reports *)

(** The (fingerprint, record) pairs of a bucket and of the whole table, in
    storage order. *)
Definition tuples (b : list BucketEntry) : list (Z * UTXOValue) :=
  map (fun e => (fingerprint e, value e)) b.

Definition contents (m : Manager) : list (Z * UTXOValue) :=
  concat (map tuples (buckets m)).

(** The numbers of successful inserts and of successful removes among the
    calls [ops] with results [bs]. *)
Fixpoint tally (ops : list op) (bs : list bool) : nat * nat :=
  match ops, bs with
  | Add _ _ :: ops', b :: bs' =>
      let '(i, r) := tally ops' bs' in ((if b then S i else i), r)
  | Remove _ :: ops', b :: bs' =>
      let '(i, r) := tally ops' bs' in (i, (if b then S r else r))
  | _, _ => (0%nat, 0%nat)
  end.

(** What the control flow of the manager reads of an entry: its fingerprint
    and its selector bit. *)
Definition slot_key (e : BucketEntry) : Z * bool :=
  (fingerprint e, selector_bit e).

Definition layout (m : Manager) : list (list (Z * bool)) :=
  map (map slot_key) (buckets m).

(** What a call reports and leaves behind, up to the records stored. *)
Definition outcome (r : bool * Manager) : bool * list (list (Z * bool)) * nat :=
  (fst r, layout (snd r), rand_calls (snd r)).

(** Two calls of the same kind on the same key. *)
Definition same_call (o1 o2 : op) : bool :=
  match o1, o2 with
  | Add k1 _, Add k2 _ => String.eqb k1 k2
  | Remove k1, Remove k2 => String.eqb k1 k2
  | _, _ => false
  end.

Definition run_outcome (r : list bool * Manager)
  : list bool * list (list (Z * bool)) * nat :=
  (fst r, layout (snd r), rand_calls (snd r)).

(** ** Statistics *)

(** [display_stats]: the three counters it prints, as (primary, secondary,
    empty).  [stats_entries] is the inner loop over one bucket. *)
Definition stats_entries (bucket : list BucketEntry) (acc : nat * nat * nat)
  : nat * nat * nat :=
  fold_left
    (fun '(primary, secondary, empty) entry =>
       if selector_bit entry then (primary, S secondary, empty)
       else (S primary, secondary, empty))
    bucket acc.

Definition display_stats (m : Manager) : nat * nat * nat :=
  fold_left
    (fun '(primary, secondary, empty) bucket =>
       stats_entries bucket
         (primary, secondary,
          match bucket with [] => S empty | _ => empty end))
    (buckets m) (0, 0, 0)%nat.

(** The number of buckets that hold an entry. *)
Definition occupied (l : list (list BucketEntry)) : nat :=
  length (List.filter (fun b => negb (Nat.eqb (length b) 0)) l).

(** ** CSV reader *)

(** The loop state of [split_utxo_line]. *)
Record Splitter := mkSplitter {
  tokens : list string;
  token : string;
  in_quotes : bool;
  current_quote : ascii
}.

(** [token += c] *)
Definition add_char (s : string) (c : ascii) : string :=
  String.append s (String c EmptyString).

(** [c] is a single or a double quote character. *)
Definition is_quote (c : ascii) : bool :=
  Ascii.eqb c "'"%char || Ascii.eqb c "034"%char.

Definition split_step (delimiter : ascii) (st : Splitter) (c : ascii)
  : Splitter :=
  if is_quote c && negb (in_quotes st) then
    mkSplitter (tokens st) (add_char (token st) c) true c
  else if Ascii.eqb c (current_quote st) && in_quotes st then
    mkSplitter (tokens st) (add_char (token st) c) false (current_quote st)
  else if Ascii.eqb c delimiter && negb (in_quotes st) then
    mkSplitter (tokens st ++ [token st]) EmptyString
               (in_quotes st) (current_quote st)
  else
    mkSplitter (tokens st) (add_char (token st) c)
               (in_quotes st) (current_quote st).

Fixpoint split_loop (delimiter : ascii) (line : string) (st : Splitter)
  : Splitter :=
  match line with
  | EmptyString => st
  | String c rest => split_loop delimiter rest (split_step delimiter st c)
  end.

Definition split_utxo_line (line : string) (delimiter : ascii) : list string :=
  let st := split_loop delimiter line
              (mkSplitter [] EmptyString false Ascii.zero) in
  match token st with
  | EmptyString => tokens st
  | _ => tokens st ++ [token st]
  end.

(** [isspace] in the C locale, which [operator>>] skips. *)
Definition isspace (c : ascii) : bool :=
  Ascii.eqb c " "%char || Ascii.eqb c "009"%char || Ascii.eqb c "010"%char ||
  Ascii.eqb c "011"%char || Ascii.eqb c "012"%char || Ascii.eqb c "013"%char.

(** [while (iss >> token) tokens.push_back(token)], with the characters of
    the word being read in [word]. *)
Fixpoint extract_words (line : string) (word : string) : list string :=
  match line with
  | EmptyString =>
      match word with EmptyString => [] | _ => [word] end
  | String c rest =>
      if isspace c then
        match word with
        | EmptyString => extract_words rest EmptyString
        | _ => word :: extract_words rest EmptyString
        end
      else extract_words rest (add_char word c)
  end.

Definition try_split_utxo_line (line : string) : list string :=
  let by_tab := split_utxo_line line "009"%char in
  if (6 <=? length by_tab)%nat then by_tab else
  let by_comma := split_utxo_line line ","%char in
  if (6 <=? length by_comma)%nat then by_comma else
  let by_semicolon := split_utxo_line line ";"%char in
  if (6 <=? length by_semicolon)%nat then by_semicolon else
  extract_words line EmptyString.

(** A string all of whose characters satisfy [p]. *)
Fixpoint all_chars (p : ascii -> bool) (s : string) : bool :=
  match s with
  | EmptyString => true
  | String c rest => p c && all_chars p rest
  end.

(** No quote character and no occurrence of [d]. *)
Definition plain (d : ascii) (c : ascii) : bool :=
  negb (is_quote c) && negb (Ascii.eqb c d).

(** The tokens pushed so far, each followed by the delimiter. *)
Fixpoint terminated (d : ascii) (ts : list string) : string :=
  match ts with
  | [] => EmptyString
  | t :: ts' => String.append t (String d (terminated d ts'))
  end.

Definition consumed (d : ascii) (st : Splitter) : string :=
  String.append (terminated d (tokens st)) (token st).

(** Characters of a field that can be written to a comma-separated line and
    read back: no quote, no comma, no tab. *)
Definition csv_safe (c : ascii) : bool :=
  plain ","%char c && negb (Ascii.eqb c "009"%char).

(** ** The number reader of the standard library *)

(** [std::stoull] in base 10, as [strtoull] reads a number: leading
    white space, an optional sign, then decimal digits up to the first
    character that is not one.  [None] stands for the two exceptions: no
    digit at all ([invalid_argument]) and a value above 2^64 - 1
    ([out_of_range]).  A minus sign negates the value in 64-bit unsigned
    arithmetic. *)
Definition digit_value (c : ascii) : option Z :=
  let n := Z.of_N (N_of_ascii c) in
  if (48 <=? n) && (n <=? 57) then Some (n - 48) else None.

Fixpoint read_digits (s : string) (acc : option Z) : option Z :=
  match s with
  | EmptyString => acc
  | String c rest =>
      match digit_value c with
      | Some d => read_digits rest (Some (10 * default 0 acc + d))
      | None => acc
      end
  end.

Fixpoint skip_spaces (s : string) : string :=
  match s with
  | String c rest => if isspace c then skip_spaces rest else s
  | EmptyString => s
  end.

Definition std_stoull (s : string) : option Z :=
  let '(negative, digits) :=
    match skip_spaces s with
    | String "-"%char rest => (true, rest)
    | String "+"%char rest => (false, rest)
    | other => (false, other)
    end in
  match read_digits digits None with
  | None => None
  | Some n =>
      if 2 ^ 64 <=? n then None
      else Some (if negative then (2 ^ 64 - n) mod 2 ^ 64 else n)
  end.

(** ** Parsing rows and loading a dataset *)

(** [line.find("txid:index") != npos || line.find("coinbase") != npos] *)
Definition is_header (line : string) : bool :=
  match String.index 0 "txid:index" line, String.index 0 "coinbase" line with
  | None, None => false
  | _, _ => true
  end.

Section Loading.

Variable cfg : Config.
Variable rand : nat -> nat.

(** [std::stoull]: the number read, or [None] when it throws. *)
Variable stoull : string -> option Z.

(** [tokens[i]] *)
Definition column (tokens : list string) (i : nat) : string :=
  nth i tokens EmptyString.

(** [parse_utxo_data]: the exception thrown for a short row or by [stoull]
    is caught inside, and the record is returned as far as it was filled. *)
Definition parse_utxo_data (tokens : list string) : UTXOValue :=
  if (length tokens <? 6)%nat then UTXOValue_default
  else
    let cb := String.eqb (column tokens 1) "1" in
    match stoull (column tokens 2) with
    | None => mkUTXOValue cb 0 0 EmptyString EmptyString
    | Some h =>
        match stoull (column tokens 3) with
        | None => mkUTXOValue cb h 0 EmptyString EmptyString
        | Some a => mkUTXOValue cb h a (column tokens 4) (column tokens 5)
        end
    end.

(** The state of [load_utxo_dataset]: the manager and the three counters. *)
Record Loader := mkLoader {
  manager : Manager;
  line_num : nat;
  loaded : nat;
  skipped : nat
}.

(** What both branches do with a row once it is split: insert it when it
    has six columns, count it as skipped otherwise or when the insert is
    refused. *)
Definition load_row (fuel : nat) (line : string) (st : Loader)
  : option Loader :=
  let tokens := try_split_utxo_line line in
  if (length tokens <? 6)%nat then
    Some (mkLoader (manager st) (line_num st) (loaded st) (S (skipped st)))
  else
    match add_utxo cfg rand fuel (column tokens 0) (parse_utxo_data tokens)
                   (manager st) with
    | Some (true, m') =>
        Some (mkLoader m' (line_num st) (S (loaded st)) (skipped st))
    | Some (false, m') =>
        Some (mkLoader m' (line_num st) (loaded st) (S (skipped st)))
    | None => None
    end.

(** The [while (getline(file, line))] loop. *)
Fixpoint load_rest (fuel : nat) (lines : list string) (st : Loader)
  : option Loader :=
  match lines with
  | [] => Some st
  | line :: rest =>
      let st1 := mkLoader (manager st) (S (line_num st)) (loaded st)
                          (skipped st) in
      match line with
      | EmptyString =>
          load_rest fuel rest
            (mkLoader (manager st1) (line_num st1) (loaded st1)
                      (S (skipped st1)))
      | _ =>
          match load_row fuel line st1 with
          | Some st2 => load_rest fuel rest st2
          | None => None
          end
      end
  end.

(** [load_utxo_dataset]; [file] is [None] when the file cannot be opened,
    and the lines of the file otherwise. *)
Definition load_utxo_dataset (fuel : nat) (file : option (list string))
    (m : Manager) : option Loader :=
  match file with
  | None => Some (mkLoader m 0 0 0)
  | Some [] => Some (mkLoader m 0 0 0)
  | Some (line :: rest) =>
      let st0 := mkLoader m 0 0 0 in
      match (if is_header line then Some st0 else load_row fuel line st0) with
      | Some st1 =>
          load_rest fuel rest
            (mkLoader (manager st1) (S (line_num st1)) (loaded st1)
                      (skipped st1))
      | None => None
      end
  end.

End Loading.

(** The number of lines that are neither loaded nor skipped: the header. *)
Definition header_lines (file : option (list string)) : nat :=
  match file with
  | Some (line :: _) => if is_header line then 1 else 0
  | _ => 0
  end.

Definition file_lines (file : option (list string)) : nat :=
  match file with Some lines => length lines | None => 0 end.

(** What a run of the loader reports and leaves behind, up to the records
    stored. *)
Definition loader_outcome (st : Loader)
  : list (list (Z * bool)) * nat * nat * nat * nat :=
  (layout (manager st), rand_calls (manager st), line_num st, loaded st,
   skipped st).

(** ** The exact map rst2.cpp compares against *)

Module BitcoinCoreMempool.

(** [unordered_map<string, UTXOValue> utxo_map] is a [gmap string UTXOValue]. *)

Definition add_utxo (key : string) (value : UTXOValue) (utxo_map : gmap string UTXOValue)
  : bool * gmap string UTXOValue :=
  match utxo_map !! key with
  | Some _ => (false, utxo_map)
  | None => (true, <[key := value]> utxo_map)
  end.

Definition get_utxo (key : string) (utxo_map : gmap string UTXOValue) : option UTXOValue :=
  utxo_map !! key.

Definition count (utxo_map : gmap string UTXOValue) : nat := size utxo_map.

(** The results of a sequence of [add_utxo] calls and the map they leave. *)
Fixpoint add_all (rows : list (string * UTXOValue)) (utxo_map : gmap string UTXOValue)
  : list bool * gmap string UTXOValue :=
  match rows with
  | [] => ([], utxo_map)
  | (key, value) :: rest =>
      let '(b, utxo_map') := add_utxo key value utxo_map in
      let '(bs, utxo_map'') := add_all rest utxo_map' in
      (b :: bs, utxo_map'')
  end.

End BitcoinCoreMempool.

(** The record of the first row with the given key. *)
Fixpoint first_row (key : string) (rows : list (string * UTXOValue))
  : option UTXOValue :=
  match rows with
  | [] => None
  | (k, v) :: rest => if String.eqb k key then Some v else first_row key rest
  end.

Definition accepted (bs : list bool) : nat :=
  length (List.filter (fun b : bool => b) bs).

(** ** A small table for the statements at concrete inputs *)

(** Four buckets of two slots with four fingerprint bits, built as rst2.cpp
    builds its managers. *)
Definition small_cfg : Config := fst (Rst2.UTXOManager_new 4 2 4).

Definition small_table (ops : list op) : Manager :=
  match run small_cfg (fun n => n) 102 ops (empty_manager small_cfg) with
  | Some (_, m) => m
  | None => empty_manager small_cfg
  end.

Definition small_keys : list string :=
  ["a1:0"; "a2:0"; "a3:0"; "a4:0"; "a5:0"; "a6:0"; "a7:0"; "a8:0"]%string.

Definition small_ops : list op :=
  Scenario.adds small_keys
  ++ [Remove "a3:0"%string;
      Add "a9:0"%string (Scenario.record_of "a9:0"%string);
      Add "b1:0"%string (Scenario.record_of "b1:0"%string)].

(** A file with a header, three rows of six columns, an empty line and a
    short row. *)
Definition small_file : option (list string) :=
  Some [ "txid:index,coinbase,height,amount,script,address";
         "000000000002a084:0,1,170,5000,76a9,addrA";
         EmptyString;
         "short,row";
         "0000000116447bf8:0,0,x,9,ac,addrB";
         "000000000007083c:0,0,171,12,ac,addrC" ]%string.

(** ** Addressing: ranges and the involution *)

(** The digest is the standard reflected CRC-32: its check value. *)
Example crc32_hash_check : crc32_hash "123456789"%string = 0xCBF43926.
Proof. vm_compute. reflexivity. Qed.

Lemma low_mask_ones bits : low_mask bits = Z.ones bits.
Proof. unfold low_mask. rewrite Z.ones_equiv, Z.shiftl_1_l. lia. Qed.

Lemma land_low_mask_range x bits :
  0 <= bits -> 0 <= Z.land x (low_mask bits) < 2 ^ bits.
Proof.
  intros Hb. rewrite low_mask_ones, Z.land_ones by lia.
  apply Z.mod_pos_bound. apply Z.pow_pos_nonneg; lia.
Qed.

Lemma lxor_range a b n :
  0 <= n -> 0 <= a < 2 ^ n -> 0 <= b < 2 ^ n -> 0 <= Z.lxor a b < 2 ^ n.
Proof.
  intros Hn Ha Hb.
  assert (Hnn : 0 <= Z.lxor a b) by (apply Z.lxor_nonneg; lia).
  split; [exact Hnn |].
  destruct (Z.eq_dec (Z.lxor a b) 0) as [-> | Hne]; [lia |].
  apply Z.log2_lt_pow2; [lia |].
  eapply Z.le_lt_trans; [apply Z.log2_lxor; lia |].
  assert (Hl : forall c, 0 <= c < 2 ^ n -> Z.log2 c < n \/ c = 0).
  { intros c Hc. destruct (Z.eq_dec c 0); [now right | left].
    apply Z.log2_lt_pow2; lia. }
  destruct (Hl a Ha) as [Hla | Hla], (Hl b Hb) as [Hlb | Hlb]; subst;
    change (Z.log2 0) with 0; try lia.
  - pose proof (Z.log2_nonneg a). lia.
  - pose proof (Z.log2_nonneg b). lia.
  - now contradict Hne.
Qed.

Lemma get_alt_bucket_twice cfg b f :
  get_alt_bucket cfg (get_alt_bucket cfg b f) f = b.
Proof.
  unfold get_alt_bucket.
  now rewrite Z.lxor_assoc, Z.lxor_nilpotent, Z.lxor_0_r.
Qed.

Lemma get_alt_bucket_range cfg b f :
  0 <= BUCKET_BITS cfg -> 0 <= b < 2 ^ BUCKET_BITS cfg ->
  0 <= get_alt_bucket cfg b f < 2 ^ BUCKET_BITS cfg.
Proof.
  intros Hbits Hb. unfold get_alt_bucket.
  apply lxor_range; [lia | lia |]. now apply land_low_mask_range.
Qed.

Lemma get_alt_bucket_inj cfg b1 b2 f :
  get_alt_bucket cfg b1 f = get_alt_bucket cfg b2 f -> b1 = b2.
Proof.
  intros H. rewrite <- (get_alt_bucket_twice cfg b1 f), H.
  apply get_alt_bucket_twice.
Qed.

(** The branch taken for an evicted entry with its selector bit set computes
    the very same bucket as [get_alt_bucket]. *)
Lemma selector_branch_same cfg alt_bucket fp :
  Z.lxor alt_bucket (Z.land (u32 (fp * 0xCC9E2D51)) (low_mask (BUCKET_BITS cfg)))
  = get_alt_bucket cfg alt_bucket fp.
Proof. reflexivity. Qed.

Lemma get_bucket_fingerprint_range cfg key :
  0 <= BUCKET_BITS cfg -> 0 <= FINGERPRINT_BITS cfg ->
  0 <= fst (get_bucket_fingerprint cfg key) < 2 ^ BUCKET_BITS cfg /\
  0 <= snd (get_bucket_fingerprint cfg key) < 2 ^ FINGERPRINT_BITS cfg.
Proof.
  intros Hb Hf. unfold get_bucket_fingerprint. simpl.
  split; now apply land_low_mask_range.
Qed.

(** C1. The alternate-bucket function is an involution on valid bucket
    indices: when NUM_BUCKETS = 2^BUCKET_BITS, for every bucket index
    b in [0, NUM_BUCKETS) and every fingerprint f in [0, 2^FINGERPRINT_BITS),
    the alternate of the alternate of b under f is b again, and the alternate
    is itself a bucket index in [0, NUM_BUCKETS). *)
Theorem get_alt_bucket_involutive cfg b f :
  Z.of_nat (NUM_BUCKETS cfg) = 2 ^ BUCKET_BITS cfg ->
  0 <= b < Z.of_nat (NUM_BUCKETS cfg) ->
  0 <= f < 2 ^ FINGERPRINT_BITS cfg ->
  get_alt_bucket cfg (get_alt_bucket cfg b f) f = b /\
  0 <= get_alt_bucket cfg b f < Z.of_nat (NUM_BUCKETS cfg).
Proof.
  intros Hpow Hb _. split; [apply get_alt_bucket_twice |].
  rewrite Hpow in *.
  assert (0 <= BUCKET_BITS cfg).
  { destruct (Z.lt_ge_cases (BUCKET_BITS cfg) 0) as [Hneg | ?]; [| lia].
    rewrite Z.pow_neg_r in Hb by lia. lia. }
  now apply get_alt_bucket_range.
Qed.

Lemma get_alt_bucket_involutive_witness :
  get_alt_bucket perfect_cfg (get_alt_bucket perfect_cfg 529 373) 373 = 529 /\
  0 <= get_alt_bucket perfect_cfg 529 373 < Z.of_nat (NUM_BUCKETS perfect_cfg).
Proof.
  apply (get_alt_bucket_involutive perfect_cfg 529 373).
  - vm_compute. reflexivity.
  - vm_compute. split; [discriminate | reflexivity].
  - vm_compute. split; [discriminate | reflexivity].
Defined.

(** ** Bucket store: reading after an update *)

Lemma bucket_at_alter f n bs c j :
  bucket_at (mkManager (alter f n bs) c) j =
    if decide (n = Z.to_nat j) then default [] (f <$> bs !! n)
    else default [] (bs !! Z.to_nat j).
Proof.
  unfold bucket_at. simpl. case_decide as Hn.
  - subst n. now rewrite list_lookup_alter_eq.
  - now rewrite list_lookup_alter_ne.
Qed.

Lemma bucket_at_tick m j : bucket_at (tick m) j = bucket_at m j.
Proof. reflexivity. Qed.

Lemma bucket_at_length_in_range m i :
  (0 < length (bucket_at m i))%nat -> (Z.to_nat i < length (buckets m))%nat.
Proof.
  unfold bucket_at. intros H. apply lookup_lt_is_Some.
  destruct (buckets m !! Z.to_nat i); [eauto | simpl in H; lia].
Qed.

Lemma bucket_at_push_back_other m i e j :
  Z.to_nat i <> Z.to_nat j -> bucket_at (push_back m i e) j = bucket_at m j.
Proof.
  intros Hne. unfold push_back. rewrite bucket_at_alter.
  now case_decide.
Qed.

Lemma bucket_at_push_back_same m i e :
  (Z.to_nat i < length (buckets m))%nat ->
  bucket_at (push_back m i e) i = bucket_at m i ++ [e].
Proof.
  intros Hlt. unfold push_back. rewrite bucket_at_alter.
  case_decide; [| congruence]. unfold bucket_at.
  destruct (lookup_lt_is_Some_2 _ _ Hlt) as [b ->]. reflexivity.
Qed.

Lemma bucket_at_set_slot_other m i idx e j :
  Z.to_nat i <> Z.to_nat j -> bucket_at (set_slot m i idx e) j = bucket_at m j.
Proof.
  intros Hne. unfold set_slot. rewrite bucket_at_alter.
  now case_decide.
Qed.

Lemma bucket_at_set_slot_same m i idx e :
  bucket_at (set_slot m i idx e) i = <[idx := e]> (bucket_at m i).
Proof.
  unfold set_slot. rewrite bucket_at_alter.
  case_decide; [| congruence]. unfold bucket_at.
  now destruct (buckets m !! Z.to_nat i).
Qed.

Lemma bucket_at_set_slot_length m i idx e j :
  length (bucket_at (set_slot m i idx e) j) = length (bucket_at m j).
Proof.
  destruct (decide (Z.to_nat i = Z.to_nat j)) as [Heq | Hne].
  - unfold set_slot. rewrite bucket_at_alter. case_decide; [| congruence].
    unfold bucket_at. rewrite <- Heq.
    destruct (buckets m !! Z.to_nat i); simpl; [apply length_insert | easy].
  - now rewrite bucket_at_set_slot_other.
Qed.

Lemma bucket_at_set_bucket_other m i b j :
  Z.to_nat i <> Z.to_nat j -> bucket_at (set_bucket m i b) j = bucket_at m j.
Proof.
  intros Hne. unfold set_bucket. rewrite bucket_at_alter.
  now case_decide.
Qed.

Lemma bucket_at_set_bucket_same m i b :
  (Z.to_nat i < length (buckets m))%nat -> bucket_at (set_bucket m i b) i = b.
Proof.
  intros Hlt. unfold set_bucket. rewrite bucket_at_alter.
  case_decide; [| congruence].
  destruct (lookup_lt_is_Some_2 _ _ Hlt) as [b0 ->]. reflexivity.
Qed.

Lemma sizes_set_slot m i idx e : sizes (set_slot m i idx e) = sizes m.
Proof.
  unfold sizes, set_slot. simpl.
  change (map length ?l) with (length <$> l).
  rewrite (list_fmap_alter length _ id).
  - apply list_alter_id. reflexivity.
  - apply Forall_forall. intros b _. apply length_insert.
Qed.

Lemma sizes_tick m : sizes (tick m) = sizes m.
Proof. reflexivity. Qed.

Lemma sizes_length m m' :
  sizes m' = sizes m -> length (buckets m') = length (buckets m).
Proof.
  unfold sizes. intros H. apply (f_equal (@length nat)) in H.
  now rewrite !length_map in H.
Qed.

Lemma sizes_bucket_at m m' i :
  sizes m' = sizes m -> length (bucket_at m' i) = length (bucket_at m i).
Proof.
  unfold sizes, bucket_at. intros H.
  assert (Hl : (length <$> buckets m') !! Z.to_nat i
               = (length <$> buckets m) !! Z.to_nat i)
    by (change (length <$> ?l) with (map length l); now rewrite H).
  rewrite !list_lookup_fmap in Hl.
  destruct (buckets m' !! Z.to_nat i), (buckets m !! Z.to_nat i);
    simpl in *; congruence.
Qed.

Lemma count_sizes m m' : sizes m' = sizes m -> count m' = count m.
Proof.
  unfold sizes, count. generalize 0%nat.
  generalize (buckets m) as l, (buckets m') as l'.
  induction l as [| b l IH]; intros [| b' l'] acc H; simpl in *;
    try discriminate; [reflexivity |].
  injection H as Hb Hl. rewrite Hb. now apply IH.
Qed.

Lemma within_capacity_sizes cfg m m' :
  sizes m' = sizes m -> within_capacity cfg m -> within_capacity cfg m'.
Proof.
  unfold within_capacity, sizes. intros Hs Hm.
  apply Forall_lookup_2. intros i b' Hb'.
  assert (Hl : (length <$> buckets m') !! i = (length <$> buckets m) !! i)
    by (change (length <$> ?l) with (map length l); now rewrite Hs).
  rewrite !list_lookup_fmap, Hb' in Hl. simpl in Hl.
  destruct (buckets m !! i) as [b |] eqn:Hb; [| discriminate].
  injection Hl as ->. exact (Forall_lookup_1 _ _ _ _ Hm Hb).
Qed.

Lemma within_capacity_push_back cfg m i e :
  (length (bucket_at m i) < BUCKET_SIZE cfg)%nat ->
  within_capacity cfg m -> within_capacity cfg (push_back m i e).
Proof.
  unfold within_capacity, push_back, bucket_at. simpl. intros Hroom Hm.
  apply Forall_alter; [exact Hm |].
  intros b Hb _. rewrite Hb in Hroom. simpl in Hroom.
  rewrite length_app. simpl. lia.
Qed.

Lemma within_capacity_set_bucket cfg m i b :
  (length b <= BUCKET_SIZE cfg)%nat ->
  within_capacity cfg m -> within_capacity cfg (set_bucket m i b).
Proof.
  unfold within_capacity, set_bucket. simpl. intros Hb Hm.
  apply Forall_alter; [exact Hm | auto].
Qed.

Lemma length_buckets_push_back m i e :
  length (buckets (push_back m i e)) = length (buckets m).
Proof. apply length_alter. Qed.

Lemma length_buckets_set_bucket m i b :
  length (buckets (set_bucket m i b)) = length (buckets m).
Proof. apply length_alter. Qed.

(** ** The relocation walk: shape, termination and sizes *)

Section Relocation.

Variable cfg : Config.
Variable rand : nat -> nat.

(** The recursion equation of [relocate]; both branches on the evicted
    entry's selector bit lead to the same bucket. *)
Lemma relocate_unfold fuel m bucket fp v depth :
  relocate cfg rand (S fuel) m bucket fp v depth =
    if (MAX_RELOCATIONS cfg <? depth)%nat then Some (false, m) else
    let alt_bucket := get_alt_bucket cfg bucket fp in
    if (length (bucket_at m alt_bucket) <? BUCKET_SIZE cfg)%nat then
      Some (true, push_back m alt_bucket (mkBucketEntry fp true v))
    else
      let evict_idx :=
        (rand (rand_calls m) mod length (bucket_at m alt_bucket))%nat in
      let evicted := nth evict_idx (bucket_at m alt_bucket) BucketEntry_default in
      let m1 := set_slot (tick m) alt_bucket evict_idx (mkBucketEntry fp true v) in
      let new_bucket := get_alt_bucket cfg alt_bucket (fingerprint evicted) in
      if (length (bucket_at m1 new_bucket) <? BUCKET_SIZE cfg)%nat then
        Some (true, push_back m1 new_bucket evicted)
      else
        relocate cfg rand fuel m1 new_bucket (fingerprint evicted)
                 (value evicted) (S depth).
Proof.
  simpl.
  destruct (selector_bit
    (nth (rand (rand_calls m) mod
            length (bucket_at m (get_alt_bucket cfg bucket fp)))
         (bucket_at m (get_alt_bucket cfg bucket fp)) BucketEntry_default));
    reflexivity.
Qed.

(** What one call can do, as a case split on the four exits. *)
Ltac relocate_exits H :=
  rewrite relocate_unfold in H; cbv zeta in H;
  match type of H with
  | (if ?c then _ else _) = _ =>
      destruct c eqn:?Hdepth;
      [ | match type of H with
          | (if ?c then _ else _) = _ =>
              destruct c eqn:?Hroom;
              [ | match type of H with
                  | (if ?c then _ else _) = _ => destruct c eqn:?Hroom'
                  end ]
          end ]
  end.

Lemma relocate_total fuel : forall m bucket fp v depth,
  (MAX_RELOCATIONS cfg + 1 - depth < fuel)%nat ->
  exists b m', relocate cfg rand fuel m bucket fp v depth = Some (b, m').
Proof.
  induction fuel as [| fuel IH]; intros m bucket fp v depth Hfuel; [lia |].
  rewrite relocate_unfold. cbv zeta.
  destruct (MAX_RELOCATIONS cfg <? depth)%nat eqn:Hdepth; [eauto |].
  destruct (_ <? BUCKET_SIZE cfg)%nat; [eauto |].
  destruct (_ <? BUCKET_SIZE cfg)%nat; [eauto |].
  apply IH. apply Nat.ltb_ge in Hdepth. lia.
Qed.

Lemma relocate_depth_exceeded fuel m bucket fp v depth :
  (MAX_RELOCATIONS cfg < depth)%nat ->
  relocate cfg rand (S fuel) m bucket fp v depth = Some (false, m).
Proof.
  intros Hd. rewrite relocate_unfold.
  apply Nat.ltb_lt in Hd. now rewrite Hd.
Qed.

(** Every eviction makes one call of [rand()], so the calls made during a
    walk count its evictions. *)
Lemma relocate_evictions fuel : forall m bucket fp v depth b m',
  relocate cfg rand fuel m bucket fp v depth = Some (b, m') ->
  (rand_calls m <= rand_calls m' <=
     rand_calls m + (MAX_RELOCATIONS cfg + 1 - depth))%nat.
Proof.
  induction fuel as [| fuel IH]; intros m bucket fp v depth b m' H;
    [discriminate |].
  relocate_exits H.
  - injection H as <- <-. lia.
  - injection H as <- <-. simpl. lia.
  - injection H as <- <-. simpl. apply Nat.ltb_ge in Hdepth. lia.
  - apply IH in H. simpl in H. apply Nat.ltb_ge in Hdepth. lia.
Qed.

(** A walk that fails has only overwritten slots: every bucket keeps its
    size. *)
Lemma relocate_false_sizes fuel : forall m bucket fp v depth m',
  relocate cfg rand fuel m bucket fp v depth = Some (false, m') ->
  sizes m' = sizes m.
Proof.
  induction fuel as [| fuel IH]; intros m bucket fp v depth m' H;
    [discriminate |].
  relocate_exits H; try discriminate.
  - now injection H as <-.
  - apply IH in H. now rewrite H, sizes_set_slot, sizes_tick.
Qed.

Lemma relocate_within_capacity fuel : forall m bucket fp v depth b m',
  relocate cfg rand fuel m bucket fp v depth = Some (b, m') ->
  within_capacity cfg m -> within_capacity cfg m'.
Proof.
  induction fuel as [| fuel IH]; intros m bucket fp v depth b m' H Hm;
    [discriminate |].
  relocate_exits H.
  - now injection H as <- <-.
  - injection H as <- <-. apply Nat.ltb_lt in Hroom.
    now apply within_capacity_push_back.
  - injection H as <- <-. apply Nat.ltb_lt in Hroom'.
    apply within_capacity_push_back; [exact Hroom' |].
    eapply within_capacity_sizes; [| exact Hm].
    now rewrite sizes_set_slot, sizes_tick.
  - eapply IH; [exact H |].
    eapply within_capacity_sizes; [| exact Hm].
    now rewrite sizes_set_slot, sizes_tick.
Qed.

Lemma relocate_length_buckets fuel : forall m bucket fp v depth b m',
  relocate cfg rand fuel m bucket fp v depth = Some (b, m') ->
  length (buckets m') = length (buckets m).
Proof.
  induction fuel as [| fuel IH]; intros m bucket fp v depth b m' H;
    [discriminate |].
  relocate_exits H.
  - now injection H as <- <-.
  - injection H as <- <-. apply length_buckets_push_back.
  - injection H as <- <-. rewrite length_buckets_push_back.
    apply sizes_length. now rewrite sizes_set_slot, sizes_tick.
  - apply IH in H. rewrite H.
    apply sizes_length. now rewrite sizes_set_slot, sizes_tick.
Qed.

(** The four ways [add_utxo] can go before it reaches the walk. *)
Lemma add_utxo_cases fuel key v m r bucket fp :
  get_bucket_fingerprint cfg key = (bucket, fp) ->
  add_utxo cfg rand fuel key v m = r ->
  let alt_bucket := get_alt_bucket cfg bucket fp in
  (r = Some (false, m) /\
     (existsb (entry_matches fp false) (bucket_at m bucket) = true \/
      existsb (entry_matches fp true) (bucket_at m alt_bucket) = true)) \/
  (existsb (entry_matches fp false) (bucket_at m bucket) = false /\
   existsb (entry_matches fp true) (bucket_at m alt_bucket) = false /\
   ((r = Some (true, push_back m bucket (mkBucketEntry fp false v)) /\
       (length (bucket_at m bucket) < BUCKET_SIZE cfg)%nat) \/
    (r = Some (true, push_back m alt_bucket (mkBucketEntry fp true v)) /\
       (BUCKET_SIZE cfg <= length (bucket_at m bucket))%nat /\
       (length (bucket_at m alt_bucket) < BUCKET_SIZE cfg)%nat) \/
    (r = relocate cfg rand fuel m bucket fp v 0 /\
       (BUCKET_SIZE cfg <= length (bucket_at m bucket))%nat /\
       (BUCKET_SIZE cfg <= length (bucket_at m alt_bucket))%nat))).
Proof.
  unfold add_utxo. intros ->. simpl. intros <-.
  destruct (existsb (entry_matches fp false) (bucket_at m bucket)); [auto |].
  destruct (existsb (entry_matches fp true) _); [auto |].
  right. split; [reflexivity |]. split; [reflexivity |].
  destruct (length (bucket_at m bucket) <? BUCKET_SIZE cfg)%nat eqn:H1.
  { apply Nat.ltb_lt in H1. auto. }
  apply Nat.ltb_ge in H1.
  destruct (length (bucket_at m _) <? BUCKET_SIZE cfg)%nat eqn:H2.
  { apply Nat.ltb_lt in H2. auto. }
  apply Nat.ltb_ge in H2. auto.
Qed.

End Relocation.

(** ** Runs and reachable tables *)

Lemma run_reachable cfg rand fuel ops : forall m bs m',
  reachable cfg rand m -> run cfg rand fuel ops m = Some (bs, m') ->
  reachable cfg rand m'.
Proof.
  induction ops as [| o ops IH]; intros m bs m' Hm Hrun; simpl in Hrun.
  - now injection Hrun as <- <-.
  - destruct (apply_op cfg rand fuel o m) as [[b m1] |] eqn:Ho;
      [| discriminate].
    destruct (run cfg rand fuel ops m1) as [[bs1 m2] |] eqn:Hr;
      [| discriminate].
    injection Hrun as <- <-. apply (IH m1 bs1); [| exact Hr].
    destruct o as [key v | key]; simpl in Ho.
    + eapply reachable_add; eauto.
    + injection Ho as Ho.
      replace m1 with (snd (remove_utxo cfg key m)) by now rewrite Ho.
      now apply reachable_remove.
Qed.

Lemma run_snoc cfg rand fuel ops o : forall m bs m1 b m2,
  run cfg rand fuel ops m = Some (bs, m1) ->
  apply_op cfg rand fuel o m1 = Some (b, m2) ->
  run cfg rand fuel (ops ++ [o]) m = Some (bs ++ [b], m2).
Proof.
  induction ops as [| o' ops IH]; intros m bs m1 b m2 Hrun Ho;
    cbn [run app] in *.
  - injection Hrun as <- <-. now rewrite Ho.
  - destruct (apply_op cfg rand fuel o' m) as [[b' m'] |]; [| discriminate Hrun].
    destruct (run cfg rand fuel ops m') as [[bs' m''] |] eqn:Hr;
      [| discriminate Hrun].
    injection Hrun as <- <-.
    now rewrite (IH m' bs' m'' b m2 Hr Ho).
Qed.

(** ** Matching loops *)

Lemma erase_first_length fp sb b : forall b',
  erase_first fp sb b = Some b' -> length b = S (length b').
Proof.
  induction b as [| e b IH]; intros b' H; simpl in H; [discriminate |].
  destruct (entry_matches fp sb e).
  - now injection H as <-.
  - destruct (erase_first fp sb b) as [b1 |]; [| discriminate].
    injection H as <-. simpl. f_equal. now apply IH.
Qed.

Lemma erase_first_none_find fp sb b :
  erase_first fp sb b = None <-> find (entry_matches fp sb) b = None.
Proof.
  induction b as [| e b IH]; simpl; [easy |].
  destruct (entry_matches fp sb e); [easy |].
  destruct (erase_first fp sb b); simpl.
  - split; [discriminate | intros H; apply IH in H; discriminate].
  - split; [intros _; now apply IH | reflexivity].
Qed.

Lemma existsb_false_find fp sb b :
  existsb (entry_matches fp sb) b = false <->
  find (entry_matches fp sb) b = None.
Proof.
  induction b as [| e b IH]; simpl; [easy |].
  destruct (entry_matches fp sb e); simpl; [easy | exact IH].
Qed.

Lemma within_capacity_bucket_at cfg m i :
  within_capacity cfg m -> (length (bucket_at m i) <= BUCKET_SIZE cfg)%nat.
Proof.
  unfold within_capacity, bucket_at. intros Hm.
  destruct (buckets m !! Z.to_nat i) as [b |] eqn:Hb; simpl; [| lia].
  exact (Forall_lookup_1 _ _ _ _ Hm Hb).
Qed.

(** ** Sizes under the public operations *)

Section Sizes.

Variable cfg : Config.
Variable rand : nat -> nat.

Lemma add_utxo_within_capacity fuel key v m b m' :
  add_utxo cfg rand fuel key v m = Some (b, m') ->
  within_capacity cfg m -> within_capacity cfg m'.
Proof.
  intros H Hm.
  destruct (get_bucket_fingerprint cfg key) as [bucket fp] eqn:Haddr.
  destruct (add_utxo_cases cfg rand fuel key v m _ bucket fp Haddr H)
    as [[Hr _] | (_ & _ & [[Hr Hroom] | [(Hr & _ & Hroom) | [Hr _]]])].
  - now injection Hr as -> ->.
  - injection Hr as -> ->. now apply within_capacity_push_back.
  - injection Hr as -> ->. now apply within_capacity_push_back.
  - symmetry in Hr. eapply relocate_within_capacity; eauto.
Qed.

Lemma remove_utxo_within_capacity key m :
  within_capacity cfg m -> within_capacity cfg (snd (remove_utxo cfg key m)).
Proof.
  intros Hm. unfold remove_utxo.
  destruct (get_bucket_fingerprint cfg key) as [bucket fp].
  destruct (erase_first fp false (bucket_at m bucket)) as [b' |] eqn:H1.
  { simpl. apply within_capacity_set_bucket; [| exact Hm].
    apply erase_first_length in H1.
    pose proof (within_capacity_bucket_at cfg m bucket Hm). lia. }
  destruct (erase_first fp true _) as [b' |] eqn:H2; simpl; [| exact Hm].
  apply within_capacity_set_bucket; [| exact Hm].
  apply erase_first_length in H2.
  pose proof (within_capacity_bucket_at cfg m
                (get_alt_bucket cfg bucket fp) Hm). lia.
Qed.

Lemma empty_manager_within_capacity : within_capacity cfg (empty_manager cfg).
Proof.
  unfold within_capacity, empty_manager. simpl.
  apply Forall_replicate. simpl. lia.
Qed.

(** C7. Capacity bound: in every table reachable from the empty table by
    [add_utxo] and [remove_utxo] calls, no bucket holds more than
    BUCKET_SIZE entries. *)
Theorem capacity_bound m :
  reachable cfg rand m ->
  forall b, In b (buckets m) -> (length b <= BUCKET_SIZE cfg)%nat.
Proof.
  intros Hreach.
  assert (Hcap : within_capacity cfg m).
  { induction Hreach as [| fuel key v m b m' _ IH Hadd | key m _ IH].
    - apply empty_manager_within_capacity.
    - eapply add_utxo_within_capacity; eauto.
    - now apply remove_utxo_within_capacity. }
  intros b Hb. unfold within_capacity in Hcap.
  rewrite Forall_forall in Hcap. apply Hcap. now apply list_elem_of_In.
Qed.

(** When lookup finds no match for a key, remove finds none either and
    changes nothing. *)
Lemma remove_utxo_no_match key m :
  get_utxo cfg key m = None -> remove_utxo cfg key m = (false, m).
Proof.
  unfold get_utxo, remove_utxo.
  destruct (get_bucket_fingerprint cfg key) as [bucket fp].
  destruct (find (entry_matches fp false) (bucket_at m bucket)) eqn:H1;
    [discriminate |].
  destruct (find (entry_matches fp true) _) eqn:H2; [discriminate |].
  intros _. apply erase_first_none_find in H1, H2. now rewrite H1, H2.
Qed.

End Sizes.

(** ** Lookup through the matching loops *)

Lemma find_app_last {A} (p : A -> bool) l e :
  find p (l ++ [e]) =
    match find p l with
    | Some x => Some x
    | None => if p e then Some e else None
    end.
Proof.
  induction l as [| x l IH]; simpl; [reflexivity |].
  now destruct (p x).
Qed.

Lemma entry_matches_disjoint fp sb fp' sb' e :
  (fp, sb) <> (fp', sb') ->
  entry_matches fp sb e = true -> entry_matches fp' sb' e = false.
Proof.
  unfold entry_matches. intros Hne H.
  apply andb_true_iff in H as [Hf Hs].
  apply Z.eqb_eq in Hf. apply eqb_prop in Hs. subst fp sb.
  destruct (Z.eqb_spec (fingerprint e) fp'); simpl; [| reflexivity].
  destruct (eqb (selector_bit e) sb') eqn:Hs; [| reflexivity].
  apply eqb_prop in Hs. congruence.
Qed.

Lemma find_erase_first_disjoint fp sb fp' sb' b : forall b',
  (fp, sb) <> (fp', sb') ->
  erase_first fp sb b = Some b' ->
  find (entry_matches fp' sb') b' = find (entry_matches fp' sb') b.
Proof.
  induction b as [| e b IH]; intros b' Hne H; simpl in H; [discriminate |].
  destruct (entry_matches fp sb e) eqn:He.
  - injection H as <-. simpl.
    now rewrite (entry_matches_disjoint _ _ _ _ _ Hne He).
  - destruct (erase_first fp sb b) as [b1 |]; [| discriminate].
    injection H as <-. simpl.
    destruct (entry_matches fp' sb' e); [reflexivity |]. now apply IH.
Qed.

Lemma reachable_wf_manager cfg rand m :
  reachable cfg rand m -> wf_manager cfg m.
Proof.
  unfold wf_manager.
  induction 1 as [| fuel key v m b m' _ IH Hadd | key m _ IH].
  - apply length_replicate.
  - rewrite <- IH.
    destruct (get_bucket_fingerprint cfg key) as [bucket fp] eqn:Haddr.
    destruct (add_utxo_cases cfg rand fuel key v m _ bucket fp Haddr Hadd)
      as [[Hr _] | (_ & _ & [[Hr _] | [[Hr _] | [Hr _]]])].
    + now injection Hr as -> ->.
    + injection Hr as -> ->. apply length_buckets_push_back.
    + injection Hr as -> ->. apply length_buckets_push_back.
    + symmetry in Hr. eapply relocate_length_buckets; eauto.
  - rewrite <- IH. unfold remove_utxo.
    destruct (get_bucket_fingerprint cfg key) as [bucket fp].
    destruct (erase_first fp false _);
      [apply length_buckets_set_bucket |].
    destruct (erase_first fp true _);
      [apply length_buckets_set_bucket | reflexivity].
Qed.

Section Addresses.

Variable cfg : Config.
Hypothesis Hcfg : wf_config cfg.

Lemma key_bucket_range key :
  0 <= fst (get_bucket_fingerprint cfg key) < 2 ^ BUCKET_BITS cfg.
Proof.
  destruct Hcfg as (Hb & _). unfold get_bucket_fingerprint. simpl.
  now apply land_low_mask_range.
Qed.

Lemma key_bucket_in_range key m :
  wf_manager cfg m ->
  (Z.to_nat (fst (get_bucket_fingerprint cfg key)) < length (buckets m))%nat.
Proof.
  unfold wf_manager. intros ->.
  pose proof (key_bucket_range key) as Hr.
  destruct Hcfg as (_ & Hpow). lia.
Qed.

Lemma key_alt_bucket_range key :
  0 <= get_alt_bucket cfg (fst (get_bucket_fingerprint cfg key))
         (snd (get_bucket_fingerprint cfg key)) < 2 ^ BUCKET_BITS cfg.
Proof.
  destruct Hcfg as (Hb & _).
  apply get_alt_bucket_range; [exact Hb | apply key_bucket_range].
Qed.

Lemma key_alt_bucket_in_range key m :
  wf_manager cfg m ->
  (Z.to_nat (get_alt_bucket cfg (fst (get_bucket_fingerprint cfg key))
               (snd (get_bucket_fingerprint cfg key)))
   < length (buckets m))%nat.
Proof.
  unfold wf_manager. intros ->.
  pose proof (key_alt_bucket_range key) as Hr.
  destruct Hcfg as (_ & Hpow). lia.
Qed.

End Addresses.

(** ** Lookup after direct placement *)

Section ReadBack.

Variable cfg : Config.
Variable rand : nat -> nat.
Hypothesis Hcfg : wf_config cfg.

(** Lookup reads the key only through its (bucket, fingerprint) pair. *)
Lemma get_utxo_same_address k1 k2 m :
  get_bucket_fingerprint cfg k1 = get_bucket_fingerprint cfg k2 ->
  get_utxo cfg k2 m = get_utxo cfg k1 m.
Proof. unfold get_utxo. now intros ->. Qed.

Lemma bucket_at_push_back_cases m i e j :
  bucket_at (push_back m i e) j = bucket_at m j \/
  (Z.to_nat i = Z.to_nat j /\
   bucket_at (push_back m i e) j = bucket_at m j ++ [e]).
Proof.
  destruct (decide (Z.to_nat i = Z.to_nat j)) as [Heq | Hne].
  - unfold push_back. rewrite bucket_at_alter.
    case_decide; [| congruence]. unfold bucket_at. rewrite <- Heq.
    destruct (buckets m !! Z.to_nat i); simpl; auto.
  - left. now apply bucket_at_push_back_other.
Qed.

Lemma get_utxo_push_back key bucket fp v m i e :
  get_bucket_fingerprint cfg key = (bucket, fp) ->
  get_utxo cfg key m = Some v ->
  (Z.to_nat i = Z.to_nat bucket -> entry_matches fp false e = false) ->
  get_utxo cfg key (push_back m i e) = Some v.
Proof.
  unfold get_utxo. intros ->. intros Hget Hprim.
  destruct (bucket_at_push_back_cases m i e bucket) as [-> | [Hi ->]];
    [| rewrite find_app_last, (Hprim Hi)];
    (destruct (find (entry_matches fp false) (bucket_at m bucket));
     [exact Hget |]);
    (destruct (bucket_at_push_back_cases m i e (get_alt_bucket cfg bucket fp))
       as [-> | [_ ->]]; [exact Hget |]);
    rewrite find_app_last;
    now destruct (find (entry_matches fp true) _).
Qed.

Lemma get_utxo_erase key bucket fp m i fp' sb' b' :
  get_bucket_fingerprint cfg key = (bucket, fp) ->
  erase_first fp' sb' (bucket_at m i) = Some b' ->
  (Z.to_nat i = Z.to_nat bucket -> (fp', sb') <> (fp, false)) ->
  (Z.to_nat i = Z.to_nat (get_alt_bucket cfg bucket fp) ->
   (fp', sb') <> (fp, true)) ->
  get_utxo cfg key (set_bucket m i b') = get_utxo cfg key m.
Proof.
  unfold get_utxo. intros ->. intros Herase Hprim Halt.
  assert (Hin : (Z.to_nat i < length (buckets m))%nat).
  { apply bucket_at_length_in_range.
    apply erase_first_length in Herase. lia. }
  assert (Hfind : forall j sb,
    (Z.to_nat i = Z.to_nat j -> (fp', sb') <> (fp, sb)) ->
    find (entry_matches fp sb) (bucket_at (set_bucket m i b') j)
    = find (entry_matches fp sb) (bucket_at m j)).
  { intros j sb Hj.
    destruct (decide (Z.to_nat i = Z.to_nat j)) as [Heq | Hne].
    - assert (Hb : forall m0, bucket_at m0 j = bucket_at m0 i)
        by (intros m0; unfold bucket_at; now rewrite Heq).
      rewrite !Hb, bucket_at_set_bucket_same by exact Hin.
      eapply find_erase_first_disjoint; eauto.
    - now rewrite bucket_at_set_bucket_other. }
  now rewrite !Hfind.
Qed.

Lemma enters_relocation_false fuel key v m bucket fp :
  get_bucket_fingerprint cfg key = (bucket, fp) ->
  enters_relocation cfg key m = false ->
  add_utxo cfg rand fuel key v m = Some (false, m) \/
  add_utxo cfg rand fuel key v m =
    Some (true, push_back m bucket (mkBucketEntry fp false v)) \/
  (add_utxo cfg rand fuel key v m =
     Some (true, push_back m (get_alt_bucket cfg bucket fp)
                   (mkBucketEntry fp true v)) /\
   existsb (entry_matches fp false) (bucket_at m bucket) = false /\
   existsb (entry_matches fp true)
     (bucket_at m (get_alt_bucket cfg bucket fp)) = false /\
   (BUCKET_SIZE cfg <= length (bucket_at m bucket))%nat /\
   (length (bucket_at m (get_alt_bucket cfg bucket fp)) < BUCKET_SIZE cfg)%nat).
Proof.
  intros Haddr Hdirect.
  destruct (add_utxo_cases cfg rand fuel key v m _ bucket fp Haddr eq_refl)
    as [[Hr _] | (Hd1 & Hd2 & [[Hr _] | [(Hr & ? & ?) | (_ & Hf1 & Hf2)]])];
    auto 10.
  exfalso. unfold enters_relocation in Hdirect. rewrite Haddr in Hdirect.
  rewrite Hd1, Hd2 in Hdirect.
  apply Nat.ltb_ge in Hf1, Hf2. rewrite Hf1, Hf2 in Hdirect.
  discriminate.
Qed.

(** Read-back right after a direct placement. *)
Lemma add_utxo_direct_read_back fuel key v m m' :
  wf_manager cfg m ->
  enters_relocation cfg key m = false ->
  add_utxo cfg rand fuel key v m = Some (true, m') ->
  get_utxo cfg key m' = Some v.
Proof.
  intros Hm Hdirect Hadd.
  pose proof (key_bucket_in_range cfg Hcfg key m Hm) as HinB.
  pose proof (key_alt_bucket_in_range cfg Hcfg key m Hm) as HinA.
  unfold get_utxo.
  destruct (get_bucket_fingerprint cfg key) as [bucket fp] eqn:Haddr.
  cbn [fst snd] in HinB, HinA.
  assert (Hd1 : find (entry_matches fp false) (bucket_at m bucket) = None).
  { apply existsb_false_find.
    destruct (add_utxo_cases cfg rand fuel key v m _ bucket fp Haddr Hadd)
      as [[Hr _] | (Hd1 & _)]; [discriminate | exact Hd1]. }
  destruct (enters_relocation_false fuel key v m bucket fp Haddr Hdirect)
    as [Hr | [Hr | (Hr & _ & Hd2 & Hfull & Hroom)]];
    rewrite Hr in Hadd; [discriminate | |]; injection Hadd as <-.
  - rewrite bucket_at_push_back_same, find_app_last, Hd1 by exact HinB.
    unfold entry_matches. simpl. now rewrite Z.eqb_refl.
  - assert (Hne : Z.to_nat (get_alt_bucket cfg bucket fp) <> Z.to_nat bucket).
    { intros Heq. unfold bucket_at in Hfull, Hroom.
      rewrite Heq in Hroom. lia. }
    rewrite bucket_at_push_back_other, Hd1 by exact Hne.
    apply existsb_false_find in Hd2.
    rewrite bucket_at_push_back_same, find_app_last, Hd2 by exact HinA.
    unfold entry_matches. simpl. now rewrite Z.eqb_refl.
Qed.

(** One undisturbing call keeps what lookup returns for the key. *)
Lemma undisturbed_step fuel key v o m b m' :
  get_bucket_fingerprint cfg (op_key o) <> get_bucket_fingerprint cfg key ->
  match o with
  | Add key' _ => enters_relocation cfg key' m = false
  | Remove _ => True
  end ->
  apply_op cfg rand fuel o m = Some (b, m') ->
  get_utxo cfg key m = Some v -> get_utxo cfg key m' = Some v.
Proof.
  intros Hne Hdirect Hop Hget.
  pose proof (key_bucket_range cfg Hcfg key) as HB.
  pose proof (key_bucket_range cfg Hcfg (op_key o)) as HB'.
  pose proof (key_alt_bucket_range cfg Hcfg key) as HA.
  pose proof (key_alt_bucket_range cfg Hcfg (op_key o)) as HA'.
  destruct (get_bucket_fingerprint cfg (op_key o)) as [bucket' fp'] eqn:Hk'.
  destruct (get_bucket_fingerprint cfg key) as [bucket fp] eqn:Hk.
  cbn [fst snd] in HB, HA, HB', HA'.
  assert (Hdiff : bucket' = bucket -> fp' = fp -> False)
    by (intros -> ->; now apply Hne).
  destruct o as [key' v' | key']; cbn [op_key apply_op] in *.
  - destruct (enters_relocation_false fuel key' v' m bucket' fp' Hk' Hdirect)
      as [Hr | [Hr | [Hr _]]]; rewrite Hr in Hop; injection Hop as <- <-.
    + exact Hget.
    + apply (get_utxo_push_back key bucket fp); [exact Hk | exact Hget |].
      intros Hi. unfold entry_matches. cbn [fingerprint selector_bit].
      destruct (Z.eqb_spec fp' fp); [| reflexivity].
      exfalso. apply Hdiff; [lia | assumption].
    + apply (get_utxo_push_back key bucket fp); [exact Hk | exact Hget |].
      intros _. unfold entry_matches. cbn [fingerprint selector_bit].
      apply andb_false_r.
  - injection Hop as Hop. unfold remove_utxo in Hop. rewrite Hk' in Hop.
    destruct (erase_first fp' false (bucket_at m bucket')) as [b1 |] eqn:H1.
    { injection Hop as <- <-. rewrite <- Hget.
      apply (get_utxo_erase key bucket fp m bucket' fp' false b1 Hk H1).
      - intros Hi Heq. injection Heq as Heq. apply Hdiff; [lia | assumption].
      - intros _ Heq. discriminate. }
    destruct (erase_first fp' true _) as [b1 |] eqn:H2.
    { injection Hop as <- <-. rewrite <- Hget.
      apply (get_utxo_erase key bucket fp m _ fp' true b1 Hk H2).
      - intros _ Heq. discriminate.
      - intros Hi Heq. injection Heq as Heq. apply Hdiff; [| assumption].
        subst fp'. apply (get_alt_bucket_inj cfg _ _ fp). lia. }
    now injection Hop as <- <-.
Qed.

Lemma undisturbed_returns fuel o m :
  match o with
  | Add key' _ => enters_relocation cfg key' m = false
  | Remove _ => True
  end ->
  exists b m', apply_op cfg rand fuel o m = Some (b, m').
Proof.
  destruct o as [key' v' | key']; cbn [apply_op]; intros Hdirect.
  - destruct (get_bucket_fingerprint cfg key') as [bucket' fp'] eqn:Hk'.
    destruct (enters_relocation_false fuel key' v' m bucket' fp' Hk' Hdirect)
      as [Hr | [Hr | [Hr _]]]; rewrite Hr; eauto.
  - destruct (remove_utxo cfg key' m) as [b m']. eauto.
Qed.

Lemma undisturbed_run fuel key v ops : forall m,
  undisturbed cfg rand fuel key ops m ->
  get_utxo cfg key m = Some v ->
  exists bs m',
    run cfg rand fuel ops m = Some (bs, m') /\
    get_utxo cfg key m' = Some v.
Proof.
  induction ops as [| o ops IH]; intros m Hund Hget; cbn [run].
  - eauto.
  - cbn [undisturbed] in Hund. destruct Hund as (Hne & Hdirect & Hrest).
    destruct (undisturbed_returns fuel o m Hdirect) as (b & m1 & Ho).
    rewrite Ho in Hrest |- *.
    destruct (IH m1 Hrest) as (bs & m2 & Hrun & Hget2).
    { eapply undisturbed_step; eauto. }
    rewrite Hrun. eauto.
Qed.

(** X26.  Read-back without relocation: with a power-of-two bucket
    count, if [add_utxo key v] succeeds on a reachable table by direct
    placement (without calling [relocate]), and the calls that follow are
    inserts and removes of keys with a different (bucket, fingerprint) pair
    none of which calls [relocate], then all these calls return and
    [get_utxo key] afterwards returns [v]. *)
Theorem read_back_without_relocation fuel key v m m1 ops :
  reachable cfg rand m ->
  enters_relocation cfg key m = false ->
  add_utxo cfg rand fuel key v m = Some (true, m1) ->
  undisturbed cfg rand fuel key ops m1 ->
  exists bs m2,
    run cfg rand fuel ops m1 = Some (bs, m2) /\
    get_utxo cfg key m2 = Some v.
Proof.
  intros Hreach Hdirect Hadd Hund.
  apply undisturbed_run; [exact Hund |].
  eapply add_utxo_direct_read_back; eauto.
  eapply reachable_wf_manager; eauto.
Qed.

(** X27.  Lookup reads a key through its pair only: two keys whose digests
    agree on the (bucket, fingerprint) pair get the same answer from [get_utxo] in
    every table, and right after [add_utxo k1 v1] has succeeded by direct
    placement on a reachable table, [get_utxo k2] returns [v1]. *)
Theorem collision_false_positive fuel k1 k2 v1 m m1 :
  get_bucket_fingerprint cfg k1 = get_bucket_fingerprint cfg k2 ->
  reachable cfg rand m ->
  enters_relocation cfg k1 m = false ->
  add_utxo cfg rand fuel k1 v1 m = Some (true, m1) ->
  get_utxo cfg k2 m1 = Some v1 /\
  forall m', get_utxo cfg k2 m' = get_utxo cfg k1 m'.
Proof.
  intros Haddr Hreach Hdirect Hadd. split.
  - rewrite (get_utxo_same_address k1 k2 m1 Haddr).
    eapply add_utxo_direct_read_back; eauto.
    eapply reachable_wf_manager; eauto.
  - intros m'. now apply get_utxo_same_address.
Qed.

End ReadBack.

(** ** Blocked walks *)

Lemma walk_blocked_spec cfg m A : walk_blocked cfg m A = true -> blocked cfg m A.
Proof.
  unfold walk_blocked, blocked. intros H.
  apply andb_true_iff in H as [H H3]. apply andb_true_iff in H as [H1 H2].
  apply Nat.ltb_lt in H1. apply Nat.eqb_eq in H2.
  rewrite forallb_forall in H3.
  repeat split; [exact H1 | exact H2 |].
  intros e He. apply Nat.leb_le. now apply H3.
Qed.

Lemma In_insert {A} (l : list A) : forall i x e,
  In e (<[i := x]> l) -> e = x \/ In e (delete i l).
Proof.
  induction l as [| y l IH]; intros [| i] x e H; simpl in *; try tauto.
  - destruct H as [<- | H]; auto.
  - destruct H as [<- | H]; [auto |].
    destruct (IH i x e H); auto.
Qed.

Lemma In_delete {A} (l : list A) : forall i e, In e (delete i l) -> In e l.
Proof.
  induction l as [| y l IH]; intros [| i] e H; simpl in *; try tauto.
  destruct H as [<- | H]; eauto.
Qed.

Lemma find_none_all {A} (p : A -> bool) l :
  (forall e, In e l -> p e = false) -> find p l = None.
Proof.
  induction l as [| x l IH]; intros H; simpl; [reflexivity |].
  rewrite (H x) by now left. apply IH. intros e He. apply H. now right.
Qed.

Section Blocked.

Variable cfg : Config.
Variable rand : nat -> nat.

Lemma blocked_step m A bucket fp v :
  blocked cfg m A ->
  get_alt_bucket cfg bucket fp = A ->
  (BUCKET_SIZE cfg <= length (bucket_at m bucket))%nat ->
  let idx := (rand (rand_calls m) mod length (bucket_at m A))%nat in
  let e := nth idx (bucket_at m A) BucketEntry_default in
  let m1 := set_slot (tick m) A idx (mkBucketEntry fp true v) in
  In e (bucket_at m A) /\
  blocked cfg m1 A /\
  (BUCKET_SIZE cfg
   <= length (bucket_at m1 (get_alt_bucket cfg A (fingerprint e))))%nat.
Proof.
  intros (Hpos & Hlen & Hfull) HA Hbucket idx e m1.
  assert (Hidx : (idx < length (bucket_at m A))%nat)
    by (apply Nat.mod_upper_bound; lia).
  assert (He : In e (bucket_at m A)) by (apply nth_In; exact Hidx).
  split; [exact He |]. split.
  - split; [exact Hpos |]. split.
    + subst m1. now rewrite bucket_at_set_slot_length, bucket_at_tick.
    + intros e' He'. subst m1.
      rewrite bucket_at_set_slot_length, bucket_at_tick.
      rewrite bucket_at_set_slot_same, bucket_at_tick in He'.
      apply In_insert in He' as [-> | He'].
      * simpl. rewrite <- HA, get_alt_bucket_twice. exact Hbucket.
      * apply Hfull. eapply In_delete; eauto.
  - subst m1. rewrite bucket_at_set_slot_length, bucket_at_tick.
    now apply Hfull.
Qed.

(** A blocked walk fails after MAX_RELOCATIONS + 1 - depth evictions, all of
    them in bucket [A]; what it leaves in [A] was there before or was written
    with the selector bit set. *)
Lemma relocate_blocked fuel : forall m bucket fp v depth A,
  blocked cfg m A ->
  get_alt_bucket cfg bucket fp = A ->
  (BUCKET_SIZE cfg <= length (bucket_at m bucket))%nat ->
  (MAX_RELOCATIONS cfg + 1 - depth < fuel)%nat ->
  exists m',
    relocate cfg rand fuel m bucket fp v depth = Some (false, m') /\
    (forall j, Z.to_nat j <> Z.to_nat A -> bucket_at m' j = bucket_at m j) /\
    (forall e, In e (bucket_at m' A) ->
       selector_bit e = true \/ In e (bucket_at m A)) /\
    rand_calls m' = (rand_calls m + (MAX_RELOCATIONS cfg + 1 - depth))%nat.
Proof.
  induction fuel as [| fuel IH]; intros m bucket fp v depth A HbA HA Hbucket Hfuel;
    [lia |].
  rewrite relocate_unfold. cbv zeta.
  destruct (MAX_RELOCATIONS cfg <? depth)%nat eqn:Hdepth.
  { apply Nat.ltb_lt in Hdepth. exists m.
    repeat split; auto. lia. }
  apply Nat.ltb_ge in Hdepth. rewrite HA.
  destruct (blocked_step m A bucket fp v HbA HA Hbucket) as (He & Hb1 & Hnext).
  destruct HbA as (Hpos & Hlen & Hfull).
  replace (length (bucket_at m A) <? BUCKET_SIZE cfg)%nat with false
    by (symmetry; apply Nat.ltb_ge; lia).
  set (idx := (rand (rand_calls m) mod length (bucket_at m A))%nat) in *.
  set (e := nth idx (bucket_at m A) BucketEntry_default) in *.
  set (m1 := set_slot (tick m) A idx (mkBucketEntry fp true v)) in *.
  replace (length (bucket_at m1 (get_alt_bucket cfg A (fingerprint e)))
           <? BUCKET_SIZE cfg)%nat with false
    by (symmetry; apply Nat.ltb_ge; lia).
  destruct (IH m1 (get_alt_bucket cfg A (fingerprint e)) (fingerprint e)
              (value e) (S depth) A Hb1 (get_alt_bucket_twice cfg A _) Hnext)
    as (m' & Hr & Hother & Hin & Hcalls); [lia |].
  exists m'. split; [exact Hr |]. split; [| split].
  - intros j Hj. rewrite (Hother j Hj). subst m1.
    rewrite bucket_at_set_slot_other, bucket_at_tick by congruence.
    reflexivity.
  - intros e' He'. apply Hin in He' as [Hs | He']; [now left |].
    subst m1. rewrite bucket_at_set_slot_same, bucket_at_tick in He'.
    apply In_insert in He' as [-> | He']; [now left |].
    right. eapply In_delete; eauto.
  - rewrite Hcalls. subst m1. simpl. lia.
Qed.

(** The same walk seen from its first eviction: the entry evicted first is
    not put back as it was. *)
Lemma relocate_blocked_first fuel m bucket fp v A :
  blocked cfg m A ->
  get_alt_bucket cfg bucket fp = A ->
  (BUCKET_SIZE cfg <= length (bucket_at m bucket))%nat ->
  (MAX_RELOCATIONS cfg + 1 < fuel)%nat ->
  let idx := (rand (rand_calls m) mod BUCKET_SIZE cfg)%nat in
  exists m',
    relocate cfg rand fuel m bucket fp v 0 = Some (false, m') /\
    (forall j, Z.to_nat j <> Z.to_nat A -> bucket_at m' j = bucket_at m j) /\
    (forall e, In e (bucket_at m' A) ->
       selector_bit e = true \/ In e (delete idx (bucket_at m A))) /\
    rand_calls m' = (rand_calls m + (MAX_RELOCATIONS cfg + 1))%nat.
Proof.
  intros HbA HA Hbucket Hfuel idx.
  destruct fuel as [| fuel]; [lia |].
  rewrite relocate_unfold. cbv zeta. rewrite HA.
  destruct (blocked_step m A bucket fp v HbA HA Hbucket) as (He & Hb1 & Hnext).
  destruct HbA as (Hpos & Hlen & Hfull).
  replace (length (bucket_at m A) <? BUCKET_SIZE cfg)%nat with false
    by (symmetry; apply Nat.ltb_ge; lia).
  rewrite Nat.ltb_irrefl || replace (MAX_RELOCATIONS cfg <? 0)%nat with false
    by (symmetry; apply Nat.ltb_ge; lia).
  rewrite Hlen in *. fold idx in He, Hb1, Hnext |- *.
  set (e := nth idx (bucket_at m A) BucketEntry_default) in *.
  set (m1 := set_slot (tick m) A idx (mkBucketEntry fp true v)) in *.
  replace (length (bucket_at m1 (get_alt_bucket cfg A (fingerprint e)))
           <? BUCKET_SIZE cfg)%nat with false
    by (symmetry; apply Nat.ltb_ge; lia).
  destruct (relocate_blocked fuel m1 (get_alt_bucket cfg A (fingerprint e))
              (fingerprint e) (value e) 1%nat A Hb1
              (get_alt_bucket_twice cfg A _) Hnext)
    as (m' & Hr & Hother & Hin & Hcalls); [lia |].
  exists m'. split; [exact Hr |]. split; [| split].
  - intros j Hj. rewrite (Hother j Hj). subst m1.
    rewrite bucket_at_set_slot_other, bucket_at_tick by congruence.
    reflexivity.
  - intros e' He'. apply Hin in He' as [Hs | He']; [now left |].
    subst m1. rewrite bucket_at_set_slot_same, bucket_at_tick in He'.
    apply In_insert in He' as [-> | He']; [now left | now right].
  - rewrite Hcalls. subst m1. simpl. lia.
Qed.

End Blocked.

(** ** Losing an entry to a blocked walk *)

Lemma get_utxo_buckets cfg key m m' :
  buckets m' = buckets m -> get_utxo cfg key m' = get_utxo cfg key m.
Proof.
  intros H. unfold get_utxo, bucket_at. now rewrite H.
Qed.

(** A key whose entry sat in [A] as a primary entry is no longer found once
    a walk has taken the entry out of slot [idx] of [A] and left in [A] only
    other old entries and entries with the selector bit set. *)
Lemma get_utxo_lost cfg key A g0 m m' idx :
  get_bucket_fingerprint cfg key = (A, g0) ->
  Z.to_nat (get_alt_bucket cfg A g0) <> Z.to_nat A ->
  find (entry_matches g0 true) (bucket_at m (get_alt_bucket cfg A g0)) = None ->
  (forall j, Z.to_nat j <> Z.to_nat A -> bucket_at m' j = bucket_at m j) ->
  (forall e, In e (bucket_at m' A) ->
     selector_bit e = true \/ In e (delete idx (bucket_at m A))) ->
  forallb (fun e => negb (fingerprint e =? g0)) (delete idx (bucket_at m A))
    = true ->
  get_utxo cfg key m' = None.
Proof.
  intros Haddr Hne Halt Hother Hin Hfps.
  unfold get_utxo. rewrite Haddr.
  rewrite (find_none_all (entry_matches g0 false) (bucket_at m' A)).
  - now rewrite (Hother _ Hne), Halt.
  - intros e He. unfold entry_matches.
    destruct (Hin e He) as [Hs | Hold].
    + rewrite Hs. apply andb_false_r.
    + rewrite forallb_forall in Hfps. apply Hfps in Hold.
      apply negb_true_iff in Hold. now rewrite Hold.
Qed.


(** ** The fixed profile at work *)

Module Fixed.

Import Scenario.

Lemma perfect_cfg_wf : wf_config perfect_cfg.
Proof.
  unfold wf_config. change (BUCKET_BITS perfect_cfg) with 19.
  split; [lia |]. vm_compute. reflexivity.
Qed.

(** Addresses of the keys: bucket 529 with alternate 1300 for [k_new]. *)
Lemma address_k_new : get_bucket_fingerprint perfect_cfg k_new = (529, 373).
Proof. vm_compute. reflexivity. Qed.

Lemma address_k_twin : get_bucket_fingerprint perfect_cfg k_twin = (529, 373).
Proof. vm_compute. reflexivity. Qed.

Lemma address_k_prime : get_bucket_fingerprint perfect_cfg k_prime = (1300, 373).
Proof. vm_compute. reflexivity. Qed.

Lemma address_kA1 : get_bucket_fingerprint perfect_cfg kA1 = (1300, 7039).
Proof. vm_compute. reflexivity. Qed.

Lemma address_kA2 : get_bucket_fingerprint perfect_cfg kA2 = (1300, 4542).
Proof. vm_compute. reflexivity. Qed.

Lemma address_kA3 : get_bucket_fingerprint perfect_cfg kA3 = (1300, 1435).
Proof. vm_compute. reflexivity. Qed.

Lemma alt_bucket_k_new : get_alt_bucket perfect_cfg 529 373 = 1300.
Proof. vm_compute. reflexivity. Qed.

(** Every table built by [table_after] is reachable. *)
Lemma table_after_reachable rand ops :
  reachable perfect_cfg rand (table_after rand ops).
Proof.
  unfold table_after.
  destruct (run perfect_cfg rand 502 ops (empty_manager perfect_cfg))
    as [[bs m] |] eqn:Hrun; [| apply reachable_empty].
  eapply run_reachable; [apply reachable_empty | exact Hrun].
Qed.

Lemma blocked_table_results rand :
  option_map fst
    (run perfect_cfg rand 502 blocked_ops (empty_manager perfect_cfg))
  = Some (replicate 20 true).
Proof. vm_compute. reflexivity. Qed.

Lemma blocked_table_blocked rand :
  walk_blocked perfect_cfg (blocked_table rand) 1300 = true.
Proof. vm_compute. reflexivity. Qed.

Lemma blocked_table_primary rand :
  existsb (entry_matches 373 false) (bucket_at (blocked_table rand) 529)
    = false /\
  existsb (entry_matches 373 true) (bucket_at (blocked_table rand) 1300)
    = false /\
  length (bucket_at (blocked_table rand) 529) = 4%nat /\
  length (bucket_at (blocked_table rand) 1300) = 4%nat /\
  rand_calls (blocked_table rand) = 0%nat.
Proof. vm_compute. repeat split; reflexivity. Qed.

Lemma blocked_table_alternate rand :
  bucket_at (blocked_table rand) 1300 =
    [mkBucketEntry 373 false (record_of k_prime);
     mkBucketEntry 7039 false (record_of kA1);
     mkBucketEntry 4542 false (record_of kA2);
     mkBucketEntry 1435 false (record_of kA3)].
Proof. vm_compute. reflexivity. Qed.

(** The four keys of bucket 1300 are found before the call. *)
Lemma blocked_table_lookups rand :
  get_utxo perfect_cfg k_prime (blocked_table rand) = Some (record_of k_prime) /\
  get_utxo perfect_cfg kA1 (blocked_table rand) = Some (record_of kA1) /\
  get_utxo perfect_cfg kA2 (blocked_table rand) = Some (record_of kA2) /\
  get_utxo perfect_cfg kA3 (blocked_table rand) = Some (record_of kA3).
Proof. vm_compute. repeat split; reflexivity. Qed.

Lemma blocked_table_slots rand :
  slot_lost rand 0 373 = true /\ slot_lost rand 1 7039 = true /\
  slot_lost rand 2 4542 = true /\ slot_lost rand 3 1435 = true.
Proof. vm_compute. repeat split; reflexivity. Qed.

Lemma slot_lost_get_utxo rand key idx g0 m' :
  slot_lost rand idx g0 = true ->
  get_bucket_fingerprint perfect_cfg key = (1300, g0) ->
  (forall j, Z.to_nat j <> Z.to_nat 1300 ->
     bucket_at m' j = bucket_at (blocked_table rand) j) ->
  (forall e, In e (bucket_at m' 1300) ->
     selector_bit e = true \/
     In e (delete idx (bucket_at (blocked_table rand) 1300))) ->
  get_utxo perfect_cfg key m' = None.
Proof.
  unfold slot_lost. intros H Haddr Hother Hin.
  apply andb_true_iff in H as [H H3]. apply andb_true_iff in H as [H1 H2].
  apply negb_true_iff in H1, H2. apply Nat.eqb_neq in H1.
  apply existsb_false_find in H2.
  exact (get_utxo_lost perfect_cfg key 1300 g0 (blocked_table rand) m' idx
           Haddr H1 H2 Hother Hin H3).
Qed.

(** On the blocked table the insert of [k_new] fails whatever [rand()]
    returns, after 501 evictions; only bucket 1300 changes, and the entry
    taken out of it first is not put back as it was. *)
Lemma blocked_insert_fails rand n :
  exists m',
    add_utxo perfect_cfg rand (502 + n) k_new (record_of k_new)
      (blocked_table rand) = Some (false, m') /\
    (forall j, Z.to_nat j <> Z.to_nat 1300 ->
       bucket_at m' j = bucket_at (blocked_table rand) j) /\
    (forall e, In e (bucket_at m' 1300) ->
       selector_bit e = true \/
       In e (delete (rand 0%nat mod 4)%nat
               (bucket_at (blocked_table rand) 1300))) /\
    rand_calls m' = 501%nat.
Proof.
  destruct (blocked_table_primary rand) as (Hd1 & Hd2 & HlenB & HlenA & Hcalls).
  pose proof (walk_blocked_spec _ _ _ (blocked_table_blocked rand)) as Hblocked.
  destruct (relocate_blocked_first perfect_cfg rand (502 + n)
              (blocked_table rand) 529 373 (record_of k_new) 1300
              Hblocked alt_bucket_k_new)
    as (m' & Hr & Hother & Hin & Hevictions).
  { rewrite HlenB. apply Nat.le_refl. }
  { change (MAX_RELOCATIONS perfect_cfg) with 500%nat. lia. }
  rewrite Hcalls in Hin, Hevictions.
  change (BUCKET_SIZE perfect_cfg) with 4%nat in Hin.
  change (MAX_RELOCATIONS perfect_cfg) with 500%nat in Hevictions.
  exists m'. split; [| split; [exact Hother | split; [exact Hin | exact Hevictions]]].
  unfold add_utxo. rewrite address_k_new, Hd1, alt_bucket_k_new, Hd2.
  rewrite HlenB, HlenA. exact Hr.
Qed.

Lemma table_after_add rand ops key v b m2 :
  option_map fst (run perfect_cfg rand 502 ops (empty_manager perfect_cfg))
    <> None ->
  add_utxo perfect_cfg rand 502 key v (table_after rand ops)
    = Some (b, m2) ->
  table_after rand (ops ++ [Add key v]) = m2.
Proof.
  unfold table_after. intros Hres Ho.
  destruct (run perfect_cfg rand 502 ops (empty_manager perfect_cfg))
    as [[bs m0] |] eqn:Hrun.
  - now rewrite (run_snoc perfect_cfg rand 502 ops (Add key v) _ bs m0 b m2
                   Hrun Ho).
  - now contradict Hres.
Qed.

Lemma blocked_insert_result rand :
  add_utxo perfect_cfg rand 502 k_new
    (record_of k_new) (blocked_table rand)
  = Some (false, failed_table rand).
Proof.
  destruct (blocked_insert_fails rand 0) as (m' & Hadd & _).
  rewrite Nat.add_0_r in Hadd. rewrite Hadd.
  apply f_equal, f_equal. symmetry.
  apply (table_after_add rand blocked_ops k_new
           (record_of k_new) false m').
  - rewrite blocked_table_results. intros H. discriminate H.
  - exact Hadd.
Qed.

(** With [rand()] returning 0, 1, 2, 3, ... the walk ends with the record
    of [k_prime] in hand: it is in no bucket afterwards, and slot 0 of
    bucket 1300, where its entry was, holds the entry of [k_new]. *)
Lemma blocked_insert_drops :
  stores (record_of k_prime) (blocked_table (fun n => n)) = true /\
  stores (record_of k_prime) (failed_table (fun n => n)) = false /\
  bucket_at (blocked_table (fun n => n)) 1300 !! 0%nat
    = Some (mkBucketEntry 373 false (record_of k_prime)) /\
  bucket_at (failed_table (fun n => n)) 1300 !! 0%nat
    = Some (mkBucketEntry 373 true (record_of k_new)).
Proof. vm_compute. repeat split; reflexivity. Qed.

(** C3. Failed inserts are not atomic.  Under the fixed profile there is a
    table, reachable by twenty successful inserts, and a key and value for
    which [add_utxo] fails, whatever [rand()] returns, after its walk has
    used up the depth bound (501 evictions), and leaves bucket contents that
    differ from those before the call: a key that was found before the call
    is not found after it, its entry having been evicted.  With [rand()]
    returning 0, 1, 2, 3, ... the evicted entry is dropped: the record of
    [k_prime], stored before the call, is in no bucket after it, and the slot
    that held it holds the tuple of the failed insert. *)
Theorem failed_insert_not_atomic :
  (forall rand : nat -> nat,
   exists (m : Manager) (key : string) (v : UTXOValue),
     reachable perfect_cfg rand m /\
     forall n, exists m',
       add_utxo perfect_cfg rand (502 + n) key v m = Some (false, m') /\
       rand_calls m' = (rand_calls m + (MAX_RELOCATIONS perfect_cfg + 1))%nat /\
       buckets m' <> buckets m /\
       exists k0 v0,
         get_utxo perfect_cfg k0 m = Some v0 /\
         get_utxo perfect_cfg k0 m' = None) /\
  (let rand := fun n : nat => n in
   let m := blocked_table rand in
   let m' := failed_table rand in
   reachable perfect_cfg rand m /\
   add_utxo perfect_cfg rand 502 k_new (record_of k_new) m = Some (false, m') /\
   get_utxo perfect_cfg k_prime m = Some (record_of k_prime) /\
   stores (record_of k_prime) m = true /\
   stores (record_of k_prime) m' = false /\
   bucket_at m 1300 !! 0%nat
     = Some (mkBucketEntry 373 false (record_of k_prime)) /\
   bucket_at m' 1300 !! 0%nat
     = Some (mkBucketEntry 373 true (record_of k_new))).
Proof.
  split.
  - intros rand.
    exists (blocked_table rand), k_new, (record_of k_new).
    split; [apply table_after_reachable |].
    intros n.
    destruct (blocked_insert_fails rand n)
      as (m' & Hadd & Hother & Hin & Hevictions).
    destruct (blocked_table_primary rand) as (_ & _ & _ & _ & Hcalls).
    exists m'.
    assert (Hlost : exists k0 v0,
              get_utxo perfect_cfg k0 (blocked_table rand) = Some v0 /\
              get_utxo perfect_cfg k0 m' = None).
    { destruct (blocked_table_lookups rand) as (L0 & L1 & L2 & L3).
      destruct (blocked_table_slots rand) as (S0 & S1 & S2 & S3).
      assert (Hidx : (rand 0%nat mod 4 < 4)%nat)
        by (apply Nat.mod_upper_bound; lia).
      destruct (rand 0%nat mod 4)%nat as [| [| [| [| idx]]]]; [| | | | lia].
      - exists k_prime, (record_of k_prime). split; [exact L0 |].
        exact (slot_lost_get_utxo rand k_prime 0 373 m' S0 address_k_prime
                 Hother Hin).
      - exists kA1, (record_of kA1). split; [exact L1 |].
        exact (slot_lost_get_utxo rand kA1 1 7039 m' S1 address_kA1
                 Hother Hin).
      - exists kA2, (record_of kA2). split; [exact L2 |].
        exact (slot_lost_get_utxo rand kA2 2 4542 m' S2 address_kA2
                 Hother Hin).
      - exists kA3, (record_of kA3). split; [exact L3 |].
        exact (slot_lost_get_utxo rand kA3 3 1435 m' S3 address_kA3
                 Hother Hin). }
    split; [exact Hadd |]. split.
    { rewrite Hevictions, Hcalls.
      change (MAX_RELOCATIONS perfect_cfg) with 500%nat. reflexivity. }
    split; [| exact Hlost].
    intros Heq. destruct Hlost as (k0 & v0 & Hbefore & Hafter).
    rewrite (get_utxo_buckets perfect_cfg k0 _ _ Heq), Hbefore in Hafter.
    discriminate Hafter.
  - cbv zeta.
    destruct (blocked_table_lookups (fun n => n)) as (L0 & _).
    destruct blocked_insert_drops as (D1 & D2 & D3 & D4).
    split; [apply table_after_reachable |].
    split; [apply blocked_insert_result |].
    split; [exact L0 |]. split; [exact D1 |]. split; [exact D2 |].
    split; [exact D3 | exact D4].
Qed.

(** The first insert on the empty table goes to the key's own bucket. *)
Lemma first_insert rand fuel v :
  add_utxo perfect_cfg rand fuel k_new v (empty_manager perfect_cfg)
  = Some (true, push_back (empty_manager perfect_cfg) 529
                  (mkBucketEntry 373 false v)).
Proof.
  unfold add_utxo. rewrite address_k_new, alt_bucket_k_new.
  replace (existsb (entry_matches 373 false)
             (bucket_at (empty_manager perfect_cfg) 529))
    with false by (vm_compute; reflexivity).
  replace (existsb (entry_matches 373 true)
             (bucket_at (empty_manager perfect_cfg) 1300))
    with false by (vm_compute; reflexivity).
  replace (length (bucket_at (empty_manager perfect_cfg) 529)
           <? BUCKET_SIZE perfect_cfg)%nat
    with true by (vm_compute; reflexivity).
  reflexivity.
Qed.

(** C2, at the failing input.  Every one of the nine inserts returns true.
    The key [kA1] has primary bucket 1300 and alternate bucket 827; after the
    ninth insert its entry is the one entry of bucket 827, the alternate
    bucket, with the selector bit still false, no entry of bucket 1300
    carries its record, and [get_utxo kA1] returns nothing. *)
Theorem relocation_misplaces_entry :
  let m := table_after (draws [1%nat]) moved_ops in
  option_map fst
    (run perfect_cfg (draws [1%nat]) 502 moved_ops (empty_manager perfect_cfg))
    = Some (replicate 9 true) /\
  get_bucket_fingerprint perfect_cfg kA1 = (1300, 7039) /\
  get_alt_bucket perfect_cfg 1300 7039 = 827 /\
  bucket_at m 827 = [mkBucketEntry 7039 false (record_of kA1)] /\
  existsb (fun e => String.eqb (address (value e)) kA1) (bucket_at m 1300)
    = false /\
  get_utxo perfect_cfg kA1 m = None.
Proof. vm_compute. repeat split; reflexivity. Qed.

(** C4, at the failing inputs.  No call fails in either run, so nothing is
    dropped for want of a rollback.

    (a) [moved_ops], with [rand() % 4 = 1].  All nine inserts return true.
    [kA1] is inserted sixth, and the three inserts after it are of keys with
    other (bucket, fingerprint) pairs; [get_utxo kA1] then returns nothing.
    The record is still stored: the walk of the last insert moved the entry
    to bucket 827, the alternate bucket of [kA1], and left its selector bit
    false, so neither search of [get_utxo] matches it.

    (b) [shadowed_ops], with [rand() % 4 = 2, 0, 1].  All thirteen inserts
    return true, the last one that of [k_new]; [get_utxo k_new] right after
    it returns the record of [k_prime].  Bucket 1300 is the primary bucket
    of [k_prime] and the alternate bucket of [k_new], and both keys have
    fingerprint 373; the walk has put the entry of [k_prime] back into
    bucket 1300 with the selector bit set, ahead of the entry of [k_new]. *)
Theorem read_back_fails_after_relocation :
  (option_map fst
     (run perfect_cfg (draws [1%nat]) 502 moved_ops (empty_manager perfect_cfg))
     = Some (replicate 9 true) /\
   moved_ops = adds (keys_B ++ [k_prime]) ++ Add kA1 (record_of kA1)
               :: adds [kA2; kA3; k_new] /\
   Forall (fun key => get_bucket_fingerprint perfect_cfg key
                      <> get_bucket_fingerprint perfect_cfg kA1)
          [kA2; kA3; k_new] /\
   get_utxo perfect_cfg kA1 (table_after (draws [1%nat]) moved_ops) = None /\
   get_bucket_fingerprint perfect_cfg kA1 = (1300, 7039) /\
   get_alt_bucket perfect_cfg 1300 7039 = 827 /\
   bucket_at (table_after (draws [1%nat]) moved_ops) 827
     = [mkBucketEntry 7039 false (record_of kA1)]) /\
  (option_map fst
     (run perfect_cfg (draws [2; 0; 1]%nat) 502 shadowed_ops
        (empty_manager perfect_cfg))
     = Some (replicate 13 true) /\
   get_utxo perfect_cfg k_new (table_after (draws [2; 0; 1]%nat) shadowed_ops)
     = Some (record_of k_prime) /\
   record_of k_prime <> record_of k_new /\
   get_bucket_fingerprint perfect_cfg k_new = (529, 373) /\
   get_alt_bucket perfect_cfg 529 373 = 1300 /\
   get_bucket_fingerprint perfect_cfg k_prime = (1300, 373) /\
   bucket_at (table_after (draws [2; 0; 1]%nat) shadowed_ops) 1300
     = [mkBucketEntry 4542 true (record_of kA2);
        mkBucketEntry 373 true (record_of k_prime);
        mkBucketEntry 373 true (record_of k_new);
        mkBucketEntry 1435 false (record_of kA3)]).
Proof.
  split.
  - split; [vm_compute; reflexivity |].
    split; [reflexivity |].
    split.
    { repeat (apply List.Forall_cons; [vm_compute; intros H; discriminate H |]).
      apply List.Forall_nil. }
    vm_compute. repeat split; reflexivity.
  - split; [vm_compute; reflexivity |].
    split; [vm_compute; reflexivity |].
    split; [intros H; discriminate H |].
    vm_compute. repeat split; reflexivity.
Qed.

(** C5, at the failing input.  [k_twin] differs from [k_new], has its
    (bucket, fingerprint) pair, (529, 373), and is never inserted.  With the
    calls of [shadowed_ops] and [rand() % 4 = 2, 0, 1] all thirteen inserts
    return true, the last of which inserts [k_new] with its own record; yet
    [get_utxo k_twin] returns the record of [k_prime], not that of [k_new].
    The entry of [k_new] is stored, in bucket 1300, its alternate bucket,
    with the selector bit set; but bucket 1300 is the primary bucket of
    [k_prime], which has the same fingerprint, and the walk has written the
    entry of [k_prime] back there with the selector bit set: the search of
    the alternate bucket finds that entry first. *)
Theorem collision_returns_other_record :
  let m := table_after (draws [2; 0; 1]%nat) shadowed_ops in
  k_twin <> k_new /\
  get_bucket_fingerprint perfect_cfg k_twin
    = get_bucket_fingerprint perfect_cfg k_new /\
  ~ In k_twin (map op_key shadowed_ops) /\
  option_map fst
    (run perfect_cfg (draws [2; 0; 1]%nat) 502 shadowed_ops
       (empty_manager perfect_cfg))
    = Some (replicate 13 true) /\
  last shadowed_ops = Some (Add k_new (record_of k_new)) /\
  get_utxo perfect_cfg k_twin m = Some (record_of k_prime) /\
  record_of k_prime <> record_of k_new /\
  get_bucket_fingerprint perfect_cfg k_twin = (529, 373) /\
  get_alt_bucket perfect_cfg 529 373 = 1300 /\
  get_bucket_fingerprint perfect_cfg k_prime = (1300, 373) /\
  find (entry_matches 373 true) (bucket_at m 1300)
    = Some (mkBucketEntry 373 true (record_of k_prime)) /\
  In (mkBucketEntry 373 true (record_of k_new)) (bucket_at m 1300).
Proof.
  cbv zeta.
  split; [intros H; discriminate H |].
  split; [vm_compute; reflexivity |].
  split.
  { cbv. intros H.
    repeat (destruct H as [H | H]; [discriminate H |]). exact H. }
  split; [vm_compute; reflexivity |].
  split; [reflexivity |].
  split; [vm_compute; reflexivity |].
  split; [intros H; discriminate H |].
  split; [vm_compute; reflexivity |].
  split; [vm_compute; reflexivity |].
  split; [vm_compute; reflexivity |].
  split; [vm_compute; reflexivity |].
  replace (bucket_at (table_after (draws [2; 0; 1]%nat) shadowed_ops) 1300)
    with [mkBucketEntry 4542 true (record_of kA2);
          mkBucketEntry 373 true (record_of k_prime);
          mkBucketEntry 373 true (record_of k_new);
          mkBucketEntry 1435 false (record_of kA3)]
    by (vm_compute; reflexivity).
  right. right. left. reflexivity.
Qed.

(** *** Removing a key that collides with a stored one *)

(** C9 fails as stated.  After the single insert of [k_new] on the empty
    table, [remove_utxo k_twin], for a key that was never inserted, returns
    true and takes the count from one to zero. *)
Lemma remove_absent_counterexample :
  let m := table_after (draws []) (adds [k_new]) in
  k_twin <> k_new /\
  option_map fst
    (run perfect_cfg (draws []) 502 (adds [k_new]) (empty_manager perfect_cfg))
    = Some [true] /\
  fst (remove_utxo perfect_cfg k_twin m) = true /\
  count m = 1%nat /\
  count (snd (remove_utxo perfect_cfg k_twin m)) = 0%nat.
Proof.
  split; [intros H; discriminate H |].
  vm_compute. repeat split; reflexivity.
Qed.

End Fixed.

(** C9, amended.  Remove on a key with no match is a detected no-op: for
    every key for which lookup finds no entry (no entry with the key's
    fingerprint and a clear selector bit in its bucket, none with the
    fingerprint and the selector bit set in its alternate bucket),
    [remove_utxo] returns false and leaves the whole table, and so
    [count()], unchanged. *)
Theorem remove_unmatched_is_noop cfg key m :
  get_utxo cfg key m = None ->
  remove_utxo cfg key m = (false, m) /\
  count (snd (remove_utxo cfg key m)) = count m.
Proof.
  intros H. rewrite (remove_utxo_no_match cfg key m H). split; reflexivity.
Qed.


(** ** rst2.cpp against the other two programs *)

(** With a power-of-two bucket count the index checks never fire, and the
    guarded operations are the operations of the other two programs; through
    these equations the results on [add_utxo] and [get_utxo] apply to the
    four profiles rst2.cpp runs. *)
Section Unguarded.

Variable cfg : Config.
Variable rand : nat -> nat.
Hypothesis Hcfg : wf_config cfg.

Lemma in_range_not_out bucket :
  0 <= bucket < 2 ^ BUCKET_BITS cfg -> Rst2.out_of_range cfg bucket = false.
Proof.
  intros H. unfold Rst2.out_of_range. destruct Hcfg as (_ & Hpow).
  apply Z.leb_gt. lia.
Qed.

Lemma relocate_unguarded fuel : forall m bucket fp v depth,
  0 <= bucket < 2 ^ BUCKET_BITS cfg ->
  Rst2.relocate cfg rand fuel m bucket fp v depth
  = relocate cfg rand fuel m bucket fp v depth.
Proof.
  induction fuel as [| fuel IH]; intros m bucket fp v depth Hb;
    [reflexivity |].
  destruct Hcfg as (Hbits & _).
  pose proof (get_alt_bucket_range cfg bucket fp Hbits Hb) as Ha.
  cbn [Rst2.relocate relocate].
  destruct (MAX_RELOCATIONS cfg <? depth)%nat; [reflexivity |].
  rewrite (in_range_not_out bucket Hb), (in_range_not_out _ Ha).
  destruct (_ <? BUCKET_SIZE cfg)%nat; [reflexivity |].
  set (e := nth _ _ BucketEntry_default).
  rewrite selector_branch_same.
  assert (Hn : 0 <= get_alt_bucket cfg (get_alt_bucket cfg bucket fp)
                      (fingerprint e) < 2 ^ BUCKET_BITS cfg)
    by now apply get_alt_bucket_range.
  replace (if selector_bit e
           then get_alt_bucket cfg (get_alt_bucket cfg bucket fp) (fingerprint e)
           else get_alt_bucket cfg (get_alt_bucket cfg bucket fp) (fingerprint e))
    with (get_alt_bucket cfg (get_alt_bucket cfg bucket fp) (fingerprint e))
    by now destruct (selector_bit e).
  rewrite (in_range_not_out _ Hn).
  destruct (_ <? BUCKET_SIZE cfg)%nat; [reflexivity |].
  now apply IH.
Qed.

Lemma add_utxo_unguarded fuel key v m :
  Rst2.add_utxo cfg rand fuel key v m = add_utxo cfg rand fuel key v m.
Proof.
  pose proof (key_bucket_range cfg Hcfg key) as Hb.
  pose proof (key_alt_bucket_range cfg Hcfg key) as Ha.
  unfold Rst2.add_utxo, add_utxo.
  destruct (get_bucket_fingerprint cfg key) as [bucket fp].
  cbn [fst snd] in Hb, Ha.
  rewrite (in_range_not_out bucket Hb), (in_range_not_out _ Ha).
  now rewrite relocate_unguarded.
Qed.

Lemma get_utxo_unguarded key m :
  Rst2.get_utxo cfg key m = get_utxo cfg key m.
Proof.
  pose proof (key_bucket_range cfg Hcfg key) as Hb.
  pose proof (key_alt_bucket_range cfg Hcfg key) as Ha.
  unfold Rst2.get_utxo, get_utxo.
  destruct (get_bucket_fingerprint cfg key) as [bucket fp].
  cbn [fst snd] in Hb, Ha.
  now rewrite (in_range_not_out bucket Hb), (in_range_not_out _ Ha).
Qed.

End Unguarded.

(** ** The guarded walk of rst2.cpp: termination and sizes *)

Section GuardedWalk.

Variable cfg : Config.
Variable rand : nat -> nat.

Lemma relocate_guarded_unfold fuel m bucket fp v depth :
  Rst2.relocate cfg rand (S fuel) m bucket fp v depth =
    if (MAX_RELOCATIONS cfg <? depth)%nat then Some (false, m) else
    if Rst2.out_of_range cfg bucket then Some (false, m) else
    let alt_bucket := get_alt_bucket cfg bucket fp in
    if Rst2.out_of_range cfg alt_bucket then Some (false, m) else
    if (length (bucket_at m alt_bucket) <? BUCKET_SIZE cfg)%nat then
      Some (true, push_back m alt_bucket (mkBucketEntry fp true v))
    else
      let evict_idx :=
        (rand (rand_calls m) mod length (bucket_at m alt_bucket))%nat in
      let evicted := nth evict_idx (bucket_at m alt_bucket) BucketEntry_default in
      let m1 := set_slot (tick m) alt_bucket evict_idx (mkBucketEntry fp true v) in
      let new_bucket := get_alt_bucket cfg alt_bucket (fingerprint evicted) in
      if Rst2.out_of_range cfg new_bucket then Some (false, m1) else
      if (length (bucket_at m1 new_bucket) <? BUCKET_SIZE cfg)%nat then
        Some (true, push_back m1 new_bucket evicted)
      else
        Rst2.relocate cfg rand fuel m1 new_bucket (fingerprint evicted)
                      (value evicted) (S depth).
Proof.
  cbn [Rst2.relocate].
  destruct (selector_bit
    (nth (rand (rand_calls m) mod
            length (bucket_at m (get_alt_bucket cfg bucket fp)))
         (bucket_at m (get_alt_bucket cfg bucket fp)) BucketEntry_default));
    reflexivity.
Qed.

Lemma relocate_guarded_total fuel : forall m bucket fp v depth,
  (MAX_RELOCATIONS cfg + 1 - depth < fuel)%nat ->
  exists b m', Rst2.relocate cfg rand fuel m bucket fp v depth = Some (b, m').
Proof.
  induction fuel as [| fuel IH]; intros m bucket fp v depth Hfuel; [lia |].
  rewrite relocate_guarded_unfold. cbv zeta.
  destruct (MAX_RELOCATIONS cfg <? depth)%nat eqn:Hdepth; [eauto |].
  repeat match goal with
         | |- context [if ?c then _ else _] => destruct c; [eauto |]
         end.
  apply IH. apply Nat.ltb_ge in Hdepth. lia.
Qed.

(** Every exit of the guarded walk: what it returns, how many calls of
    [rand()] it has made, and the bucket sizes when it fails. *)
Lemma relocate_guarded_exits fuel : forall m bucket fp v depth b m',
  Rst2.relocate cfg rand fuel m bucket fp v depth = Some (b, m') ->
  (rand_calls m <= rand_calls m' <=
     rand_calls m + (MAX_RELOCATIONS cfg + 1 - depth))%nat /\
  (b = false -> sizes m' = sizes m).
Proof.
  induction fuel as [| fuel IH]; intros m bucket fp v depth b m' H;
    [discriminate H |].
  rewrite relocate_guarded_unfold in H. cbv zeta in H.
  destruct (MAX_RELOCATIONS cfg <? depth)%nat eqn:Hdepth.
  { injection H as <- <-. split; [lia | reflexivity]. }
  apply Nat.ltb_ge in Hdepth.
  destruct (Rst2.out_of_range cfg bucket).
  { injection H as <- <-. split; [lia | reflexivity]. }
  destruct (Rst2.out_of_range cfg (get_alt_bucket cfg bucket fp)).
  { injection H as <- <-. split; [lia | reflexivity]. }
  destruct (_ <? BUCKET_SIZE cfg)%nat.
  { injection H as <- <-. split; [simpl; lia | intros Hb; discriminate Hb]. }
  destruct (Rst2.out_of_range cfg _).
  { injection H as <- <-. split; [simpl; lia |].
    intros _. now rewrite sizes_set_slot, sizes_tick. }
  destruct (_ <? BUCKET_SIZE cfg)%nat.
  { injection H as <- <-. split; [simpl; lia | intros Hb; discriminate Hb]. }
  apply IH in H as [Hcalls Hsizes]. split; [simpl in Hcalls; lia |].
  intros Hb. now rewrite (Hsizes Hb), sizes_set_slot, sizes_tick.
Qed.

(** [Rst2.add_utxo] either returns at once, places the entry directly, or
    hands over to the guarded walk. *)
Lemma add_utxo_guarded_cases fuel key v m :
  Rst2.add_utxo cfg rand fuel key v m = Some (false, m) \/
  (exists i e, Rst2.add_utxo cfg rand fuel key v m = Some (true, push_back m i e)) \/
  (exists bucket fp,
     Rst2.add_utxo cfg rand fuel key v m
     = Rst2.relocate cfg rand fuel m bucket fp v 0).
Proof.
  unfold Rst2.add_utxo.
  destruct (get_bucket_fingerprint cfg key) as [bucket fp].
  repeat match goal with
         | |- context [if ?c then _ else _] => destruct c; [eauto |]
         end.
  eauto.
Qed.

End GuardedWalk.

Section Walks.

Variable cfg : Config.
Variable rand : nat -> nat.

(** C6. The relocation walk terminates on every input.  With buckets of at
    least one slot (BUCKET_SIZE > 0: the eviction index [rand() % BUCKET_SIZE],
    and in rst2.cpp the draw from [0, size - 1], is defined only then) and
    with more than MAX_RELOCATIONS + 1 units of recursion depth available,
    [add_utxo] returns a result for every key, value and table, having
    evicted at most MAX_RELOCATIONS + 1 entries (one call of [rand()] per
    eviction); and [relocate] entered at any depth returns a result after at
    most MAX_RELOCATIONS + 1 - depth evictions, failing at once, with the
    table untouched, when the depth exceeds MAX_RELOCATIONS.  The same holds
    for [add_utxo] with the index checks of rst2.cpp. *)
Theorem relocation_walk_terminates fuel key v m bucket fp depth :
  (0 < BUCKET_SIZE cfg)%nat ->
  (MAX_RELOCATIONS cfg + 1 < fuel)%nat ->
  (exists b m',
     add_utxo cfg rand fuel key v m = Some (b, m') /\
     (rand_calls m <= rand_calls m' <=
        rand_calls m + (MAX_RELOCATIONS cfg + 1))%nat) /\
  (exists b m',
     relocate cfg rand fuel m bucket fp v depth = Some (b, m') /\
     (rand_calls m <= rand_calls m' <=
        rand_calls m + (MAX_RELOCATIONS cfg + 1 - depth))%nat /\
     ((MAX_RELOCATIONS cfg < depth)%nat -> b = false /\ m' = m)) /\
  (exists b m',
     Rst2.add_utxo cfg rand fuel key v m = Some (b, m') /\
     (rand_calls m <= rand_calls m' <=
        rand_calls m + (MAX_RELOCATIONS cfg + 1))%nat).
Proof.
  intros _ Hfuel. split; [| split].
  - destruct (get_bucket_fingerprint cfg key) as [kb kf] eqn:Haddr.
    destruct (add_utxo_cases cfg rand fuel key v m _ kb kf Haddr eq_refl)
      as [[-> _] | (_ & _ & [[-> _] | [[-> _] | [-> _]]])].
    + exists false, m. split; [reflexivity | lia].
    + eexists _, _. split; [reflexivity | simpl; lia].
    + eexists _, _. split; [reflexivity | simpl; lia].
    + destruct (relocate_total cfg rand fuel m kb kf v 0%nat)
        as (b & m' & Hr); [lia |].
      exists b, m'. split; [exact Hr |].
      apply relocate_evictions in Hr. lia.
  - destruct (relocate_total cfg rand fuel m bucket fp v depth)
      as (b & m' & Hr); [lia |].
    exists b, m'. split; [exact Hr |]. split.
    + now apply relocate_evictions in Hr.
    + intros Hd. destruct fuel as [| fuel']; [lia |].
      rewrite relocate_depth_exceeded in Hr by exact Hd.
      now injection Hr as <- <-.
  - destruct (add_utxo_guarded_cases cfg rand fuel key v m)
      as [-> | [(i & e & ->) | (gb & gf & ->)]].
    + exists false, m. split; [reflexivity | lia].
    + eexists _, _. split; [reflexivity | simpl; lia].
    + destruct (relocate_guarded_total cfg rand fuel m gb gf v 0%nat)
        as (b & m' & Hr); [lia |].
      exists b, m'. split; [exact Hr |].
      apply relocate_guarded_exits in Hr as [Hr _]. lia.
Qed.

(** C10. A failed insert leaves the number of stored entries unchanged:
    whenever [add_utxo] returns false, by the duplicate check or by the walk
    running out of depth (or, in rst2.cpp, by one of its index checks),
    every bucket has the size it had before the call, and so [count()] is
    the same. *)
Theorem failed_insert_preserves_count fuel key v m m' :
  add_utxo cfg rand fuel key v m = Some (false, m') \/
  Rst2.add_utxo cfg rand fuel key v m = Some (false, m') ->
  count m' = count m /\
  forall i, length (bucket_at m' i) = length (bucket_at m i).
Proof.
  intros H.
  assert (Hs : sizes m' = sizes m).
  { destruct H as [H | H].
    - destruct (get_bucket_fingerprint cfg key) as [bucket fp] eqn:Haddr.
      destruct (add_utxo_cases cfg rand fuel key v m _ bucket fp Haddr H)
        as [[Hr _] | (_ & _ & [[Hr _] | [[Hr _] | [Hr _]]])];
        try discriminate.
      + now injection Hr as ->.
      + symmetry in Hr. eapply relocate_false_sizes; eauto.
    - destruct (add_utxo_guarded_cases cfg rand fuel key v m)
        as [Hr | [(i & e & Hr) | (gb & gf & Hr)]]; rewrite Hr in H.
      + now injection H as <-.
      + discriminate H.
      + apply relocate_guarded_exits in H as [_ H]. now apply H. }
  split; [now apply count_sizes |].
  intros i. now apply sizes_bucket_at.
Qed.

End Walks.

(** ** Construction *)

Lemma log2_up_pow2_nat k : Z.log2_up (Z.of_nat (2 ^ k)) = Z.of_nat k.
Proof.
  rewrite Nat2Z.inj_pow. apply Z.log2_up_pow2. lia.
Qed.







(** [String.append] simplifies on a constructor, as it does without stdpp's
    setting. *)
#[local] Arguments String.append !s1 s2 : simpl nomatch.

(** ** Alternate buckets: the odd multiplier *)

Lemma lxor_cancel_l a x y : Z.lxor a x = Z.lxor a y -> x = y.
Proof.
  intros H.
  rewrite <- (Z.lxor_0_l x), <- (Z.lxor_nilpotent a), Z.lxor_assoc, H.
  now rewrite <- Z.lxor_assoc, Z.lxor_nilpotent, Z.lxor_0_l.
Qed.

Lemma fp_hash_low cfg f :
  0 <= BUCKET_BITS cfg <= 32 ->
  Z.land (u32 (f * 0xCC9E2D51)) (low_mask (BUCKET_BITS cfg))
  = (f * 0xCC9E2D51) mod 2 ^ BUCKET_BITS cfg.
Proof.
  intros Hb. rewrite low_mask_ones, Z.land_ones by lia. unfold u32.
  apply Z.mod_mod_divide.
  exists (2 ^ (32 - BUCKET_BITS cfg)).
  rewrite <- Z.pow_add_r by lia. f_equal. lia.
Qed.

(** The multiplier of [get_alt_bucket] is odd, so it can be cancelled modulo
    a power of two. *)
Lemma odd_multiplier_divides (n : nat) : forall d,
  (2 ^ Z.of_nat n | d * 0xCC9E2D51) -> (2 ^ Z.of_nat n | d).
Proof.
  induction n as [| n IH]; intros d [q Hq].
  - apply Z.divide_1_l.
  - rewrite Nat2Z.inj_succ, Z.pow_succ_r in * by lia.
    assert (Hd : exists d', d = 2 * d').
    { exists (d / 2). revert Hq. generalize (2 ^ Z.of_nat n). intros p Hq.
      pose proof (Z.div_mod d 2). pose proof (Z.mod_pos_bound d 2). lia. }
    destruct Hd as [d' ->].
    destruct (IH d') as [r Hr]; [exists q; lia |].
    exists r. lia.
Qed.

Lemma alt_bucket_fingerprint_eq cfg b f1 f2 :
  FINGERPRINT_BITS cfg <= BUCKET_BITS cfg <= 32 ->
  0 <= f1 < 2 ^ FINGERPRINT_BITS cfg ->
  0 <= f2 < 2 ^ FINGERPRINT_BITS cfg ->
  get_alt_bucket cfg b f1 = get_alt_bucket cfg b f2 -> f1 = f2.
Proof.
  intros Hbits H1 H2 Halt.
  assert (Hf : 0 <= FINGERPRINT_BITS cfg).
  { destruct (Z.lt_ge_cases (FINGERPRINT_BITS cfg) 0) as [Hneg | ?]; [| lia].
    rewrite Z.pow_neg_r in H1 by lia. lia. }
  assert (Hle : 2 ^ FINGERPRINT_BITS cfg <= 2 ^ BUCKET_BITS cfg)
    by (apply Z.pow_le_mono_r; lia).
  unfold get_alt_bucket in Halt. apply lxor_cancel_l in Halt.
  rewrite !fp_hash_low in Halt by lia.
  assert (Hpos : 0 < 2 ^ BUCKET_BITS cfg) by (apply Z.pow_pos_nonneg; lia).
  assert (Hdiv : (2 ^ BUCKET_BITS cfg | (f1 - f2) * 0xCC9E2D51)).
  { apply Z.mod_divide; [lia |].
    rewrite Z.mul_sub_distr_r, Zminus_mod, Halt, Z.sub_diag.
    apply Z.mod_0_l. lia. }
  rewrite <- (Z2Nat.id (BUCKET_BITS cfg)) in Hdiv, Hle, Hpos by lia.
  apply odd_multiplier_divides in Hdiv.
  destruct Hdiv as [q Hq]. revert Hq Hle Hpos.
  generalize (2 ^ Z.of_nat (Z.to_nat (BUCKET_BITS cfg))). intros P Hq Hle Hpos.
  assert (q = 0) by nia. subst q. lia.
Qed.

(** X11. A key with fingerprint 0 has one candidate bucket only: when
    FINGERPRINT_BITS <= BUCKET_BITS <= 30 (the widths for which the mask
    [(1 << BUCKET_BITS) - 1] of the source is a defined [int] expression),
    the alternate bucket of b under a fingerprint f in
    [0, 2^FINGERPRINT_BITS) is b itself exactly when f = 0. *)
Theorem get_alt_bucket_fixed_point cfg b f :
  FINGERPRINT_BITS cfg <= BUCKET_BITS cfg <= 30 ->
  0 <= f < 2 ^ FINGERPRINT_BITS cfg ->
  get_alt_bucket cfg b f = b <-> f = 0.
Proof.
  intros Hbits30 Hf.
  assert (Hbits : FINGERPRINT_BITS cfg <= BUCKET_BITS cfg <= 32) by lia.
  assert (H0 : get_alt_bucket cfg b 0 = b).
  { unfold get_alt_bucket. cbn [Z.mul]. unfold u32.
    change (0 mod 2 ^ 32) with 0. now rewrite Z.land_0_l, Z.lxor_0_r. }
  split; [| now intros ->].
  intros H. apply (alt_bucket_fingerprint_eq cfg b f 0 Hbits Hf).
  - split; [lia |]. apply Z.pow_pos_nonneg; [lia |].
    destruct (Z.lt_ge_cases (FINGERPRINT_BITS cfg) 0) as [Hneg | ?]; [| lia].
    rewrite Z.pow_neg_r in Hf by lia. lia.
  - now rewrite H0.
Qed.

(** Digest recovered from the pair. *)
Lemma crc32_hash_range key : 0 <= crc32_hash key < 2 ^ 32.
Proof. unfold crc32_hash, u32. apply Z.mod_pos_bound. lia. Qed.

Lemma digest_of_address cfg key :
  0 <= BUCKET_BITS cfg -> 32 <= BUCKET_BITS cfg + FINGERPRINT_BITS cfg ->
  crc32_hash key =
    fst (get_bucket_fingerprint cfg key)
    + 2 ^ BUCKET_BITS cfg * snd (get_bucket_fingerprint cfg key).
Proof.
  intros Hb Hsum. unfold get_bucket_fingerprint. cbn [fst snd].
  pose proof (crc32_hash_range key) as Hr.
  set (h := crc32_hash key) in *.
  assert (Hpos : 0 < 2 ^ BUCKET_BITS cfg) by (apply Z.pow_pos_nonneg; lia).
  assert (Hhigh : 0 <= h / 2 ^ BUCKET_BITS cfg) by (apply Z.div_pos; lia).
  assert (Hfp : Z.land (Z.shiftr h (BUCKET_BITS cfg))
                       (low_mask (FINGERPRINT_BITS cfg))
                = h / 2 ^ BUCKET_BITS cfg).
  { rewrite Z.shiftr_div_pow2 by lia.
    destruct (Z.lt_ge_cases (FINGERPRINT_BITS cfg) 0) as [Hneg | Hf].
    - assert (Hbig : 2 ^ 32 <= 2 ^ BUCKET_BITS cfg)
        by (apply Z.pow_le_mono_r; lia).
      rewrite Z.div_small by lia. apply Z.land_0_l.
    - rewrite low_mask_ones, Z.land_ones by lia.
      apply Z.mod_small. split; [exact Hhigh |].
      apply Z.div_lt_upper_bound; [lia |].
      rewrite <- Z.pow_add_r by lia.
      assert (2 ^ 32 <= 2 ^ (BUCKET_BITS cfg + FINGERPRINT_BITS cfg))
        by (apply Z.pow_le_mono_r; lia).
      lia. }
  rewrite Hfp, low_mask_ones, Z.land_ones by lia.
  pose proof (Z.div_mod h (2 ^ BUCKET_BITS cfg)). lia.
Qed.

(** X12. When the bucket bits and the fingerprint bits cover the 32 bits of
    the digest (BUCKET_BITS + FINGERPRINT_BITS >= 32, as with 19 + 13 in the
    fixed profile), each width being at most 30 so that both masks
    [(1 << bits) - 1] of the source are defined [int] expressions, two keys
    have the same (bucket, fingerprint) pair exactly when they have the same
    CRC-32 digest. *)
Theorem same_address_iff_same_digest cfg k1 k2 :
  BUCKET_BITS cfg <= 30 -> FINGERPRINT_BITS cfg <= 30 ->
  32 <= BUCKET_BITS cfg + FINGERPRINT_BITS cfg ->
  get_bucket_fingerprint cfg k1 = get_bucket_fingerprint cfg k2 <->
  crc32_hash k1 = crc32_hash k2.
Proof.
  intros Hb30 Hf30 Hsum.
  assert (Hb : 0 <= BUCKET_BITS cfg) by lia. split.
  - intros H. rewrite (digest_of_address cfg k1), (digest_of_address cfg k2)
      by assumption. now rewrite H.
  - intros H. unfold get_bucket_fingerprint. now rewrite H.
Qed.

(** ** The digest: range, linearity and injectivity of the shift step *)

Lemma land_1_testbit x : (Z.land x 1 =? 0) = negb (Z.testbit x 0).
Proof.
  change 1 with (Z.ones 1). rewrite Z.land_ones by lia.
  change (2 ^ 1) with 2. rewrite <- Z.bit0_mod.
  now destruct (Z.testbit x 0).
Qed.

Lemma crc32_shift_lxor x y :
  crc32_shift (Z.lxor x y) = Z.lxor (crc32_shift x) (crc32_shift y).
Proof.
  unfold crc32_shift. rewrite !land_1_testbit, Z.lxor_spec, Z.shiftr_lxor.
  destruct (Z.testbit x 0), (Z.testbit y 0); cbn [xorb negb];
    rewrite ?Z.lxor_0_r.
  - rewrite (Z.lxor_comm (Z.shiftr y 1)), Z.lxor_assoc,
      <- (Z.lxor_assoc polynomial), Z.lxor_nilpotent, Z.lxor_0_l.
    reflexivity.
  - rewrite !Z.lxor_assoc. f_equal. apply Z.lxor_comm.
  - now rewrite Z.lxor_assoc.
  - reflexivity.
Qed.

Lemma crc32_shift_iter_lxor k x y :
  Nat.iter k crc32_shift (Z.lxor x y)
  = Z.lxor (Nat.iter k crc32_shift x) (Nat.iter k crc32_shift y).
Proof.
  induction k as [| k IH]; [reflexivity |].
  rewrite !Nat.iter_succ. now rewrite IH, crc32_shift_lxor.
Qed.

Lemma crc32_shift_range x : 0 <= x < 2 ^ 32 -> 0 <= crc32_shift x < 2 ^ 32.
Proof.
  intros Hx. unfold crc32_shift. apply lxor_range; [lia | |].
  - rewrite Z.shiftr_div_pow2 by lia. change (2 ^ 1) with 2.
    split; [apply Z.div_pos; lia |].
    apply Z.div_lt_upper_bound; lia.
  - destruct (_ =? 0); unfold polynomial; lia.
Qed.

Lemma crc32_shift_iter_range k x :
  0 <= x < 2 ^ 32 -> 0 <= Nat.iter k crc32_shift x < 2 ^ 32.
Proof.
  intros Hx. induction k as [| k IH]; [exact Hx |].
  rewrite Nat.iter_succ. now apply crc32_shift_range.
Qed.

(** A step that folds the polynomial in sets bit 31. *)
Lemma crc32_shift_odd x :
  0 <= x < 2 ^ 32 -> Z.testbit x 0 = true -> 2 ^ 31 <= crc32_shift x.
Proof.
  intros Hx Hodd.
  pose proof (crc32_shift_range x Hx) as Hr.
  destruct (Z.lt_ge_cases (crc32_shift x) (2 ^ 31)) as [Hlt | ?]; [| lia].
  exfalso.
  assert (Hbit : Z.testbit (crc32_shift x) 31 = true).
  { unfold crc32_shift. rewrite land_1_testbit, Hodd. cbn [negb].
    rewrite Z.lxor_spec, Z.shiftr_spec by lia.
    replace (Z.testbit x (31 + 1)) with false; [reflexivity |].
    symmetry. apply Z.testbit_false; [lia |].
    rewrite Z.div_small by (change (31 + 1) with 32; lia). reflexivity. }
  apply Z.testbit_true in Hbit; [| lia].
  rewrite Z.div_small in Hbit by lia. discriminate.
Qed.

Lemma crc32_shift_even x :
  Z.testbit x 0 = false -> x = 2 * crc32_shift x.
Proof.
  intros Heven. unfold crc32_shift.
  rewrite land_1_testbit, Heven. cbn [negb].
  rewrite Z.lxor_0_r, Z.shiftr_div_pow2 by lia. change (2 ^ 1) with 2.
  pose proof (Z.bit0_mod x) as H0. rewrite Heven in H0. cbn [Z.b2z] in H0.
  pose proof (Z.div_mod x 2). lia.
Qed.

(** When [k] steps leave a value below 2^(32-k), no step has folded the
    polynomial in: the steps were plain shifts of zero bits. *)
Lemma crc32_shift_iter_small (k : nat) : forall x,
  (k <= 32)%nat -> 0 <= x < 2 ^ 32 ->
  Nat.iter k crc32_shift x < 2 ^ (32 - Z.of_nat k) ->
  x = 2 ^ Z.of_nat k * Nat.iter k crc32_shift x.
Proof.
  induction k as [| k IH]; intros x Hk Hx Hsmall.
  - change (Nat.iter 0 crc32_shift x) with x.
    change (2 ^ Z.of_nat 0) with 1. lia.
  - rewrite Nat.iter_succ in *.
    set (y := Nat.iter k crc32_shift x) in *.
    pose proof (crc32_shift_iter_range k x Hx) as Hy. fold y in Hy.
    assert (Hpow : 2 ^ (32 - Z.of_nat (S k)) <= 2 ^ 31)
      by (apply Z.pow_le_mono_r; lia).
    destruct (Z.testbit y 0) eqn:Hbit.
    { pose proof (crc32_shift_odd y Hy Hbit). lia. }
    pose proof (crc32_shift_even y Hbit) as Hhalf.
    assert (Hy' : y < 2 ^ (32 - Z.of_nat k)).
    { replace (32 - Z.of_nat k) with (Z.succ (32 - Z.of_nat (S k))) by lia.
      rewrite Z.pow_succ_r by lia. lia. }
    rewrite (IH x) by (try exact Hy'; try exact Hx; lia).
    fold y. rewrite Nat2Z.inj_succ, Z.pow_succ_r by lia. lia.
Qed.

Lemma byte_range (c : ascii) : 0 <= Z.of_N (N_of_ascii c) < 2 ^ 8.
Proof.
  destruct c as [[] [] [] [] [] [] [] []]; vm_compute; split;
    first [discriminate | reflexivity].
Qed.

Lemma byte_inj (c1 c2 : ascii) :
  Z.of_N (N_of_ascii c1) = Z.of_N (N_of_ascii c2) -> c1 = c2.
Proof.
  intros H. apply N2Z.inj in H.
  rewrite <- (ascii_N_embedding c1), <- (ascii_N_embedding c2). now rewrite H.
Qed.

Lemma crc32_byte_range crc c :
  0 <= crc < 2 ^ 32 -> 0 <= crc32_byte crc c < 2 ^ 32.
Proof.
  intros Hc. unfold crc32_byte. apply crc32_shift_iter_range.
  pose proof (byte_range c).
  apply lxor_range; lia.
Qed.

(** The two equations of [crc32_loop], used by rewriting. *)
Lemma crc32_loop_nil crc : crc32_loop EmptyString crc = crc.
Proof. reflexivity. Qed.

Lemma crc32_loop_cons c key crc :
  crc32_loop (String c key) crc = crc32_loop key (crc32_byte crc c).
Proof. lazy beta iota delta [crc32_loop]. reflexivity. Qed.

Lemma crc32_loop_range key : forall crc,
  0 <= crc < 2 ^ 32 -> 0 <= crc32_loop key crc < 2 ^ 32.
Proof.
  induction key as [| c key IH]; intros crc Hc.
  - now rewrite crc32_loop_nil.
  - rewrite crc32_loop_cons. apply IH. now apply crc32_byte_range.
Qed.

Lemma crc32_loop_app w s : forall crc,
  crc32_loop (String.append w s) crc = crc32_loop s (crc32_loop w crc).
Proof.
  induction w as [| c w IH]; intros crc.
  - reflexivity.
  - change (String.append (String c w) s) with (String c (String.append w s)).
    rewrite !crc32_loop_cons. apply IH.
Qed.

Lemma crc32_byte_lxor a b c1 c2 :
  Z.lxor (crc32_byte a c1) (crc32_byte b c2)
  = Nat.iter 8 crc32_shift
      (Z.lxor (Z.lxor a b)
              (Z.lxor (Z.of_N (N_of_ascii c1)) (Z.of_N (N_of_ascii c2)))).
Proof.
  unfold crc32_byte.
  set (e1 := Z.of_N (N_of_ascii c1)). set (e2 := Z.of_N (N_of_ascii c2)).
  rewrite <- crc32_shift_iter_lxor. f_equal.
  rewrite !Z.lxor_assoc. f_equal.
  rewrite <- !Z.lxor_assoc. f_equal. apply Z.lxor_comm.
Qed.

Lemma string_snoc (n : nat) : forall w,
  String.length w = S n ->
  exists w' c, w = String.append w' (String c EmptyString) /\
               String.length w' = n.
Proof.
  induction n as [| n IH]; intros [| c w] Hlen; try discriminate.
  - destruct w; [| discriminate]. now exists EmptyString, c.
  - injection Hlen as Hlen. destruct (IH w Hlen) as (w' & c' & -> & Hw').
    exists (String c w'), c'. cbn. now rewrite Hw'.
Qed.

Lemma lxor_shifted_byte v e :
  0 <= v -> 0 <= e < 2 ^ 8 -> Z.lxor (2 ^ 8 * v) e = 2 ^ 8 * v + e.
Proof.
  intros Hv He. symmetry. apply Z.add_nocarry_lxor.
  apply Z.bits_inj'. intros i Hi. rewrite Z.land_spec, Z.bits_0.
  rewrite Z.mul_comm, <- Z.shiftl_mul_pow2 by lia.
  destruct (Z.lt_ge_cases i 8).
  - rewrite Z.shiftl_spec_low by lia. reflexivity.
  - replace (Z.testbit e i) with false; [apply andb_false_r |].
    symmetry. apply Z.bits_above_log2; [lia |].
    destruct (Z.eq_dec e 0) as [-> | Hne]; [simpl; lia |].
    apply Z.log2_lt_pow2; [lia |].
    assert (2 ^ 8 <= 2 ^ i) by (apply Z.pow_le_mono_r; lia). lia.
Qed.

(** The states reached from one state through two windows of the same
    length n <= 4 differ by less than 2^(32-8n) only when the windows are
    equal. *)
Lemma crc32_loop_window (n : nat) : forall w1 w2 crc,
  (n <= 4)%nat -> String.length w1 = n -> String.length w2 = n ->
  0 <= crc < 2 ^ 32 ->
  Z.lxor (crc32_loop w1 crc) (crc32_loop w2 crc) < 2 ^ (32 - 8 * Z.of_nat n) ->
  w1 = w2.
Proof.
  induction n as [| n IH]; intros w1 w2 crc Hn H1 H2 Hc Hsmall.
  - destruct w1, w2; try discriminate. reflexivity.
  - destruct (string_snoc n w1 H1) as (w1' & c1 & -> & H1').
    destruct (string_snoc n w2 H2) as (w2' & c2 & -> & H2').
    rewrite !crc32_loop_app, !crc32_loop_cons, !crc32_loop_nil in Hsmall.
    rewrite crc32_byte_lxor in Hsmall.
    pose proof (crc32_loop_range w1' crc Hc) as Hx1.
    pose proof (crc32_loop_range w2' crc Hc) as Hx2.
    set (x1 := crc32_loop w1' crc) in *. set (x2 := crc32_loop w2' crc) in *.
    pose proof (byte_range c1) as Hb1. pose proof (byte_range c2) as Hb2.
    set (e1 := Z.of_N (N_of_ascii c1)) in *.
    set (e2 := Z.of_N (N_of_ascii c2)) in *.
    assert (He : 0 <= Z.lxor e1 e2 < 2 ^ 8) by (apply lxor_range; lia).
    assert (Hd : 0 <= Z.lxor x1 x2 < 2 ^ 32) by (apply lxor_range; lia).
    assert (Hz : 0 <= Z.lxor (Z.lxor x1 x2) (Z.lxor e1 e2) < 2 ^ 32)
      by (apply lxor_range; lia).
    set (z := Z.lxor (Z.lxor x1 x2) (Z.lxor e1 e2)) in *.
    pose proof (crc32_shift_iter_range 8 z Hz) as Hv.
    set (v := Nat.iter 8 crc32_shift z) in *.
    assert (Hpow : 2 ^ (32 - 8 * Z.of_nat (S n)) <= 2 ^ (32 - Z.of_nat 8))
      by (apply Z.pow_le_mono_r; lia).
    assert (Hzv : z = 2 ^ 8 * v).
    { apply (crc32_shift_iter_small 8 z); [lia | exact Hz | fold v; lia]. }
    assert (Hx : Z.lxor x1 x2 = 2 ^ 8 * v + Z.lxor e1 e2).
    { rewrite <- lxor_shifted_byte by lia. rewrite <- Hzv. unfold z.
      now rewrite Z.lxor_assoc, Z.lxor_nilpotent, Z.lxor_0_r. }
    assert (Hbound : 2 ^ 8 * v + Z.lxor e1 e2 < 2 ^ (32 - 8 * Z.of_nat n)).
    { replace (32 - 8 * Z.of_nat n) with (8 + (32 - 8 * Z.of_nat (S n)))
        by lia.
      rewrite Z.pow_add_r by lia. lia. }
    assert (Hw : w1' = w2').
    { apply (IH w1' w2' crc); [lia | exact H1' | exact H2' | exact Hc |].
      fold x1 x2. lia. }
    subst w2'. subst x2. rewrite Z.lxor_nilpotent in Hx.
    assert (Hee : Z.lxor e1 e2 = 0) by lia.
    apply Z.lxor_eq in Hee. apply byte_inj in Hee. now subst c2.
Qed.

Lemma crc32_byte_inj a b c :
  0 <= a < 2 ^ 32 -> 0 <= b < 2 ^ 32 ->
  crc32_byte a c = crc32_byte b c -> a = b.
Proof.
  intros Ha Hb H. apply Z.lxor_eq.
  assert (Hd : 0 <= Z.lxor a b < 2 ^ 32) by (apply lxor_range; lia).
  pose proof (crc32_byte_lxor a b c c) as Hl.
  rewrite H, !Z.lxor_nilpotent, Z.lxor_0_r in Hl.
  rewrite (crc32_shift_iter_small 8 (Z.lxor a b)); [| lia | exact Hd |].
  - rewrite <- Hl. lia.
  - rewrite <- Hl. reflexivity.
Qed.

Lemma crc32_loop_inj s : forall a b,
  0 <= a < 2 ^ 32 -> 0 <= b < 2 ^ 32 ->
  crc32_loop s a = crc32_loop s b -> a = b.
Proof.
  induction s as [| c s IH]; intros a b Ha Hb H.
  - now rewrite !crc32_loop_nil in H.
  - rewrite !crc32_loop_cons in H.
    apply (crc32_byte_inj a b c Ha Hb).
  apply IH; [now apply crc32_byte_range | now apply crc32_byte_range | exact H].
Qed.

Lemma crc32_finalize_inj a b :
  0 <= a < 2 ^ 32 -> 0 <= b < 2 ^ 32 ->
  u32 (Z.lnot a) = u32 (Z.lnot b) -> a = b.
Proof.
  intros Ha Hb. unfold u32, Z.lnot.
  assert (Hm : forall x, 0 <= x < 2 ^ 32 ->
            (Z.pred (- x)) mod 2 ^ 32 = 2 ^ 32 - 1 - x).
  { intros x Hx. symmetry. apply (Z.mod_unique _ _ (-1)); lia. }
  rewrite (Hm a Ha), (Hm b Hb). lia.
Qed.

(** X13. [crc32_hash] tells apart keys that differ within four consecutive
    characters: two keys of the same length that agree outside a window of
    at most four characters and differ inside it have different digests.
    In particular the digest is injective on keys of up to four characters
    of one length, and two outputs of one transaction whose indexes have the
    same number of digits, four at most, never share a digest. *)
Theorem crc32_hash_window p w1 w2 s :
  String.length w1 = String.length w2 ->
  (String.length w1 <= 4)%nat ->
  w1 <> w2 ->
  crc32_hash (String.append p (String.append w1 s))
  <> crc32_hash (String.append p (String.append w2 s)).
Proof.
  intros Hlen Hn Hne H. apply Hne. unfold crc32_hash in H.
  assert (H0 : 0 <= 0xFFFFFFFF < 2 ^ 32) by lia.
  pose proof (crc32_loop_range p _ H0) as Hp.
  rewrite !crc32_loop_app in H.
  set (c := crc32_loop p 0xFFFFFFFF) in *. clearbody c.
  apply crc32_finalize_inj in H;
    [| apply crc32_loop_range, crc32_loop_range; exact Hp ..].
  apply crc32_loop_inj in H; [| apply crc32_loop_range; exact Hp ..].
  apply (crc32_loop_window (String.length w1) w1 w2 c Hn eq_refl);
    [now symmetry | exact Hp |].
  rewrite H, Z.lxor_nilpotent. apply Z.pow_pos_nonneg; lia.
Qed.

(** ** The pairs a table holds *)

Lemma concat_tuples_alter (f : list BucketEntry -> list BucketEntry) l :
  forall i b xs ys,
  l !! i = Some b ->
  Permutation (xs ++ tuples (f b)) (ys ++ tuples b) ->
  Permutation (xs ++ concat (map tuples (alter f i l)))
              (ys ++ concat (map tuples l)).
Proof.
  induction l as [| a l IH]; intros [| i] b xs ys Hb Hperm;
    simpl in *; try discriminate.
  - injection Hb as ->. rewrite !app_assoc. now apply Permutation_app_tail.
  - rewrite (Permutation_app_swap_app xs), (Permutation_app_swap_app ys).
    apply Permutation_app_head. now apply (IH i b).
Qed.

Lemma tuples_insert b : forall idx old e,
  b !! idx = Some old ->
  Permutation ((fingerprint old, value old) :: tuples (<[idx := e]> b))
              ((fingerprint e, value e) :: tuples b).
Proof.
  induction b as [| a b IH]; intros [| idx] old e Hb; simpl in *;
    try discriminate.
  - injection Hb as ->. apply perm_swap.
  - rewrite perm_swap. rewrite (IH idx old e Hb). apply perm_swap.
Qed.

Lemma tuples_erase_first fp sb b : forall b',
  erase_first fp sb b = Some b' ->
  exists e, find (entry_matches fp sb) b = Some e /\
            Permutation ((fingerprint e, value e) :: tuples b') (tuples b).
Proof.
  induction b as [| a b IH]; intros b' H; simpl in *; [discriminate |].
  destruct (entry_matches fp sb a).
  - injection H as <-. exists a. split; reflexivity.
  - destruct (erase_first fp sb b) as [b1 |]; [| discriminate].
    injection H as <-. destruct (IH b1 eq_refl) as (e & Hf & Hp).
    exists e. split; [exact Hf |]. simpl. rewrite perm_swap. now rewrite Hp.
Qed.

Lemma contents_tick m : contents (tick m) = contents m.
Proof. reflexivity. Qed.

Lemma bucket_at_lookup m i :
  (Z.to_nat i < length (buckets m))%nat ->
  buckets m !! Z.to_nat i = Some (bucket_at m i).
Proof.
  intros H. unfold bucket_at.
  destruct (lookup_lt_is_Some_2 _ _ H) as [b ->]. reflexivity.
Qed.

Lemma contents_push_back m i e :
  (Z.to_nat i < length (buckets m))%nat ->
  Permutation (contents (push_back m i e))
              ((fingerprint e, value e) :: contents m).
Proof.
  intros Hi. unfold contents, push_back. cbn [buckets].
  apply (concat_tuples_alter _ _ _ _ [] [_] (bucket_at_lookup m i Hi)).
  simpl. unfold tuples. rewrite map_app. simpl.
  symmetry. apply Permutation_cons_append.
Qed.

Lemma contents_set_slot m i idx e :
  (idx < length (bucket_at m i))%nat ->
  let old := nth idx (bucket_at m i) BucketEntry_default in
  Permutation ((fingerprint old, value old) :: contents (set_slot m i idx e))
              ((fingerprint e, value e) :: contents m).
Proof.
  intros Hidx old.
  assert (Hi : (Z.to_nat i < length (buckets m))%nat)
    by (apply bucket_at_length_in_range; lia).
  unfold contents, set_slot. cbn [buckets].
  apply (concat_tuples_alter _ _ _ _ [_] [_] (bucket_at_lookup m i Hi)).
  simpl. apply tuples_insert.
  destruct (lookup_lt_is_Some_2 _ _ Hidx) as [x Hx].
  rewrite Hx. f_equal. subst old. symmetry. now apply nth_lookup_Some.
Qed.

Lemma contents_set_bucket_erase m i fp sb b' :
  erase_first fp sb (bucket_at m i) = Some b' ->
  exists e, find (entry_matches fp sb) (bucket_at m i) = Some e /\
    Permutation ((fingerprint e, value e) :: contents (set_bucket m i b'))
                (contents m).
Proof.
  intros Herase.
  assert (Hi : (Z.to_nat i < length (buckets m))%nat).
  { apply bucket_at_length_in_range.
    apply erase_first_length in Herase. lia. }
  destruct (tuples_erase_first _ _ _ _ Herase) as (e & Hf & Hp).
  exists e. split; [exact Hf |].
  unfold contents, set_bucket. cbn [buckets].
  exact (concat_tuples_alter _ _ _ _ [_] [] (bucket_at_lookup m i Hi) Hp).
Qed.

Lemma count_contents m : count m = length (contents m).
Proof.
  unfold count, contents.
  assert (H : forall l acc,
    fold_left (fun total b => (total + length b)%nat) l acc
    = (acc + length (concat (map tuples l)))%nat).
  { induction l as [| b l IH]; intros acc; simpl; [lia |].
    rewrite IH, length_app. unfold tuples at 2. rewrite length_map. lia. }
  now rewrite H.
Qed.

Section Contents.

Variable cfg : Config.
Variable rand : nat -> nat.
Hypothesis Hcfg : wf_config cfg.
Hypothesis Hsize : (0 < BUCKET_SIZE cfg)%nat.

Lemma in_range_lookup m i :
  wf_manager cfg m -> 0 <= i < 2 ^ BUCKET_BITS cfg ->
  (Z.to_nat i < length (buckets m))%nat.
Proof. unfold wf_manager. intros -> Hi. destruct Hcfg as (_ & Hpow). lia. Qed.

Lemma wf_manager_set_slot m i idx e :
  wf_manager cfg m -> wf_manager cfg (set_slot (tick m) i idx e).
Proof.
  unfold wf_manager. intros <-.
  apply sizes_length. now rewrite sizes_set_slot, sizes_tick.
Qed.

Lemma relocate_contents fuel : forall m bucket fp v depth b m',
  wf_manager cfg m -> 0 <= bucket < 2 ^ BUCKET_BITS cfg ->
  relocate cfg rand fuel m bucket fp v depth = Some (b, m') ->
  exists d, Permutation (d ++ contents m') ((fp, v) :: contents m) /\
            length d = (if b then 0 else 1)%nat.
Proof.
  induction fuel as [| fuel IH]; intros m bucket fp v depth b m' Hm Hb H;
    [discriminate |].
  rewrite relocate_unfold in H. cbv zeta in H.
  destruct (MAX_RELOCATIONS cfg <? depth)%nat.
  { injection H as <- <-. now exists [(fp, v)]. }
  set (A := get_alt_bucket cfg bucket fp) in *.
  assert (HA : 0 <= A < 2 ^ BUCKET_BITS cfg).
  { apply get_alt_bucket_range; [apply Hcfg | exact Hb]. }
  destruct (length (bucket_at m A) <? BUCKET_SIZE cfg)%nat eqn:Hroom.
  { injection H as <- <-. exists []. split; [| reflexivity].
    apply (contents_push_back m A (mkBucketEntry fp true v)).
    now apply in_range_lookup. }
  apply Nat.ltb_ge in Hroom.
  set (idx := (rand (rand_calls m) mod length (bucket_at m A))%nat) in *.
  set (old := nth idx (bucket_at m A) BucketEntry_default) in *.
  set (m1 := set_slot (tick m) A idx (mkBucketEntry fp true v)) in *.
  assert (Hidx : (idx < length (bucket_at m A))%nat).
  { apply Nat.mod_upper_bound. lia. }
  assert (Hswap : Permutation ((fingerprint old, value old) :: contents m1)
                              ((fp, v) :: contents m)).
  { exact (contents_set_slot (tick m) A idx (mkBucketEntry fp true v) Hidx). }
  assert (Hm1 : wf_manager cfg m1) by now apply wf_manager_set_slot.
  assert (Hnew : 0 <= get_alt_bucket cfg A (fingerprint old)
                 < 2 ^ BUCKET_BITS cfg).
  { apply get_alt_bucket_range; [apply Hcfg | exact HA]. }
  destruct (length (bucket_at m1 _) <? BUCKET_SIZE cfg)%nat.
  - injection H as <- <-. exists []. split; [| reflexivity].
    simpl. rewrite <- Hswap. apply contents_push_back.
    now apply in_range_lookup.
  - destruct (IH _ _ _ _ _ _ _ Hm1 Hnew H) as (d & Hp & Hd).
    exists d. split; [| exact Hd]. now rewrite Hp.
Qed.

Lemma add_utxo_contents fuel key v m b m' :
  wf_manager cfg m ->
  add_utxo cfg rand fuel key v m = Some (b, m') ->
  exists d,
    Permutation (d ++ contents m')
                ((snd (get_bucket_fingerprint cfg key), v) :: contents m) /\
    length d = (if b then 0 else 1)%nat.
Proof.
  intros Hm H.
  pose proof (key_bucket_range cfg Hcfg key) as Hb.
  pose proof (key_alt_bucket_range cfg Hcfg key) as Ha.
  destruct (get_bucket_fingerprint cfg key) as [bucket fp] eqn:Haddr.
  cbn [fst snd] in *.
  destruct (add_utxo_cases cfg rand fuel key v m _ bucket fp Haddr H)
    as [[Hr _] | (_ & _ & [[Hr _] | [[Hr _] | [Hr _]]])].
  - injection Hr as -> ->. now exists [(fp, v)].
  - injection Hr as -> ->. exists []. split; [| reflexivity].
    apply (contents_push_back m bucket (mkBucketEntry fp false v)).
    now apply in_range_lookup.
  - injection Hr as -> ->. exists []. split; [| reflexivity].
    apply (contents_push_back m _ (mkBucketEntry fp true v)).
    now apply in_range_lookup.
  - symmetry in Hr.
    exact (relocate_contents fuel m bucket fp v 0%nat b m' Hm Hb Hr).
Qed.

End Contents.

Lemma find_entry_matches fp sb b e :
  find (entry_matches fp sb) b = Some e -> fingerprint e = fp.
Proof.
  intros H. apply find_some in H as [_ H].
  unfold entry_matches in H. apply andb_true_iff in H as [H _].
  now apply Z.eqb_eq.
Qed.

Lemma remove_utxo_contents cfg key m :
  match get_utxo cfg key m with
  | Some v =>
      fst (remove_utxo cfg key m) = true /\
      Permutation
        ((snd (get_bucket_fingerprint cfg key), v)
           :: contents (snd (remove_utxo cfg key m)))
        (contents m)
  | None => remove_utxo cfg key m = (false, m)
  end.
Proof.
  destruct (get_utxo cfg key m) as [v |] eqn:Hget;
    [| now apply remove_utxo_no_match].
  revert Hget. unfold get_utxo, remove_utxo.
  destruct (get_bucket_fingerprint cfg key) as [bucket fp]. cbn [snd].
  destruct (erase_first fp false (bucket_at m bucket)) as [b' |] eqn:H1.
  - destruct (contents_set_bucket_erase _ _ _ _ _ H1) as (e & Hf & Hp).
    rewrite Hf. intros [= <-]. split; [reflexivity |]. cbn [snd].
    rewrite <- (find_entry_matches _ _ _ _ Hf) at 1. exact Hp.
  - apply erase_first_none_find in H1. rewrite H1.
    destruct (erase_first fp true _) as [b' |] eqn:H2.
    + destruct (contents_set_bucket_erase _ _ _ _ _ H2) as (e & Hf & Hp).
      rewrite Hf. intros [= <-]. split; [reflexivity |]. cbn [snd].
      rewrite <- (find_entry_matches _ _ _ _ Hf) at 1. exact Hp.
    + apply erase_first_none_find in H2. now rewrite H2.
Qed.

Lemma remove_utxo_count cfg key m :
  (count (snd (remove_utxo cfg key m))
   + (if fst (remove_utxo cfg key m) then 1 else 0) = count m)%nat.
Proof.
  pose proof (remove_utxo_contents cfg key m) as H.
  destruct (get_utxo cfg key m) as [v |].
  - destruct H as [-> Hp]. apply Permutation_length in Hp.
    rewrite !count_contents. simpl in Hp. lia.
  - rewrite H. simpl. lia.
Qed.

Section Counting.

Variable cfg : Config.
Variable rand : nat -> nat.
Hypothesis Hcfg : wf_config cfg.
Hypothesis Hsize : (0 < BUCKET_SIZE cfg)%nat.

Lemma add_utxo_count fuel key v m b m' :
  wf_manager cfg m ->
  add_utxo cfg rand fuel key v m = Some (b, m') ->
  count m' = (count m + (if b then 1 else 0))%nat.
Proof.
  intros Hm H.
  destruct (add_utxo_contents cfg rand Hcfg Hsize _ _ _ _ _ _ Hm H)
    as (d & Hp & Hd).
  apply Permutation_length in Hp. rewrite length_app in Hp. simpl in Hp.
  rewrite !count_contents. destruct b; lia.
Qed.

Lemma apply_op_wf_manager fuel o m b m' :
  wf_manager cfg m -> apply_op cfg rand fuel o m = Some (b, m') ->
  wf_manager cfg m'.
Proof.
  unfold wf_manager. intros Hm H. rewrite <- Hm.
  destruct o as [key v | key]; simpl in H.
  - destruct (get_bucket_fingerprint cfg key) as [bucket fp] eqn:Haddr.
    destruct (add_utxo_cases cfg rand fuel key v m _ bucket fp Haddr H)
      as [[Hr _] | (_ & _ & [[Hr _] | [[Hr _] | [Hr _]]])].
    + now injection Hr as -> ->.
    + injection Hr as -> ->. apply length_buckets_push_back.
    + injection Hr as -> ->. apply length_buckets_push_back.
    + symmetry in Hr. eapply relocate_length_buckets; eauto.
  - injection H as H.
    replace m' with (snd (remove_utxo cfg key m)) by now rewrite H.
    unfold remove_utxo.
    destruct (get_bucket_fingerprint cfg key) as [bucket fp].
    destruct (erase_first fp false _);
      [apply length_buckets_set_bucket |].
    destruct (erase_first fp true _);
      [apply length_buckets_set_bucket | reflexivity].
Qed.

Lemma run_count fuel ops : forall m bs m',
  wf_manager cfg m ->
  run cfg rand fuel ops m = Some (bs, m') ->
  (count m' + snd (tally ops bs) = count m + fst (tally ops bs))%nat.
Proof.
  induction ops as [| o ops IH]; intros m bs m' Hm Hrun; cbn [run] in Hrun.
  - injection Hrun as <- <-. simpl. lia.
  - destruct (apply_op cfg rand fuel o m) as [[b m1] |] eqn:Ho;
      [| discriminate Hrun].
    destruct (run cfg rand fuel ops m1) as [[bs1 m2] |] eqn:Hr;
      [| discriminate Hrun].
    injection Hrun as <- <-.
    pose proof (apply_op_wf_manager _ _ _ _ _ Hm Ho) as Hm1.
    specialize (IH m1 bs1 m2 Hm1 Hr).
    destruct o as [key v | key]; cbn [tally apply_op] in *;
      destruct (tally ops bs1) as [i r]; cbn [fst snd] in *.
    + apply (add_utxo_count _ _ _ _ _ _ Hm) in Ho. destruct b; simpl; lia.
    + pose proof (remove_utxo_count cfg key m) as Hc.
      injection Ho as Ho. rewrite Ho in Hc. cbn [fst snd] in Hc.
      destruct b; simpl; lia.
Qed.

End Counting.

Lemma count_within_capacity cfg m :
  within_capacity cfg m ->
  (count m <= length (buckets m) * BUCKET_SIZE cfg)%nat.
Proof.
  rewrite count_contents. unfold within_capacity, contents.
  induction 1 as [| b l Hb _ IH]; simpl; [lia |].
  rewrite length_app. unfold tuples at 1. rewrite length_map. lia.
Qed.

Lemma reachable_within_capacity cfg rand m :
  reachable cfg rand m -> within_capacity cfg m.
Proof.
  induction 1 as [| fuel key v m b m' _ IH Hadd | key m _ IH].
  - apply empty_manager_within_capacity.
  - eapply add_utxo_within_capacity; eauto.
  - now apply remove_utxo_within_capacity.
Qed.

(** ** Undoing and refusing an insert *)

Lemma erase_first_app_last fp sb b e :
  find (entry_matches fp sb) b = None -> entry_matches fp sb e = true ->
  erase_first fp sb (b ++ [e]) = Some b.
Proof.
  intros Hnone He. induction b as [| a b IH]; simpl in *.
  - now rewrite He.
  - destruct (entry_matches fp sb a); [discriminate |].
    now rewrite IH.
Qed.

Lemma set_bucket_push_back m i e :
  (Z.to_nat i < length (buckets m))%nat ->
  set_bucket (push_back m i e) i (bucket_at m i) = m.
Proof.
  intros Hi. pose proof (bucket_at_lookup m i Hi) as Hb.
  destruct m as [bs c]. unfold set_bucket, push_back. cbn [buckets rand_calls] in *.
  f_equal. apply list_eq. intros j.
  destruct (decide (Z.to_nat i = j)) as [<- | Hne].
  - rewrite !list_lookup_alter_eq, Hb. reflexivity.
  - now rewrite !list_lookup_alter_ne.
Qed.

Lemma entry_matches_own fp sb v :
  entry_matches fp sb (mkBucketEntry fp sb v) = true.
Proof.
  unfold entry_matches. cbn [fingerprint selector_bit].
  now rewrite Z.eqb_refl, eqb_reflx.
Qed.

Section DirectPlacement.

Variable cfg : Config.
Variable rand : nat -> nat.
Hypothesis Hcfg : wf_config cfg.

(** X6. [remove_utxo] undoes a direct placement: with a power-of-two bucket
    count, when [add_utxo key v] has succeeded without calling [relocate],
    [remove_utxo key] right after it returns true and gives back the table
    as it was before the insert, slot for slot. *)
Theorem remove_undoes_direct_add fuel key v m m1 :
  wf_manager cfg m ->
  enters_relocation cfg key m = false ->
  add_utxo cfg rand fuel key v m = Some (true, m1) ->
  remove_utxo cfg key m1 = (true, m).
Proof.
  intros Hm Hdirect Hadd.
  pose proof (key_bucket_in_range cfg Hcfg key m Hm) as HinB.
  pose proof (key_alt_bucket_in_range cfg Hcfg key m Hm) as HinA.
  unfold remove_utxo.
  destruct (get_bucket_fingerprint cfg key) as [bucket fp] eqn:Haddr.
  cbn [fst snd] in HinB, HinA.
  assert (Hd1 : find (entry_matches fp false) (bucket_at m bucket) = None).
  { apply existsb_false_find.
    destruct (add_utxo_cases cfg rand fuel key v m _ bucket fp Haddr Hadd)
      as [[Hr _] | (Hd1 & _)]; [discriminate | exact Hd1]. }
  destruct (enters_relocation_false cfg rand fuel key v m bucket fp Haddr Hdirect)
    as [Hr | [Hr | (Hr & _ & Hd2 & Hfull & Hroom)]];
    rewrite Hr in Hadd; [discriminate | |]; injection Hadd as <-.
  - rewrite bucket_at_push_back_same by exact HinB.
    rewrite (erase_first_app_last _ _ _ _ Hd1 (entry_matches_own fp false v)).
    f_equal. now apply set_bucket_push_back.
  - assert (Hne : Z.to_nat (get_alt_bucket cfg bucket fp) <> Z.to_nat bucket).
    { intros Heq. unfold bucket_at in Hfull, Hroom.
      rewrite Heq in Hroom. lia. }
    rewrite bucket_at_push_back_other by exact Hne.
    apply erase_first_none_find in Hd1. rewrite Hd1.
    apply existsb_false_find in Hd2.
    rewrite bucket_at_push_back_same by exact HinA.
    rewrite (erase_first_app_last _ _ _ _ Hd2 (entry_matches_own fp true v)).
    f_equal. now apply set_bucket_push_back.
Qed.

End DirectPlacement.

Lemma find_some_existsb fp sb b e :
  find (entry_matches fp sb) b = Some e ->
  existsb (entry_matches fp sb) b = true.
Proof.
  intros H. destruct (existsb (entry_matches fp sb) b) eqn:Hex; [reflexivity |].
  apply existsb_false_find in Hex. congruence.
Qed.

(** X5. [add_utxo] never overwrites: for a key for which [get_utxo] finds a
    record (its own or that of a colliding key), [add_utxo] returns false
    and leaves the table as it is, whatever the record offered and whatever
    the recursion depth available. *)
Theorem add_utxo_rejects_found cfg rand fuel key v v0 m :
  get_utxo cfg key m = Some v0 ->
  add_utxo cfg rand fuel key v m = Some (false, m).
Proof.
  unfold get_utxo, add_utxo.
  destruct (get_bucket_fingerprint cfg key) as [bucket fp].
  destruct (find (entry_matches fp false) (bucket_at m bucket)) as [e |] eqn:H1.
  { intros _. now rewrite (find_some_existsb _ _ _ _ H1). }
  destruct (find (entry_matches fp true) _) as [e |] eqn:H2; [| discriminate].
  intros _. rewrite (find_some_existsb _ _ _ _ H2).
  now destruct (existsb _ _).
Qed.

(** ** Splitting a line *)

Lemma append_cons c s t :
  String.append (String c s) t = String c (String.append s t).
Proof. reflexivity. Qed.

Lemma append_nil_l s : String.append EmptyString s = s.
Proof. reflexivity. Qed.

Lemma append_nil_r s : String.append s EmptyString = s.
Proof.
  induction s as [| c s IH]; [reflexivity |]. now rewrite append_cons, IH.
Qed.

Lemma append_assoc s1 s2 s3 :
  String.append (String.append s1 s2) s3
  = String.append s1 (String.append s2 s3).
Proof.
  induction s1 as [| c s1 IH]; [reflexivity |].
  now rewrite !append_cons, IH.
Qed.

Lemma add_char_append s c rest :
  String.append (add_char s c) rest = String.append s (String c rest).
Proof. unfold add_char. now rewrite append_assoc. Qed.

Lemma terminated_app d ts1 ts2 :
  terminated d (ts1 ++ ts2)
  = String.append (terminated d ts1) (terminated d ts2).
Proof.
  induction ts1 as [| t ts1 IH]; cbn; [reflexivity |].
  rewrite IH, append_assoc. reflexivity.
Qed.

Lemma split_step_consumed d st c :
  consumed d (split_step d st c) = add_char (consumed d st) c.
Proof.
  unfold split_step, consumed.
  destruct (is_quote c && negb (in_quotes st)); cbn [tokens token];
    [unfold add_char; now rewrite append_assoc |].
  destruct (Ascii.eqb c (current_quote st) && in_quotes st); cbn [tokens token];
    [unfold add_char; now rewrite append_assoc |].
  destruct (Ascii.eqb c d && negb (in_quotes st)) eqn:Hd; cbn [tokens token];
    [| unfold add_char; now rewrite append_assoc].
  apply andb_true_iff in Hd as [Hd _]. apply Ascii.eqb_eq in Hd. subst c.
  rewrite terminated_app, append_nil_r. cbn [terminated].
  unfold add_char. now rewrite !append_assoc.
Qed.

Lemma split_loop_consumed d line : forall st,
  consumed d (split_loop d line st) = String.append (consumed d st) line.
Proof.
  induction line as [| c line IH]; intros st; cbn [split_loop].
  - now rewrite append_nil_r.
  - now rewrite IH, split_step_consumed, add_char_append.
Qed.

Lemma concat_snoc d ts t :
  String.concat (String d EmptyString) (ts ++ [t])
  = String.append (terminated d ts) t.
Proof.
  induction ts as [| a ts IH]; [reflexivity |].
  destruct ts as [| b ts].
  - cbn. now rewrite append_assoc.
  - change (String.concat (String d EmptyString) ((a :: b :: ts) ++ [t]))
      with (String.append a (String.append (String d EmptyString)
              (String.concat (String d EmptyString) ((b :: ts) ++ [t])))).
    rewrite IH. cbn [terminated String.append].
    rewrite !append_assoc. cbn [String.append]. now rewrite !append_assoc.
Qed.

Lemma terminated_concat d ts :
  ts <> [] ->
  terminated d ts
  = String.append (String.concat (String d EmptyString) ts)
                  (String d EmptyString).
Proof.
  induction ts as [| a ts IH]; [congruence |]. intros _.
  cbn [String.concat terminated]. destruct ts as [| b ts].
  - reflexivity.
  - rewrite IH by discriminate. now rewrite !append_assoc.
Qed.

(** X16. [split_utxo_line] loses nothing but delimiters: every line is its
    tokens joined by the delimiter, or these followed by one more delimiter
    (the one case where an empty last field is dropped). *)
Theorem split_utxo_line_reassembles line d :
  let joined := String.concat (String d EmptyString) (split_utxo_line line d) in
  line = joined \/ line = String.append joined (String d EmptyString).
Proof.
  cbv zeta. unfold split_utxo_line.
  pose proof (split_loop_consumed d line
                (mkSplitter [] EmptyString false Ascii.zero)) as H.
  unfold consumed at 2 in H. cbn in H.
  destruct (split_loop _ _ _) as [ts t q cq]. unfold consumed in H.
  cbn [tokens token] in *.
  destruct t as [| c t].
  - rewrite append_nil_r in H. destruct ts as [| a ts]; [left; now rewrite <- H |].
    right. rewrite <- H. now apply terminated_concat.
  - left. now rewrite concat_snoc.
Qed.

Lemma plain_step d st c :
  plain d c = true -> in_quotes st = false ->
  split_step d st c
  = mkSplitter (tokens st) (add_char (token st) c) false (current_quote st).
Proof.
  unfold plain, split_step. intros Hc Hq.
  apply andb_true_iff in Hc as [Hnq Hnd].
  apply negb_true_iff in Hnq, Hnd. rewrite Hnq, Hnd, Hq.
  now rewrite andb_false_r.
Qed.

Lemma split_loop_plain d w rest : forall st,
  all_chars (plain d) w = true -> in_quotes st = false ->
  split_loop d (String.append w rest) st
  = split_loop d rest
      (mkSplitter (tokens st) (String.append (token st) w) false
                  (current_quote st)).
Proof.
  induction w as [| c w IH]; intros st Hw Hq; cbn [String.append split_loop].
  - rewrite append_nil_r. destruct st as [ts t q cq].
    cbn [in_quotes] in Hq. now subst q.
  - cbn [all_chars] in Hw. apply andb_true_iff in Hw as [Hc Hw].
    rewrite (plain_step d st c Hc Hq), IH by (try exact Hw; reflexivity).
    cbn [tokens token current_quote]. now rewrite add_char_append.
Qed.

Lemma delimiter_step d st :
  is_quote d = false -> in_quotes st = false ->
  split_step d st d
  = mkSplitter (tokens st ++ [token st]) EmptyString false (current_quote st).
Proof.
  unfold split_step. intros Hd Hq.
  now rewrite Hd, Hq, andb_false_r, Ascii.eqb_refl.
Qed.

Lemma split_loop_fields d fs : forall st f,
  is_quote d = false -> in_quotes st = false ->
  Forall (fun t => all_chars (plain d) t = true) (f :: fs) ->
  let st' := split_loop d (String.concat (String d EmptyString) (f :: fs)) st in
  tokens st' ++ [token st']
  = tokens st ++ String.append (token st) f :: fs.
Proof.
  induction fs as [| g fs IH]; intros st f Hd Hq Hall; cbv zeta.
  - apply List.Forall_inv in Hall.
    cbn [String.concat].
    replace (split_loop d f st)
      with (split_loop d (String.append f EmptyString) st)
      by now rewrite append_nil_r.
    now rewrite split_loop_plain.
  - pose proof (List.Forall_inv Hall) as Hf.
    apply List.Forall_inv_tail in Hall.
    change (String.concat (String d EmptyString) (f :: g :: fs))
      with (String.append f (String d
              (String.concat (String d EmptyString) (g :: fs)))).
    rewrite split_loop_plain by assumption. cbn [split_loop].
    rewrite delimiter_step by (try exact Hd; reflexivity).
    cbn [tokens token current_quote].
    specialize (IH (mkSplitter (tokens st ++ [String.append (token st) f])
                      EmptyString false (current_quote st)) g Hd eq_refl Hall).
    cbv zeta in IH. rewrite IH. cbn [tokens token String.append].
    now rewrite <- app_assoc.
Qed.

Lemma split_utxo_line_join d fs :
  is_quote d = false ->
  Forall (fun t => all_chars (plain d) t = true) fs ->
  List.last fs EmptyString <> EmptyString ->
  split_utxo_line (String.concat (String d EmptyString) fs) d = fs.
Proof.
  intros Hd Hall Hlast. destruct fs as [| f fs]; [now contradict Hlast |].
  pose proof (split_loop_fields d fs
                (mkSplitter [] EmptyString false Ascii.zero) f Hd eq_refl Hall)
    as H.
  cbv zeta in H. cbn [tokens token String.append app] in H.
  unfold split_utxo_line.
  destruct (split_loop _ _ _) as [ts t q cq]. cbn [tokens token] in *.
  destruct t as [| c t]; [| exact H].
  exfalso. apply Hlast. rewrite <- H. apply last_last.
Qed.

(** X18. A quoted field is one token: a field that opens with a quote
    character and closes with the same one, with none of it in between, is
    returned as a single token with its quotes, whatever delimiters (and
    quote characters of the other kind) it holds. *)
Theorem split_utxo_line_quoted q body d :
  is_quote q = true ->
  all_chars (fun c => negb (Ascii.eqb c q)) body = true ->
  let field := String q (String.append body (String q EmptyString)) in
  split_utxo_line field d = [field].
Proof.
  intros Hq Hbody. cbv zeta. unfold split_utxo_line. cbn [split_loop].
  assert (Hfirst : split_step d (mkSplitter [] EmptyString false Ascii.zero) q
                   = mkSplitter [] (String q EmptyString) true q).
  { unfold split_step. cbn [in_quotes tokens token]. now rewrite Hq. }
  rewrite Hfirst.
  assert (Hloop : forall w t,
    all_chars (fun c => negb (Ascii.eqb c q)) w = true ->
    split_loop d (String.append w (String q EmptyString))
      (mkSplitter [] t true q)
    = mkSplitter [] (String.append t (String.append w (String q EmptyString)))
                 false q).
  { induction w as [| c w IHw]; intros t Hw; cbn [String.append split_loop].
    - unfold split_step. cbn [in_quotes tokens token current_quote].
      now rewrite andb_false_r, Ascii.eqb_refl.
    - cbn [all_chars] in Hw. apply andb_true_iff in Hw as [Hc Hw].
      apply negb_true_iff in Hc.
      assert (Hstep : split_step d (mkSplitter [] t true q) c
                      = mkSplitter [] (add_char t c) true q).
      { unfold split_step. cbn [in_quotes tokens token current_quote].
        now rewrite Hc, !andb_false_r. }
      rewrite Hstep, IHw by exact Hw. now rewrite add_char_append. }
  rewrite Hloop by exact Hbody. cbn [tokens token String.append]. reflexivity.
Qed.

Lemma all_chars_weaken (p p' : ascii -> bool) s :
  (forall c, p c = true -> p' c = true) ->
  all_chars p s = true -> all_chars p' s = true.
Proof.
  intros Hpp. induction s as [| c s IH]; cbn [all_chars]; [reflexivity |].
  intros H. apply andb_true_iff in H as [Hc Hs].
  now rewrite (Hpp c Hc), IH.
Qed.

Lemma all_chars_append p s1 s2 :
  all_chars p s1 = true -> all_chars p s2 = true ->
  all_chars p (String.append s1 s2) = true.
Proof.
  intros H1 H2. induction s1 as [| c s1 IH]; cbn [String.append all_chars] in *;
    [exact H2 |].
  apply andb_true_iff in H1 as [Hc H1]. now rewrite Hc, IH.
Qed.

Lemma all_chars_concat p (d : ascii) fs :
  p d = true -> Forall (fun t => all_chars p t = true) fs ->
  all_chars p (String.concat (String d EmptyString) fs) = true.
Proof.
  intros Hd. induction 1 as [| f fs Hf Hfs IH]; [reflexivity |].
  destruct fs as [| g fs]; [exact Hf |].
  change (String.concat (String d EmptyString) (f :: g :: fs))
    with (String.append f (String d
            (String.concat (String d EmptyString) (g :: fs)))).
  apply all_chars_append; [exact Hf |]. cbn [all_chars]. now rewrite Hd, IH.
Qed.

Lemma split_utxo_line_plain d w :
  all_chars (plain d) w = true ->
  (length (split_utxo_line w d) <= 1)%nat.
Proof.
  intros Hw. unfold split_utxo_line.
  replace (split_loop d w (mkSplitter [] EmptyString false Ascii.zero))
    with (split_loop d (String.append w EmptyString)
            (mkSplitter [] EmptyString false Ascii.zero))
    by now rewrite append_nil_r.
  rewrite split_loop_plain by (try exact Hw; reflexivity).
  cbn [split_loop tokens token String.append].
  destruct w; cbn; lia.
Qed.

Lemma try_split_comma_join fs :
  (6 <= length fs)%nat ->
  Forall (fun t => all_chars csv_safe t = true) fs ->
  List.last fs EmptyString <> EmptyString ->
  try_split_utxo_line (String.concat ","%string fs) = fs.
Proof.
  intros Hlen Hall Hlast. unfold try_split_utxo_line.
  assert (Htab : all_chars (plain "009"%char) (String.concat ","%string fs) = true).
  { apply (all_chars_concat _ ","%char); [reflexivity |].
    eapply List.Forall_impl; [| exact Hall]. cbv beta. intros t.
    apply all_chars_weaken. intros c Hc. unfold csv_safe, plain in *.
    apply andb_true_iff in Hc as [Hc Ht]. apply andb_true_iff in Hc as [Hq _].
    now rewrite Hq, Ht. }
  pose proof (split_utxo_line_plain _ _ Htab) as Hone.
  destruct (6 <=? length (split_utxo_line _ "009"%char))%nat eqn:H6.
  { apply Nat.leb_le in H6. lia. }
  rewrite (split_utxo_line_join ","%char fs); [| reflexivity | | exact Hlast].
  - apply Nat.leb_le in Hlen. now rewrite Hlen.
  - eapply List.Forall_impl; [| exact Hall]. cbv beta. intros t.
    apply all_chars_weaken. intros c Hc. unfold csv_safe in Hc.
    now apply andb_true_iff in Hc as [Hc _].
Qed.

(** ** Statistics and loading *)

Lemma stats_entries_spec b : forall p s e,
  (fst (fst (stats_entries b (p, s, e))) + snd (fst (stats_entries b (p, s, e)))
   = p + s + length b)%nat /\
  snd (stats_entries b (p, s, e)) = e.
Proof.
  unfold stats_entries.
  induction b as [| x b IH]; intros p s e; cbn [fold_left length fst snd].
  - split; [lia | reflexivity].
  - destruct (selector_bit x).
    + destruct (IH p (S s) e) as [H1 H2]. split; [lia | exact H2].
    + destruct (IH (S p) s e) as [H1 H2]. split; [lia | exact H2].
Qed.

Lemma display_stats_spec l : forall p s e,
  let r := fold_left
    (fun '(primary, secondary, empty) bucket =>
       stats_entries bucket
         (primary, secondary,
          match bucket with [] => S empty | _ => empty end))
    l (p, s, e) in
  (fst (fst r) + snd (fst r) = p + s + length (concat l))%nat /\
  (snd r + occupied l = e + length l)%nat.
Proof.
  unfold occupied.
  induction l as [| b l IH]; intros p s e; cbv zeta;
    cbn [fold_left concat length List.filter fst snd].
  - split; lia.
  - pose proof (stats_entries_spec b p s
                  (match b with [] => S e | _ => e end)) as Hb.
    destruct (stats_entries b _) as [[p1 s1] e1].
    cbn [fst snd] in Hb. destruct Hb as [Hps He].
    specialize (IH p1 s1 e1). cbv zeta in IH. destruct IH as [IH1 IH2].
    rewrite length_app. subst e1. split; [lia |].
    destruct b as [| x b]; cbn [length Nat.eqb negb] in *; lia.
Qed.

Lemma occupied_le_concat (l : list (list BucketEntry)) :
  (occupied l <= length (concat l))%nat.
Proof.
  unfold occupied. induction l as [| b l IH]; cbn [List.filter concat length];
    [lia |].
  rewrite length_app. destruct b as [| x b]; cbn [length Nat.eqb negb]; lia.
Qed.

Lemma count_concat m : count m = length (concat (buckets m)).
Proof.
  rewrite count_contents. unfold contents.
  induction (buckets m) as [| b l IH]; cbn [map concat]; [reflexivity |].
  rewrite !length_app, IH. unfold tuples. now rewrite length_map.
Qed.

(** X15. The counters of [display_stats] add up: the primary and secondary
    entries it counts are together [count()] entries, the empty buckets it
    counts are at most the buckets there are, and there are at least as
    many entries as buckets that are not empty. *)
Theorem display_stats_consistent m :
  let '(primary, secondary, empty) := display_stats m in
  (primary + secondary = count m)%nat /\
  (empty <= length (buckets m))%nat /\
  (length (buckets m) - empty <= count m)%nat.
Proof.
  pose proof (display_stats_spec (buckets m) 0 0 0)%nat as H. cbv zeta in H.
  fold (display_stats m) in H.
  destruct (display_stats m) as [[primary secondary] empty].
  cbn [fst snd] in H. destruct H as [H1 H2].
  pose proof (occupied_le_concat (buckets m)).
  rewrite count_concat. lia.
Qed.

Section LoadingFacts.

Variable cfg : Config.
Variable rand : nat -> nat.
Variable stoull : string -> option Z.

Lemma add_utxo_total fuel key v m :
  (MAX_RELOCATIONS cfg + 1 < fuel)%nat ->
  exists b m', add_utxo cfg rand fuel key v m = Some (b, m').
Proof.
  intros Hfuel.
  destruct (get_bucket_fingerprint cfg key) as [bucket fp] eqn:Haddr.
  destruct (add_utxo_cases cfg rand fuel key v m _ bucket fp Haddr eq_refl)
    as [[Hr _] | (_ & _ & [[Hr _] | [[Hr _] | [Hr _]]])];
    try (rewrite Hr; eauto).
  apply relocate_total. lia.
Qed.

Lemma load_row_accounts fuel line st :
  (MAX_RELOCATIONS cfg + 1 < fuel)%nat ->
  exists st',
    load_row cfg rand stoull fuel line st = Some st' /\
    line_num st' = line_num st /\
    (loaded st' + skipped st' = S (loaded st + skipped st))%nat.
Proof.
  intros Hfuel. unfold load_row.
  destruct (length (try_split_utxo_line line) <? 6)%nat.
  { eexists. split; [reflexivity |]. cbn. split; [reflexivity | lia]. }
  destruct (add_utxo_total fuel (column (try_split_utxo_line line) 0)
              (parse_utxo_data stoull (try_split_utxo_line line))
              (manager st) Hfuel) as (b & m' & ->).
  destruct b; eexists; (split; [reflexivity |]); cbn;
    (split; [reflexivity | lia]).
Qed.

Lemma load_rest_accounts fuel lines : forall st,
  (MAX_RELOCATIONS cfg + 1 < fuel)%nat ->
  exists st',
    load_rest cfg rand stoull fuel lines st = Some st' /\
    line_num st' = (line_num st + length lines)%nat /\
    (loaded st' + skipped st' = loaded st + skipped st + length lines)%nat.
Proof.
  induction lines as [| line lines IH]; intros st Hfuel; cbn [load_rest length].
  - exists st. split; [reflexivity |]. lia.
  - destruct line as [| c line].
    + destruct (IH (mkLoader (manager st) (S (line_num st)) (loaded st)
                             (S (skipped st))) Hfuel) as (st' & Hl & Hn & Hc).
      cbn [manager line_num loaded skipped] in *.
      exists st'. split; [exact Hl |]. lia.
    + destruct (load_row_accounts fuel (String c line)
                  (mkLoader (manager st) (S (line_num st)) (loaded st)
                            (skipped st)) Hfuel) as (st2 & -> & Hn2 & Hc2).
      destruct (IH st2 Hfuel) as (st' & Hl & Hn & Hc).
      cbn [manager line_num loaded skipped] in *.
      exists st'. split; [exact Hl |]. lia.
Qed.

(** X20. The loader accounts for every line: with enough recursion depth
    [load_utxo_dataset] returns, the line counter is the number of lines of
    the file, and every line but a header is counted once, as loaded or as
    skipped (with nothing counted when the file cannot be opened). *)
Theorem load_utxo_dataset_accounts fuel file m :
  (MAX_RELOCATIONS cfg + 1 < fuel)%nat ->
  exists st,
    load_utxo_dataset cfg rand stoull fuel file m = Some st /\
    line_num st = file_lines file /\
    (loaded st + skipped st + header_lines file = file_lines file)%nat.
Proof.
  intros Hfuel. unfold load_utxo_dataset, file_lines, header_lines.
  destruct file as [[| line rest] |];
    try (eexists; split; [reflexivity |]; cbn; lia).
  destruct (is_header line).
  - destruct (load_rest_accounts fuel rest (mkLoader m 1 0 0) Hfuel)
      as (st & Hl & Hn & Hc).
    cbn [manager line_num loaded skipped] in *.
    exists st. split; [exact Hl |]. cbn [length]. lia.
  - destruct (load_row_accounts fuel line (mkLoader m 0 0 0) Hfuel)
      as (st1 & -> & Hn1 & Hc1).
    destruct (load_rest_accounts fuel rest
                (mkLoader (manager st1) (S (line_num st1)) (loaded st1)
                          (skipped st1)) Hfuel) as (st & Hl & Hn & Hc).
    cbn [manager line_num loaded skipped] in *.
    exists st. split; [exact Hl |]. cbn [length]. lia.
Qed.

Hypothesis Hcfg : wf_config cfg.
Hypothesis Hsize : (0 < BUCKET_SIZE cfg)%nat.

Lemma load_row_count fuel line st st' :
  wf_manager cfg (manager st) ->
  load_row cfg rand stoull fuel line st = Some st' ->
  wf_manager cfg (manager st') /\
  (count (manager st') + loaded st = count (manager st) + loaded st')%nat.
Proof.
  intros Hm. unfold load_row.
  destruct (length (try_split_utxo_line line) <? 6)%nat.
  { intros [= <-]. cbn. split; [exact Hm | lia]. }
  destruct (add_utxo cfg rand fuel _ _ (manager st)) as [[b m'] |] eqn:Hadd;
    [| discriminate].
  pose proof (add_utxo_count cfg rand Hcfg Hsize _ _ _ _ _ _ Hm Hadd) as Hc.
  pose proof (apply_op_wf_manager cfg rand fuel (Add _ _) _ _ _ Hm Hadd) as Hm'.
  destruct b; intros [= <-]; cbn [manager loaded]; split; try exact Hm'; lia.
Qed.

Lemma load_rest_count fuel lines : forall st st',
  wf_manager cfg (manager st) ->
  load_rest cfg rand stoull fuel lines st = Some st' ->
  wf_manager cfg (manager st') /\
  (count (manager st') + loaded st = count (manager st) + loaded st')%nat.
Proof.
  induction lines as [| line lines IH]; intros st st' Hm; cbn [load_rest].
  - intros [= <-]. split; [exact Hm | lia].
  - destruct line as [| c line].
    + intros H. apply IH in H; [| exact Hm]. exact H.
    + destruct (load_row _ _ _ _ _ _) as [st2 |] eqn:Hrow; [| discriminate].
      apply load_row_count in Hrow; [| exact Hm].
      cbn [manager loaded] in Hrow. destruct Hrow as [Hm2 Hc2].
      intros H. apply IH in H; [| exact Hm2]. destruct H as [Hm' Hc'].
      split; [exact Hm' | lia].
Qed.

Lemma load_utxo_dataset_grows fuel file m st :
  wf_manager cfg m ->
  load_utxo_dataset cfg rand stoull fuel file m = Some st ->
  count (manager st) = (count m + loaded st)%nat.
Proof.
  intros Hm. unfold load_utxo_dataset.
  destruct file as [[| line rest] |]; try (intros [= <-]; cbn; lia).
  destruct (is_header line).
  - intros H. apply load_rest_count in H; [| exact Hm].
    cbn [manager loaded] in H. lia.
  - destruct (load_row _ _ _ _ _ _) as [st1 |] eqn:Hrow; [| discriminate].
    apply load_row_count in Hrow; [| exact Hm].
    cbn [manager loaded] in Hrow. destruct Hrow as [Hm1 Hc1].
    intros H. apply load_rest_count in H; [| exact Hm1].
    cbn [manager loaded] in H. lia.
Qed.

End LoadingFacts.

(** ** What the manager reads of an entry *)

Lemma layout_bucket_at m1 m2 i :
  layout m1 = layout m2 ->
  map slot_key (bucket_at m1 i) = map slot_key (bucket_at m2 i).
Proof.
  unfold layout, bucket_at. intros H.
  assert (Hl : (map slot_key <$> buckets m1) !! Z.to_nat i
               = (map slot_key <$> buckets m2) !! Z.to_nat i)
    by (change (map (map slot_key) (buckets m1) !! Z.to_nat i
                = map (map slot_key) (buckets m2) !! Z.to_nat i);
        now rewrite H).
  rewrite !list_lookup_fmap in Hl.
  destruct (buckets m1 !! Z.to_nat i), (buckets m2 !! Z.to_nat i);
    simpl in *; congruence.
Qed.

Lemma existsb_slot_key fp sb b1 b2 :
  map slot_key b1 = map slot_key b2 ->
  existsb (entry_matches fp sb) b1 = existsb (entry_matches fp sb) b2.
Proof.
  revert b2. induction b1 as [| x b1 IH]; intros [| y b2] H;
    try discriminate; [reflexivity |].
  injection H as Hf Hs H. cbn [existsb]. rewrite (IH b2 H). f_equal.
  unfold entry_matches. now rewrite Hf, Hs.
Qed.

Lemma length_slot_key (b1 b2 : list BucketEntry) :
  map slot_key b1 = map slot_key b2 -> length b1 = length b2.
Proof.
  intros H. rewrite <- (length_map slot_key b1), H. apply length_map.
Qed.

Lemma layout_push_back m i e :
  layout (push_back m i e)
  = alter (fun b => b ++ [slot_key e]) (Z.to_nat i) (layout m).
Proof.
  unfold layout, push_back. cbn [buckets].
  change (map (map slot_key)) with (fmap (M := list) (map slot_key)).
  apply list_fmap_alter. apply Forall_forall. intros b _. apply map_app.
Qed.

Lemma layout_set_slot m i idx e :
  layout (set_slot m i idx e)
  = alter (fun b => <[idx := slot_key e]> b) (Z.to_nat i) (layout m).
Proof.
  unfold layout, set_slot. cbn [buckets].
  change (map (map slot_key)) with (fmap (M := list) (map slot_key)).
  apply list_fmap_alter. apply Forall_forall. intros b _.
  change (map slot_key) with (fmap (M := list) slot_key).
  apply list_fmap_insert.
Qed.

Lemma slot_key_nth idx b1 b2 :
  map slot_key b1 = map slot_key b2 ->
  slot_key (nth idx b1 BucketEntry_default)
  = slot_key (nth idx b2 BucketEntry_default).
Proof.
  intros H.
  rewrite <- !(map_nth slot_key). now rewrite H.
Qed.

Section Values.

Variable cfg : Config.
Variable rand : nat -> nat.

Lemma relocate_ignores_values fuel : forall m1 m2 bucket fp v1 v2 depth,
  layout m1 = layout m2 -> rand_calls m1 = rand_calls m2 ->
  option_map outcome (relocate cfg rand fuel m1 bucket fp v1 depth)
  = option_map outcome (relocate cfg rand fuel m2 bucket fp v2 depth).
Proof.
  induction fuel as [| fuel IH]; intros m1 m2 bucket fp v1 v2 depth Hl Hr;
    [reflexivity |].
  rewrite !relocate_unfold. cbv zeta.
  destruct (MAX_RELOCATIONS cfg <? depth)%nat.
  { cbn. unfold outcome. cbn [fst snd]. now rewrite Hl, Hr. }
  set (A := get_alt_bucket cfg bucket fp).
  pose proof (layout_bucket_at m1 m2 A Hl) as HA.
  rewrite (length_slot_key _ _ HA), Hr.
  destruct (length (bucket_at m2 A) <? BUCKET_SIZE cfg)%nat.
  { cbn. unfold outcome. cbn [fst snd].
    rewrite !layout_push_back. cbn [rand_calls push_back]. now rewrite Hl, Hr. }
  set (idx := (rand (rand_calls m2) mod length (bucket_at m2 A))%nat).
  pose proof (slot_key_nth idx _ _ HA) as Hold.
  set (old1 := nth idx (bucket_at m1 A) BucketEntry_default) in *.
  set (old2 := nth idx (bucket_at m2 A) BucketEntry_default) in *.
  unfold slot_key in Hold. injection Hold as Hf Hs.
  assert (Hl1 : layout (set_slot (tick m1) A idx (mkBucketEntry fp true v1))
                = layout (set_slot (tick m2) A idx (mkBucketEntry fp true v2))).
  { rewrite !layout_set_slot. unfold slot_key. cbn [fingerprint selector_bit].
    change (layout (tick m1)) with (layout m1).
    change (layout (tick m2)) with (layout m2). now rewrite Hl. }
  assert (Hr1 : rand_calls (set_slot (tick m1) A idx (mkBucketEntry fp true v1))
                = rand_calls (set_slot (tick m2) A idx (mkBucketEntry fp true v2)))
    by (cbn; now rewrite Hr).
  set (n1 := set_slot (tick m1) A idx (mkBucketEntry fp true v1)) in *.
  set (n2 := set_slot (tick m2) A idx (mkBucketEntry fp true v2)) in *.
  rewrite Hf.
  pose proof (layout_bucket_at n1 n2 (get_alt_bucket cfg A (fingerprint old2)) Hl1)
    as HN.
  rewrite (length_slot_key _ _ HN).
  destruct (length (bucket_at n2 _) <? BUCKET_SIZE cfg)%nat.
  { cbn. unfold outcome. cbn [fst snd].
    rewrite !layout_push_back. cbn [rand_calls push_back].
    unfold slot_key. now rewrite Hl1, Hr1, Hf, Hs. }
  now apply IH.
Qed.

Lemma add_utxo_layout fuel key v1 v2 m1 m2 :
  layout m1 = layout m2 -> rand_calls m1 = rand_calls m2 ->
  option_map outcome (add_utxo cfg rand fuel key v1 m1)
  = option_map outcome (add_utxo cfg rand fuel key v2 m2).
Proof.
  intros Hl Hr. unfold add_utxo.
  destruct (get_bucket_fingerprint cfg key) as [bucket fp].
  pose proof (layout_bucket_at m1 m2 bucket Hl) as HB.
  pose proof (layout_bucket_at m1 m2 (get_alt_bucket cfg bucket fp) Hl) as HA.
  rewrite (existsb_slot_key fp false _ _ HB), (existsb_slot_key fp true _ _ HA).
  rewrite (length_slot_key _ _ HB), (length_slot_key _ _ HA).
  destruct (existsb _ (bucket_at m2 bucket)).
  { cbn. unfold outcome. cbn [fst snd]. now rewrite Hl, Hr. }
  destruct (existsb _ (bucket_at m2 _)).
  { cbn. unfold outcome. cbn [fst snd]. now rewrite Hl, Hr. }
  destruct (length (bucket_at m2 bucket) <? BUCKET_SIZE cfg)%nat.
  { cbn. unfold outcome. cbn [fst snd].
    rewrite !layout_push_back. cbn [rand_calls push_back]. now rewrite Hl, Hr. }
  destruct (length (bucket_at m2 _) <? BUCKET_SIZE cfg)%nat.
  { cbn. unfold outcome. cbn [fst snd].
    rewrite !layout_push_back. cbn [rand_calls push_back]. now rewrite Hl, Hr. }
  now apply relocate_ignores_values.
Qed.

Variables stoull1 stoull2 : string -> option Z.

Lemma load_row_ignores_numbers fuel line st1 st2 :
  loader_outcome st1 = loader_outcome st2 ->
  option_map loader_outcome (load_row cfg rand stoull1 fuel line st1)
  = option_map loader_outcome (load_row cfg rand stoull2 fuel line st2).
Proof.
  unfold loader_outcome. intros [= Hl Hr Hn Hld Hsk]. unfold load_row.
  destruct (length (try_split_utxo_line line) <? 6)%nat.
  { cbn. unfold loader_outcome. cbn. now rewrite Hl, Hr, Hn, Hld, Hsk. }
  pose proof (add_utxo_layout fuel (column (try_split_utxo_line line) 0)
                (parse_utxo_data stoull1 (try_split_utxo_line line))
                (parse_utxo_data stoull2 (try_split_utxo_line line))
                (manager st1) (manager st2) Hl Hr) as Hadd.
  destruct (add_utxo cfg rand fuel _ _ (manager st1)) as [[b1 n1] |],
           (add_utxo cfg rand fuel _ _ (manager st2)) as [[b2 n2] |];
    cbn in Hadd; try discriminate Hadd; [| reflexivity].
  unfold outcome in Hadd. cbn [fst snd] in Hadd.
  injection Hadd as -> Hl' Hr'.
  destruct b2; cbn; unfold loader_outcome; cbn;
    now rewrite Hl', Hr', Hn, Hld, Hsk.
Qed.

Lemma load_rest_ignores_numbers fuel lines : forall st1 st2,
  loader_outcome st1 = loader_outcome st2 ->
  option_map loader_outcome (load_rest cfg rand stoull1 fuel lines st1)
  = option_map loader_outcome (load_rest cfg rand stoull2 fuel lines st2).
Proof.
  induction lines as [| line lines IH]; intros st1 st2 H; cbn [load_rest].
  - cbn. now rewrite H.
  - assert (H' := H). unfold loader_outcome in H'.
    injection H' as Hl Hr Hn Hld Hsk.
    destruct line as [| c line].
    + apply IH. unfold loader_outcome. cbn. now rewrite Hl, Hr, Hn, Hld, Hsk.
    + assert (Hst : loader_outcome
                      (mkLoader (manager st1) (S (line_num st1)) (loaded st1)
                                (skipped st1))
                    = loader_outcome
                        (mkLoader (manager st2) (S (line_num st2)) (loaded st2)
                                  (skipped st2))).
      { unfold loader_outcome. cbn. now rewrite Hl, Hr, Hn, Hld, Hsk. }
      pose proof (load_row_ignores_numbers fuel (String c line) _ _ Hst)
        as Hrow.
      destruct (load_row cfg rand stoull1 _ _ _) as [r1 |],
               (load_row cfg rand stoull2 _ _ _) as [r2 |];
        cbn [option_map] in Hrow; try discriminate Hrow; [| reflexivity].
      apply IH. congruence.
Qed.

(** X22. A malformed number never makes the loader skip a row: the counters
    it reports and the fingerprints and selector bits it leaves in the
    table are the same for every behaviour of [stoull], since
    [parse_utxo_data] catches what [stoull] throws and [add_utxo] does not
    read the record. *)
Theorem load_utxo_dataset_ignores_numbers fuel file m :
  option_map loader_outcome (load_utxo_dataset cfg rand stoull1 fuel file m)
  = option_map loader_outcome (load_utxo_dataset cfg rand stoull2 fuel file m).
Proof.
  unfold load_utxo_dataset. destruct file as [[| line rest] |]; try reflexivity.
  destruct (is_header line).
  - now apply load_rest_ignores_numbers.
  - pose proof (load_row_ignores_numbers fuel line (mkLoader m 0 0 0)
                  (mkLoader m 0 0 0) eq_refl) as Hrow.
    destruct (load_row cfg rand stoull1 _ _ _) as [r1 |],
             (load_row cfg rand stoull2 _ _ _) as [r2 |];
      cbn [option_map] in Hrow; try discriminate Hrow; [| reflexivity].
    unfold loader_outcome in Hrow. injection Hrow as Hl Hr Hn Hld Hsk.
    apply load_rest_ignores_numbers. unfold loader_outcome. cbn.
    now rewrite Hl, Hr, Hn, Hld, Hsk.
Qed.

End Values.

(** ** Removal reads fingerprints and selector bits only *)

Lemma erase_first_slot_key fp sb b1 : forall b2,
  map slot_key b1 = map slot_key b2 ->
  option_map (map slot_key) (erase_first fp sb b1)
  = option_map (map slot_key) (erase_first fp sb b2).
Proof.
  induction b1 as [| x b1 IH]; intros [| y b2] H; try discriminate;
    [reflexivity |].
  injection H as Hf Hs H. cbn [erase_first].
  replace (entry_matches fp sb y) with (entry_matches fp sb x)
    by (unfold entry_matches; now rewrite Hf, Hs).
  destruct (entry_matches fp sb x); [cbn; now rewrite H |].
  specialize (IH b2 H).
  destruct (erase_first fp sb b1), (erase_first fp sb b2); cbn in *;
    try discriminate IH; [| reflexivity].
  injection IH as IH. unfold slot_key at 1 3. now rewrite Hf, Hs, IH.
Qed.

Lemma layout_set_bucket m i b :
  layout (set_bucket m i b)
  = alter (fun _ => map slot_key b) (Z.to_nat i) (layout m).
Proof.
  unfold layout, set_bucket. cbn [buckets].
  change (map (map slot_key)) with (fmap (M := list) (map slot_key)).
  apply list_fmap_alter. apply Forall_forall. intros ? _. reflexivity.
Qed.

Lemma remove_utxo_layout cfg key m1 m2 :
  layout m1 = layout m2 -> rand_calls m1 = rand_calls m2 ->
  outcome (remove_utxo cfg key m1) = outcome (remove_utxo cfg key m2).
Proof.
  intros Hl Hr. unfold remove_utxo.
  destruct (get_bucket_fingerprint cfg key) as [bucket fp].
  pose proof (erase_first_slot_key fp false _ _
                (layout_bucket_at m1 m2 bucket Hl)) as HB.
  pose proof (erase_first_slot_key fp true _ _
                (layout_bucket_at m1 m2 (get_alt_bucket cfg bucket fp) Hl))
    as HA.
  destruct (erase_first fp false (bucket_at m1 bucket)) as [b1 |],
           (erase_first fp false (bucket_at m2 bucket)) as [b2 |];
    cbn [option_map] in HB; try discriminate HB.
  { injection HB as HB. unfold outcome. cbn [fst snd].
    rewrite !layout_set_bucket. cbn [rand_calls set_bucket].
    now rewrite Hl, Hr, HB. }
  destruct (erase_first fp true (bucket_at m1 _)) as [b1 |],
           (erase_first fp true (bucket_at m2 _)) as [b2 |];
    cbn [option_map] in HA; try discriminate HA.
  { injection HA as HA. unfold outcome. cbn [fst snd].
    rewrite !layout_set_bucket. cbn [rand_calls set_bucket].
    now rewrite Hl, Hr, HA. }
  unfold outcome. cbn [fst snd]. now rewrite Hl, Hr.
Qed.

Lemma apply_op_layout cfg rand fuel o1 o2 m1 m2 :
  same_call o1 o2 = true ->
  layout m1 = layout m2 -> rand_calls m1 = rand_calls m2 ->
  option_map outcome (apply_op cfg rand fuel o1 m1)
  = option_map outcome (apply_op cfg rand fuel o2 m2).
Proof.
  intros Hsame Hl Hr.
  destruct o1 as [k1 v1 | k1], o2 as [k2 v2 | k2]; cbn [same_call] in Hsame;
    try discriminate Hsame; apply String.eqb_eq in Hsame; subst k2;
    cbn [apply_op option_map].
  - now apply add_utxo_layout.
  - f_equal. now apply remove_utxo_layout.
Qed.

(** X9. The manager never reads a record: two sequences of calls of the same
    kinds on the same keys, started on tables with the same fingerprints and
    selector bits in the same slots and the same number of [rand()] calls
    made, return the same results and leave tables with the same
    fingerprints and selector bits in the same slots, whatever records the
    inserts carry and the tables hold (and both run out of recursion depth
    or neither does). *)
Theorem run_ignores_values cfg rand fuel ops1 : forall ops2 m1 m2,
  Forall2 (fun o1 o2 => same_call o1 o2 = true) ops1 ops2 ->
  layout m1 = layout m2 -> rand_calls m1 = rand_calls m2 ->
  option_map run_outcome (run cfg rand fuel ops1 m1)
  = option_map run_outcome (run cfg rand fuel ops2 m2).
Proof.
  induction ops1 as [| o1 ops1 IH]; intros ops2 m1 m2 Hops Hl Hr.
  - apply Forall2_nil_inv_l in Hops. subst ops2. cbn.
    unfold run_outcome. cbn [fst snd]. now rewrite Hl, Hr.
  - apply Forall2_cons_inv_l in Hops as (o2 & ops2' & Ho & Hops & ->).
    cbn [run].
    pose proof (apply_op_layout cfg rand fuel o1 o2 m1 m2 Ho Hl Hr) as Hop.
    destruct (apply_op cfg rand fuel o1 m1) as [[b1 n1] |],
             (apply_op cfg rand fuel o2 m2) as [[b2 n2] |];
      cbn [option_map] in Hop; try discriminate Hop; [| reflexivity].
    unfold outcome in Hop. cbn [fst snd] in Hop. injection Hop as -> Hl' Hr'.
    specialize (IH ops2' n1 n2 Hops Hl' Hr').
    destruct (run cfg rand fuel ops1 n1) as [[bs1 k1] |],
             (run cfg rand fuel ops2' n2) as [[bs2 k2] |];
      cbn [option_map] in IH; try discriminate IH; [| reflexivity].
    unfold run_outcome in IH. cbn [fst snd] in IH. injection IH as -> Hl'' Hr''.
    cbn. unfold run_outcome. cbn [fst snd]. now rewrite Hl'', Hr''.
Qed.

(** ** The exact map *)

Lemma mempool_add_all rows : forall (mp : gmap string UTXOValue) key,
  BitcoinCoreMempool.get_utxo key (snd (BitcoinCoreMempool.add_all rows mp))
  = match mp !! key with
    | Some v => Some v
    | None => first_row key rows
    end /\
  BitcoinCoreMempool.count (snd (BitcoinCoreMempool.add_all rows mp))
  = (BitcoinCoreMempool.count mp
     + accepted (fst (BitcoinCoreMempool.add_all rows mp)))%nat.
Proof.
  unfold BitcoinCoreMempool.get_utxo, BitcoinCoreMempool.count, accepted.
  induction rows as [| [k v] rows IH]; intros mp key;
    cbn [BitcoinCoreMempool.add_all first_row].
  - cbn. split; [now destruct (mp !! key) | lia].
  - unfold BitcoinCoreMempool.add_utxo.
    destruct (mp !! k) as [v0 |] eqn:Hk.
    + specialize (IH mp key).
      destruct (BitcoinCoreMempool.add_all rows mp) as [bs mp'].
      cbn [fst snd List.filter] in *. destruct IH as [IH1 IH2].
      split; [| exact IH2]. rewrite IH1.
      destruct (String.eqb_spec k key) as [-> | Hne]; [now rewrite Hk |].
      reflexivity.
    + specialize (IH (<[k := v]> mp) key).
      destruct (BitcoinCoreMempool.add_all rows (<[k := v]> mp)) as [bs mp'].
      cbn [fst snd List.filter length] in *. destruct IH as [IH1 IH2].
      split.
      * rewrite IH1. destruct (String.eqb_spec k key) as [-> | Hne].
        -- now rewrite lookup_insert_eq, Hk.
        -- now rewrite lookup_insert_ne.
      * rewrite IH2, map_size_insert_None by exact Hk. lia.
Qed.

(** X23. The map rst2.cpp compares against is exact: after any sequence of
    [add_utxo] calls on the empty map, [get_utxo key] returns the record of
    the first call made with that very key and nothing when there was none,
    and [count()] is the number of calls that returned true. *)
Theorem mempool_exact rows key :
  let '(bs, utxo_map) := BitcoinCoreMempool.add_all rows ∅ in
  BitcoinCoreMempool.get_utxo key utxo_map = first_row key rows /\
  BitcoinCoreMempool.count utxo_map = accepted bs.
Proof.
  pose proof (mempool_add_all rows ∅ key) as [H1 H2].
  destruct (BitcoinCoreMempool.add_all rows ∅) as [bs mp].
  cbn [fst snd] in *. rewrite lookup_empty in H1.
  unfold BitcoinCoreMempool.count in H2 at 2. rewrite map_size_empty in H2.
  split; [exact H1 | exact H2].
Qed.

(** ** Conservation, ranges and round trips *)

(** A walk that fails has made every eviction its depth allows. *)
Lemma relocate_false_evictions cfg rand fuel : forall m bucket fp v depth m',
  (depth <= MAX_RELOCATIONS cfg + 1)%nat ->
  relocate cfg rand fuel m bucket fp v depth = Some (false, m') ->
  rand_calls m' = (rand_calls m + (MAX_RELOCATIONS cfg + 1 - depth))%nat.
Proof.
  induction fuel as [| fuel IH]; intros m bucket fp v depth m' Hd H;
    [discriminate |].
  rewrite relocate_unfold in H. cbv zeta in H.
  destruct (MAX_RELOCATIONS cfg <? depth)%nat eqn:Hdepth.
  { injection H as <-. apply Nat.ltb_lt in Hdepth. lia. }
  apply Nat.ltb_ge in Hdepth.
  destruct (_ <? BUCKET_SIZE cfg)%nat; [discriminate H |].
  destruct (_ <? BUCKET_SIZE cfg)%nat; [discriminate H |].
  apply IH in H; [| lia]. rewrite H. simpl. lia.
Qed.

(** The duplicate checks of [add_utxo] are the two searches of [get_utxo]. *)
Lemma get_utxo_none_checks cfg key m :
  get_utxo cfg key m = None <->
  existsb (entry_matches (snd (get_bucket_fingerprint cfg key)) false)
    (bucket_at m (fst (get_bucket_fingerprint cfg key))) = false /\
  existsb (entry_matches (snd (get_bucket_fingerprint cfg key)) true)
    (bucket_at m (get_alt_bucket cfg (fst (get_bucket_fingerprint cfg key))
                    (snd (get_bucket_fingerprint cfg key)))) = false.
Proof.
  unfold get_utxo.
  destruct (get_bucket_fingerprint cfg key) as [bucket fp]. cbn [fst snd].
  rewrite !existsb_false_find.
  destruct (find (entry_matches fp false) _);
    [split; [discriminate | intros [H _]; discriminate H] |].
  destruct (find (entry_matches fp true) _);
    [split; [discriminate | intros [_ H]; discriminate H] |].
  split; auto.
Qed.

Section Tuples.

Variable cfg : Config.
Variable rand : nat -> nat.
Hypothesis Hcfg : wf_config cfg.
Hypothesis Hsize : (0 < BUCKET_SIZE cfg)%nat.

(** X1. An insert never loses more than one record.  With a power-of-two
    bucket count, BUCKET_SIZE > 0 and more than MAX_RELOCATIONS + 1 units of
    recursion depth, [add_utxo key v] on a reachable table returns.  When it
    returns true the table afterwards holds exactly the (fingerprint,
    record) pairs it held before plus the new pair, however many entries
    the walk has moved.  When it returns false, either [get_utxo key] found
    a record and the table is untouched (only the new pair is missing), or
    [get_utxo key] found none, the walk made MAX_RELOCATIONS + 1 evictions
    and the table holds all of these pairs but one: the pair the walk had in
    hand when it ran out of depth, which is the new pair or one stored
    before. *)
Theorem add_utxo_keeps_tuples fuel key v m :
  reachable cfg rand m ->
  (MAX_RELOCATIONS cfg + 1 < fuel)%nat ->
  exists b m',
    add_utxo cfg rand fuel key v m = Some (b, m') /\
    let t := (snd (get_bucket_fingerprint cfg key), v) in
    if b then Permutation (contents m') (t :: contents m)
    else
      (get_utxo cfg key m <> None /\ m' = m) \/
      (get_utxo cfg key m = None /\
       rand_calls m' = (rand_calls m + (MAX_RELOCATIONS cfg + 1))%nat /\
       exists d, In d (t :: contents m) /\
                 Permutation (d :: contents m') (t :: contents m)).
Proof.
  intros Hreach Hfuel.
  destruct (add_utxo_total cfg rand fuel key v m Hfuel) as (b & m' & Hadd).
  exists b, m'. split; [exact Hadd |]. cbv zeta.
  destruct (add_utxo_contents cfg rand Hcfg Hsize fuel key v m b m'
              (reachable_wf_manager cfg rand m Hreach) Hadd) as (d & Hp & Hd).
  destruct b.
  - destruct d; [exact Hp | discriminate Hd].
  - destruct d as [| x [| y d]]; try discriminate Hd.
    change ([x] ++ contents m') with (x :: contents m') in Hp.
    pose proof (get_utxo_none_checks cfg key m) as Hnone.
    destruct (get_bucket_fingerprint cfg key) as [bucket fp] eqn:Haddr.
    cbn [fst snd] in *.
    destruct (add_utxo_cases cfg rand fuel key v m _ bucket fp Haddr Hadd)
      as [[Hr Hdup] | (H1 & H2 & [[Hr _] | [[Hr _] | [Hr _]]])];
      try discriminate Hr.
    + left. split; [| congruence].
      intros Hn. apply Hnone in Hn as [Hn1 Hn2].
      destruct Hdup as [Hdup | Hdup]; congruence.
    + right. split; [apply Hnone; now split |]. split.
      * symmetry in Hr. apply relocate_false_evictions in Hr; [| lia].
        rewrite Hr. lia.
      * exists x. split; [| exact Hp].
        apply (Permutation_in x Hp). now left.
Qed.

Lemma run_total fuel ops : forall m,
  (MAX_RELOCATIONS cfg + 1 < fuel)%nat ->
  exists bs m', run cfg rand fuel ops m = Some (bs, m') /\
                length bs = length ops.
Proof.
  induction ops as [| o ops IH]; intros m Hfuel; cbn [run].
  - exists [], m. split; reflexivity.
  - assert (Ho : exists b m1, apply_op cfg rand fuel o m = Some (b, m1)).
    { destruct o as [key v | key]; cbn [apply_op].
      - now apply add_utxo_total.
      - destruct (remove_utxo cfg key m) as [b m1]. eauto. }
    destruct Ho as (b & m1 & ->).
    destruct (IH m1 Hfuel) as (bs & m' & -> & Hlen).
    exists (b :: bs), m'. split; [reflexivity |]. cbn. now rewrite Hlen.
Qed.

(** X3. [count()] is the number of successful inserts less the number of
    successful removes: with a power-of-two bucket count, BUCKET_SIZE > 0
    and enough recursion depth, every sequence of [add_utxo] and
    [remove_utxo] calls on a reachable table returns one result per call,
    and [count()] afterwards is [count()] before plus the number of inserts
    that returned true minus the number of removes that returned true. *)
Theorem run_conserves_count fuel ops m :
  reachable cfg rand m ->
  (MAX_RELOCATIONS cfg + 1 < fuel)%nat ->
  exists bs m',
    run cfg rand fuel ops m = Some (bs, m') /\
    length bs = length ops /\
    (count m' + snd (tally ops bs) = count m + fst (tally ops bs))%nat.
Proof.
  intros Hreach Hfuel.
  destruct (run_total fuel ops m Hfuel) as (bs & m' & Hrun & Hlen).
  exists bs, m'. split; [exact Hrun |]. split; [exact Hlen |].
  apply (run_count cfg rand Hcfg Hsize fuel ops m bs m'); [| exact Hrun].
  now apply (reachable_wf_manager cfg rand).
Qed.

(** X8. Stored fingerprints fit their width: with a power-of-two bucket
    count, BUCKET_SIZE > 0 and FINGERPRINT_BITS >= 0, every entry of a
    reachable table has a fingerprint in [0, 2^FINGERPRINT_BITS). *)
Theorem stored_fingerprints_in_range m :
  0 <= FINGERPRINT_BITS cfg ->
  reachable cfg rand m ->
  Forall (fun t => 0 <= fst t < 2 ^ FINGERPRINT_BITS cfg) (contents m).
Proof.
  intros Hbits.
  induction 1 as [| fuel key v m b m' Hreach IH Hadd | key m Hreach IH].
  - unfold contents, empty_manager. cbn [buckets].
    induction (NUM_BUCKETS cfg) as [| n IHn]; cbn; [constructor | exact IHn].
  - destruct (add_utxo_contents cfg rand Hcfg Hsize fuel key v m b m'
                (reachable_wf_manager cfg rand m Hreach) Hadd)
      as (d & Hp & _).
    assert (Hall : Forall (fun t => 0 <= fst t < 2 ^ FINGERPRINT_BITS cfg)
                     ((snd (get_bucket_fingerprint cfg key), v) :: contents m)).
    { apply List.Forall_cons; [| exact IH]. cbn [fst].
      destruct Hcfg as (Hb & _).
      apply (get_bucket_fingerprint_range cfg key Hb Hbits). }
    rewrite <- Hp in Hall. apply Forall_app in Hall. apply Hall.
  - pose proof (remove_utxo_contents cfg key m) as H.
    destruct (get_utxo cfg key m) as [v |].
    + destruct H as [_ Hp]. rewrite <- Hp in IH.
      now apply List.Forall_inv_tail in IH.
    + now rewrite H.
Qed.

End Tuples.

(** X2. [remove_utxo] succeeds exactly when [get_utxo] finds a record, and
    then it erases the very entry lookup returns: the table afterwards holds
    the pairs it held before less the pair of the key's fingerprint and the
    record found, and [count()] is one less; otherwise it returns false and
    leaves the table as it is. *)
Theorem remove_utxo_takes_found cfg key m :
  match get_utxo cfg key m with
  | Some v =>
      fst (remove_utxo cfg key m) = true /\
      Permutation
        ((snd (get_bucket_fingerprint cfg key), v)
           :: contents (snd (remove_utxo cfg key m)))
        (contents m) /\
      S (count (snd (remove_utxo cfg key m))) = count m
  | None => remove_utxo cfg key m = (false, m)
  end.
Proof.
  pose proof (remove_utxo_contents cfg key m) as H.
  pose proof (remove_utxo_count cfg key m) as Hc.
  destruct (get_utxo cfg key m) as [v |]; [| exact H].
  destruct H as [Hb Hp]. rewrite Hb in Hc.
  split; [exact Hb |]. split; [exact Hp | lia].
Qed.

(** X4. The load factor never exceeds one: in every reachable table
    [count()] is at most NUM_BUCKETS * BUCKET_SIZE. *)
Theorem count_bounded_by_capacity cfg rand m :
  reachable cfg rand m ->
  (count m <= NUM_BUCKETS cfg * BUCKET_SIZE cfg)%nat.
Proof.
  intros Hreach.
  rewrite <- (reachable_wf_manager cfg rand m Hreach).
  apply count_within_capacity. now apply (reachable_within_capacity cfg rand).
Qed.

Lemma In_bucket_at m i e :
  In e (bucket_at m i) -> In (bucket_at m i) (buckets m).
Proof.
  unfold bucket_at. intros He.
  destruct (buckets m !! Z.to_nat i) as [b |] eqn:Hb; [| destruct He].
  apply list_elem_of_In. eapply list_elem_of_lookup_2. exact Hb.
Qed.

(** X7. Lookup returns stored records only: when [get_utxo key] returns a
    record, the table holds that record in an entry with the key's
    fingerprint. *)
Theorem get_utxo_returns_stored cfg key m v :
  get_utxo cfg key m = Some v ->
  In (snd (get_bucket_fingerprint cfg key), v) (contents m).
Proof.
  unfold get_utxo.
  destruct (get_bucket_fingerprint cfg key) as [bucket fp]. cbn [snd].
  assert (Hin : forall sb i e,
    find (entry_matches fp sb) (bucket_at m i) = Some e ->
    In (fp, value e) (contents m)).
  { intros sb i e Hf. rewrite <- (find_entry_matches fp sb _ e Hf).
    apply find_some in Hf as [He _].
    unfold contents. apply in_concat. exists (tuples (bucket_at m i)). split.
    - apply in_map. now apply (In_bucket_at m i e).
    - unfold tuples. now apply (in_map (fun e => (fingerprint e, value e))). }
  destruct (find (entry_matches fp false) _) as [e |] eqn:H1.
  { intros [= <-]. now apply (Hin false bucket). }
  destruct (find (entry_matches fp true) _) as [e |] eqn:H2; [| discriminate].
  intros [= <-]. now apply (Hin true (get_alt_bucket cfg bucket fp)).
Qed.

(** X10. From one bucket, different fingerprints lead to different alternate
    buckets: when FINGERPRINT_BITS <= BUCKET_BITS <= 30 (the widths for which
    the mask [(1 << BUCKET_BITS) - 1] of the source is a defined [int]
    expression), for fingerprints f1 <> f2 in [0, 2^FINGERPRINT_BITS) the
    alternate buckets of b under f1 and under f2 differ (the multiplier
    0xCC9E2D51 is odd). *)
Theorem get_alt_bucket_fingerprint_inj cfg b f1 f2 :
  FINGERPRINT_BITS cfg <= BUCKET_BITS cfg <= 30 ->
  0 <= f1 < 2 ^ FINGERPRINT_BITS cfg ->
  0 <= f2 < 2 ^ FINGERPRINT_BITS cfg ->
  f1 <> f2 ->
  get_alt_bucket cfg b f1 <> get_alt_bucket cfg b f2.
Proof.
  intros Hbits H1 H2 Hne Halt. apply Hne.
  apply (alt_bucket_fingerprint_eq cfg b f1 f2); [lia | exact H1 | exact H2 |].
  exact Halt.
Qed.

(** X14. With a power-of-two bucket count the index checks of rst2.cpp never
    fire: its [add_utxo] and [get_utxo] return what the unchecked ones of
    the other two programs return, on every key, record and table. *)
Theorem rst2_guards_never_fire cfg rand fuel key v m :
  wf_config cfg ->
  Rst2.add_utxo cfg rand fuel key v m = add_utxo cfg rand fuel key v m /\
  Rst2.get_utxo cfg key m = get_utxo cfg key m.
Proof.
  intros Hcfg. split.
  - now apply add_utxo_unguarded.
  - now apply get_utxo_unguarded.
Qed.

(** X17. Joining and splitting are inverse on plain fields, up to an empty
    last field: for a delimiter that is not a quote character and one or
    more fields that hold neither a quote nor the delimiter,
    [split_utxo_line] of the fields joined by the delimiter returns the
    fields (empty fields in the middle included), without the last one when
    it is empty. *)
Theorem split_utxo_line_fields d fs :
  is_quote d = false ->
  Forall (fun t => all_chars (plain d) t = true) fs ->
  fs <> [] ->
  split_utxo_line (String.concat (String d EmptyString) fs) d
  = match List.last fs EmptyString with
    | EmptyString => List.removelast fs
    | _ => fs
    end.
Proof.
  intros Hd Hall Hne. destruct fs as [| f fs]; [now contradict Hne |].
  pose proof (split_loop_fields d fs
                (mkSplitter [] EmptyString false Ascii.zero) f Hd eq_refl Hall)
    as H.
  cbv zeta in H. cbn [tokens token String.append app] in H.
  unfold split_utxo_line.
  destruct (split_loop _ _ _) as [ts t q cq]. cbn [tokens token] in *.
  rewrite <- H, last_last. destruct t as [| c t]; [| reflexivity].
  symmetry. apply removelast_last.
Qed.

(** X19. A comma-separated row is read back column by column: for six or
    more fields without quote, comma or tab, the last one not empty,
    [try_split_utxo_line] of the fields joined by commas returns the fields,
    and when [stoull] accepts the third and the fourth, [parse_utxo_data]
    returns the record made of the second (coinbase when it is the string
    1), the two numbers, the fifth and the sixth. *)
Theorem csv_row_round_trip stoull key cb h a scr addr more hv av :
  let fs := key :: cb :: h :: a :: scr :: addr :: more in
  Forall (fun t => all_chars csv_safe t = true) fs ->
  List.last fs EmptyString <> EmptyString ->
  stoull h = Some hv -> stoull a = Some av ->
  try_split_utxo_line (String.concat ","%string fs) = fs /\
  parse_utxo_data stoull (try_split_utxo_line (String.concat ","%string fs))
  = mkUTXOValue (String.eqb cb "1") hv av scr addr.
Proof.
  intros fs Hall Hlast Hh Ha.
  assert (Hsplit : try_split_utxo_line (String.concat ","%string fs) = fs).
  { apply try_split_comma_join; [| exact Hall | exact Hlast].
    subst fs. cbn [length]. lia. }
  split; [exact Hsplit |]. rewrite Hsplit.
  unfold parse_utxo_data, column. subst fs. cbn [length nth].
  replace (S (S (S (S (S (S (length more)))))) <? 6)%nat with false
    by (symmetry; apply Nat.ltb_ge; lia).
  now rewrite Hh, Ha.
Qed.

Section LoadingReachable.

Variable cfg : Config.
Variable rand : nat -> nat.
Variable stoull : string -> option Z.

Lemma load_row_reachable fuel line st st' :
  reachable cfg rand (manager st) ->
  load_row cfg rand stoull fuel line st = Some st' ->
  reachable cfg rand (manager st').
Proof.
  intros Hm. unfold load_row.
  destruct (length (try_split_utxo_line line) <? 6)%nat.
  { now intros [= <-]. }
  destruct (add_utxo cfg rand fuel _ _ (manager st)) as [[b m'] |] eqn:Hadd;
    [| discriminate].
  pose proof (reachable_add cfg rand _ _ _ _ _ _ Hm Hadd) as Hm'.
  destruct b; now intros [= <-].
Qed.

Lemma load_rest_reachable fuel lines : forall st st',
  reachable cfg rand (manager st) ->
  load_rest cfg rand stoull fuel lines st = Some st' ->
  reachable cfg rand (manager st').
Proof.
  induction lines as [| line lines IH]; intros st st' Hm; cbn [load_rest].
  - now intros [= <-].
  - destruct line as [| c line].
    + apply IH. exact Hm.
    + destruct (load_row _ _ _ _ _ _) as [st2 |] eqn:Hrow; [| discriminate].
      apply load_row_reachable in Hrow; [| exact Hm]. now apply IH.
Qed.

Lemma load_utxo_dataset_reachable fuel file m st :
  reachable cfg rand m ->
  load_utxo_dataset cfg rand stoull fuel file m = Some st ->
  reachable cfg rand (manager st).
Proof.
  intros Hm. unfold load_utxo_dataset.
  destruct file as [[| line rest] |]; try (now intros [= <-]).
  destruct (is_header line).
  - apply load_rest_reachable. exact Hm.
  - destruct (load_row _ _ _ _ _ _) as [st1 |] eqn:Hrow; [| discriminate].
    apply load_row_reachable in Hrow; [| exact Hm].
    apply load_rest_reachable. exact Hrow.
Qed.

End LoadingReachable.

(** X21. What the loader reports as loaded is what the table has gained:
    with a power-of-two bucket count and BUCKET_SIZE > 0, after
    [load_utxo_dataset] on a reachable table [count()] is [count()] before
    plus the loaded counter, and at most NUM_BUCKETS * BUCKET_SIZE. *)
Theorem load_utxo_dataset_count cfg rand stoull fuel file m :
  wf_config cfg -> (0 < BUCKET_SIZE cfg)%nat -> reachable cfg rand m ->
  match load_utxo_dataset cfg rand stoull fuel file m with
  | Some st =>
      count (manager st) = (count m + loaded st)%nat /\
      (count (manager st) <= NUM_BUCKETS cfg * BUCKET_SIZE cfg)%nat
  | None => True
  end.
Proof.
  intros Hcfg Hsize Hreach.
  destruct (load_utxo_dataset cfg rand stoull fuel file m) as [st |] eqn:Hload;
    [| exact I].
  split.
  - apply (load_utxo_dataset_grows cfg rand stoull Hcfg Hsize fuel file m st);
      [| exact Hload].
    now apply (reachable_wf_manager cfg rand).
  - pose proof (load_utxo_dataset_reachable cfg rand stoull fuel file m st
                  Hreach Hload) as Hst.
    rewrite <- (reachable_wf_manager cfg rand _ Hst).
    apply count_within_capacity. now apply (reachable_within_capacity cfg rand).
Qed.

(** ** The walk stays in one bucket *)

(** The recursive call of [relocate] is made for the evicted entry from the
    bucket it is sent to, and the alternate of that bucket under its
    fingerprint is the bucket it was evicted from: every eviction of one
    walk is made in the bucket of the first one. *)
Lemma relocate_other_buckets cfg rand fuel : forall m bucket fp v depth b m',
  relocate cfg rand fuel m bucket fp v depth = Some (b, m') ->
  forall j, Z.to_nat j <> Z.to_nat (get_alt_bucket cfg bucket fp) ->
  exists suffix,
    bucket_at m' j = bucket_at m j ++ suffix /\ (length suffix <= 1)%nat.
Proof.
  induction fuel as [| fuel IH]; intros m bucket fp v depth b m' H j Hj;
    [discriminate H |].
  rewrite relocate_unfold in H. cbv zeta in H.
  assert (Hpush : forall n i e,
    bucket_at n j = bucket_at m j ->
    exists suffix, bucket_at (push_back n i e) j = bucket_at m j ++ suffix /\
                   (length suffix <= 1)%nat).
  { intros n i e Hn.
    destruct (bucket_at_push_back_cases n i e j) as [-> | [_ ->]];
      rewrite Hn.
    - exists []. split; [now rewrite app_nil_r | simpl; lia].
    - exists [e]. split; [reflexivity | simpl; lia]. }
  destruct (MAX_RELOCATIONS cfg <? depth)%nat.
  { injection H as <- <-. exists []. split; [now rewrite app_nil_r | simpl; lia]. }
  set (A := get_alt_bucket cfg bucket fp) in *.
  destruct (length (bucket_at m A) <? BUCKET_SIZE cfg)%nat.
  { injection H as <- <-. now apply Hpush. }
  set (idx := (rand (rand_calls m) mod length (bucket_at m A))%nat) in *.
  set (old := nth idx (bucket_at m A) BucketEntry_default) in *.
  set (m1 := set_slot (tick m) A idx (mkBucketEntry fp true v)) in *.
  assert (Hm1 : bucket_at m1 j = bucket_at m j).
  { unfold m1. rewrite bucket_at_set_slot_other by congruence.
    apply bucket_at_tick. }
  destruct (length (bucket_at m1 _) <? BUCKET_SIZE cfg)%nat.
  { injection H as <- <-. now apply Hpush. }
  rewrite <- Hm1.
  apply (IH _ _ _ _ _ _ _ H). now rewrite get_alt_bucket_twice.
Qed.

(** X25. A walk evicts from one bucket only: in whatever [relocate]
    returns, every bucket other than the alternate bucket of the key it was
    called for holds what it held before, in the same slots, followed by at
    most one entry pushed at its end.  (The recursive call is made for the
    evicted entry from the bucket it is sent to, and the alternate of that
    bucket under its fingerprint is the bucket it came from.) *)
Theorem relocate_evicts_from_one_bucket cfg rand fuel m bucket fp v depth :
  match relocate cfg rand fuel m bucket fp v depth with
  | Some (_, m') =>
      forall j, Z.to_nat j <> Z.to_nat (get_alt_bucket cfg bucket fp) ->
        exists suffix,
          bucket_at m' j = bucket_at m j ++ suffix /\
          (length suffix <= 1)%nat
  | None => True
  end.
Proof.
  destruct (relocate cfg rand fuel m bucket fp v depth) as [[b m'] |] eqn:H;
    [| exact I].
  exact (relocate_other_buckets cfg rand fuel m bucket fp v depth b m' H).
Qed.

(** ** The bucket bits of rst2.cpp *)

(** X24. The bucket bits of rst2.cpp cover the array, and no more than twice
    the array: for every bucket count from 1 to 2^30 the constructor takes
    BUCKET_BITS >= 0 with NUM_BUCKETS <= 2^BUCKET_BITS < 2 * NUM_BUCKETS, and
    the two are equal (the masked digest addresses exactly the buckets
    allocated) exactly when the bucket count is a power of two. *)
Theorem bucket_bits_cover_array num_buckets bucket_size fingerprint_bits :
  1 <= Z.of_nat num_buckets <= 2 ^ 30 ->
  let cfg :=
    fst (Rst2.UTXOManager_new num_buckets bucket_size fingerprint_bits) in
  0 <= BUCKET_BITS cfg /\
  Z.of_nat (NUM_BUCKETS cfg) <= 2 ^ BUCKET_BITS cfg
    < 2 * Z.of_nat (NUM_BUCKETS cfg) /\
  (wf_config cfg <-> exists k : nat, num_buckets = (2 ^ k)%nat).
Proof.
  intros [Hn _]. cbv zeta. unfold Rst2.UTXOManager_new, wf_config.
  cbn [fst BUCKET_BITS NUM_BUCKETS].
  pose proof (Z.log2_up_nonneg (Z.of_nat num_buckets)) as Hnn.
  split; [exact Hnn |]. split.
  - destruct (Z.eq_dec (Z.of_nat num_buckets) 1) as [-> | Hne].
    + change (Z.log2_up 1) with 0. lia.
    + pose proof (Z.log2_up_spec (Z.of_nat num_buckets)) as Hs.
      assert (H1 : 1 < Z.of_nat num_buckets) by lia.
      specialize (Hs H1).
      assert (HL : 0 < Z.log2_up (Z.of_nat num_buckets))
        by (apply Z.log2_up_pos; lia).
      assert (E : 2 ^ Z.log2_up (Z.of_nat num_buckets)
                  = 2 * 2 ^ Z.pred (Z.log2_up (Z.of_nat num_buckets))).
      { rewrite <- Z.pow_succ_r by lia. f_equal. lia. }
      lia.
  - split.
    + intros [_ Hpow]. exists (Z.to_nat (Z.log2_up (Z.of_nat num_buckets))).
      apply Nat2Z.inj. rewrite Nat2Z.inj_pow, Z2Nat.id by exact Hnn.
      exact Hpow.
    + intros [k ->]. rewrite log2_up_pow2_nat, Nat2Z.inj_pow.
      split; [lia | reflexivity].
Qed.

(** ** The theorems at concrete inputs *)

Lemma relocation_walk_terminates_witness :
  (exists b m',
     add_utxo perfect_cfg (fun n => n) 502 Scenario.k_new
       (Scenario.record_of Scenario.k_new)
       (Scenario.blocked_table (fun n => n)) = Some (b, m') /\
     (rand_calls (Scenario.blocked_table (fun n => n)) <= rand_calls m' <=
        rand_calls (Scenario.blocked_table (fun n => n))
        + (MAX_RELOCATIONS perfect_cfg + 1))%nat) /\
  (exists b m',
     relocate perfect_cfg (fun n => n) 502 (Scenario.blocked_table (fun n => n))
       529 373 (Scenario.record_of Scenario.k_new) 3 = Some (b, m') /\
     (rand_calls (Scenario.blocked_table (fun n => n)) <= rand_calls m' <=
        rand_calls (Scenario.blocked_table (fun n => n))
        + (MAX_RELOCATIONS perfect_cfg + 1 - 3))%nat /\
     ((MAX_RELOCATIONS perfect_cfg < 3)%nat ->
      b = false /\ m' = Scenario.blocked_table (fun n => n))) /\
  (exists b m',
     Rst2.add_utxo perfect_cfg (fun n => n) 502 Scenario.k_new
       (Scenario.record_of Scenario.k_new)
       (Scenario.blocked_table (fun n => n)) = Some (b, m') /\
     (rand_calls (Scenario.blocked_table (fun n => n)) <= rand_calls m' <=
        rand_calls (Scenario.blocked_table (fun n => n))
        + (MAX_RELOCATIONS perfect_cfg + 1))%nat).
Proof.
  apply (relocation_walk_terminates perfect_cfg (fun n => n) 502
           Scenario.k_new (Scenario.record_of Scenario.k_new)
           (Scenario.blocked_table (fun n => n)) 529 373 3).
  - change (BUCKET_SIZE perfect_cfg) with 4%nat. lia.
  - change (MAX_RELOCATIONS perfect_cfg) with 500%nat. lia.
Defined.


Lemma bucket_at_In m i :
  (0 < length (bucket_at m i))%nat -> In (bucket_at m i) (buckets m).
Proof.
  unfold bucket_at. intros H.
  destruct (buckets m !! Z.to_nat i) as [b |] eqn:Hb; simpl in *; [| lia].
  apply list_elem_of_In. eapply list_elem_of_lookup_2. exact Hb.
Qed.

Lemma failed_table_alternate :
  length (bucket_at (Scenario.failed_table (fun n => n)) 1300) = 4%nat.
Proof. vm_compute. reflexivity. Qed.

Lemma capacity_bound_witness :
  (length (bucket_at (Scenario.failed_table (fun n => n)) 1300)
   <= BUCKET_SIZE perfect_cfg)%nat.
Proof.
  apply (capacity_bound perfect_cfg (fun n => n) (Scenario.failed_table (fun n => n))).
  - apply Fixed.table_after_reachable.
  - apply bucket_at_In. rewrite failed_table_alternate. lia.
Defined.

Lemma failed_insert_preserves_count_witness :
  count (Scenario.failed_table (fun n => n)) = count (Scenario.blocked_table (fun n => n)) /\
  forall i, length (bucket_at (Scenario.failed_table (fun n => n)) i)
            = length (bucket_at (Scenario.blocked_table (fun n => n)) i).
Proof.
  apply (failed_insert_preserves_count perfect_cfg (fun n => n) 502
           Scenario.k_new (Scenario.record_of Scenario.k_new)
           (Scenario.blocked_table (fun n => n)) (Scenario.failed_table (fun n => n))).
  left. apply Fixed.blocked_insert_result.
Defined.

Lemma remove_unmatched_is_noop_witness :
  remove_utxo perfect_cfg Scenario.k_new (Scenario.blocked_table (fun n => n))
    = (false, Scenario.blocked_table (fun n => n)) /\
  count (snd (remove_utxo perfect_cfg Scenario.k_new
                (Scenario.blocked_table (fun n => n))))
    = count (Scenario.blocked_table (fun n => n)).
Proof.
  apply (remove_unmatched_is_noop perfect_cfg Scenario.k_new
           (Scenario.blocked_table (fun n => n))).
  vm_compute. reflexivity.
Defined.

Lemma read_back_without_relocation_witness :
  exists bs m2,
    run perfect_cfg (fun n => n) 502 Scenario.quiet_ops
      (push_back (empty_manager perfect_cfg) 529
         (mkBucketEntry 373 false (Scenario.record_of Scenario.k_new)))
      = Some (bs, m2) /\
    get_utxo perfect_cfg Scenario.k_new m2
      = Some (Scenario.record_of Scenario.k_new).
Proof.
  apply (read_back_without_relocation perfect_cfg (fun n => n)
           Fixed.perfect_cfg_wf 502 Scenario.k_new
           (Scenario.record_of Scenario.k_new) (empty_manager perfect_cfg)).
  - apply reachable_empty.
  - vm_compute. reflexivity.
  - apply Fixed.first_insert.
  - vm_compute.
    repeat split; intros H; discriminate H.
Defined.

Lemma collision_false_positive_witness :
  get_utxo perfect_cfg Scenario.k_twin
    (push_back (empty_manager perfect_cfg) 529
       (mkBucketEntry 373 false (Scenario.record_of Scenario.k_new)))
    = Some (Scenario.record_of Scenario.k_new) /\
  forall m', get_utxo perfect_cfg Scenario.k_twin m'
             = get_utxo perfect_cfg Scenario.k_new m'.
Proof.
  apply (collision_false_positive perfect_cfg (fun n => n)
           Fixed.perfect_cfg_wf 502 Scenario.k_new Scenario.k_twin
           (Scenario.record_of Scenario.k_new) (empty_manager perfect_cfg)).
  - vm_compute. reflexivity.
  - apply reachable_empty.
  - vm_compute. reflexivity.
  - apply Fixed.first_insert.
Defined.

Lemma small_cfg_wf : wf_config small_cfg.
Proof. split; [vm_compute; discriminate | vm_compute; reflexivity]. Qed.

Lemma small_cfg_size : (0 < BUCKET_SIZE small_cfg)%nat.
Proof. change (BUCKET_SIZE small_cfg) with 2%nat. lia. Qed.

Lemma small_cfg_fuel : (MAX_RELOCATIONS small_cfg + 1 < 102)%nat.
Proof. change (MAX_RELOCATIONS small_cfg) with 100%nat. lia. Qed.

Lemma small_table_reachable ops : reachable small_cfg (fun n => n) (small_table ops).
Proof.
  unfold small_table.
  destruct (run small_cfg (fun n => n) 102 ops (empty_manager small_cfg))
    as [[bs m] |] eqn:Hrun; [| apply reachable_empty].
  eapply run_reachable; [apply reachable_empty | exact Hrun].
Qed.

Lemma add_utxo_keeps_tuples_witness :
  exists b m',
    add_utxo small_cfg (fun n => n) 102 "b2:0"
      (Scenario.record_of "b2:0") (small_table small_ops) = Some (b, m') /\
    let t := (snd (get_bucket_fingerprint small_cfg "b2:0"),
              Scenario.record_of "b2:0") in
    if b then Permutation (contents m') (t :: contents (small_table small_ops))
    else
      (get_utxo small_cfg "b2:0" (small_table small_ops) <> None /\
       m' = small_table small_ops) \/
      (get_utxo small_cfg "b2:0" (small_table small_ops) = None /\
       rand_calls m'
       = (rand_calls (small_table small_ops)
          + (MAX_RELOCATIONS small_cfg + 1))%nat /\
       exists d,
         In d (t :: contents (small_table small_ops)) /\
         Permutation (d :: contents m')
           (t :: contents (small_table small_ops))).
Proof.
  apply (add_utxo_keeps_tuples small_cfg (fun n => n) small_cfg_wf
           small_cfg_size 102 "b2:0" (Scenario.record_of "b2:0")
           (small_table small_ops)).
  - apply small_table_reachable.
  - apply small_cfg_fuel.
Defined.

Lemma run_conserves_count_witness :
  exists bs m',
    run small_cfg (fun n => n) 102 small_ops (empty_manager small_cfg)
      = Some (bs, m') /\
    length bs = length small_ops /\
    (count m' + snd (tally small_ops bs)
     = count (empty_manager small_cfg) + fst (tally small_ops bs))%nat.
Proof.
  apply (run_conserves_count small_cfg (fun n => n) small_cfg_wf
           small_cfg_size 102 small_ops (empty_manager small_cfg)).
  - apply reachable_empty.
  - apply small_cfg_fuel.
Defined.

Lemma stored_fingerprints_in_range_witness :
  Forall (fun t => 0 <= fst t < 2 ^ FINGERPRINT_BITS small_cfg)
         (contents (small_table small_ops)).
Proof.
  apply (stored_fingerprints_in_range small_cfg (fun n => n) small_cfg_wf
           small_cfg_size (small_table small_ops)).
  - vm_compute. discriminate.
  - apply small_table_reachable.
Defined.

Lemma count_bounded_by_capacity_witness :
  (count (small_table small_ops)
   <= NUM_BUCKETS small_cfg * BUCKET_SIZE small_cfg)%nat.
Proof.
  apply (count_bounded_by_capacity small_cfg (fun n => n)
           (small_table small_ops)).
  apply small_table_reachable.
Defined.

Lemma add_utxo_rejects_found_witness :
  add_utxo small_cfg (fun n => n) 102 "a2:0" (Scenario.record_of "b2:0")
    (small_table small_ops) = Some (false, small_table small_ops).
Proof.
  apply (add_utxo_rejects_found small_cfg (fun n => n) 102 "a2:0"
           (Scenario.record_of "b2:0") (Scenario.record_of "a2:0")
           (small_table small_ops)).
  vm_compute. reflexivity.
Defined.

Lemma remove_undoes_direct_add_witness :
  remove_utxo small_cfg "a1:0"
    (push_back (empty_manager small_cfg) 0
       (mkBucketEntry 2 false (Scenario.record_of "a1:0")))
  = (true, empty_manager small_cfg).
Proof.
  apply (remove_undoes_direct_add small_cfg (fun n => n) small_cfg_wf 102
           "a1:0" (Scenario.record_of "a1:0") (empty_manager small_cfg)).
  - vm_compute. reflexivity.
  - vm_compute. reflexivity.
  - vm_compute. reflexivity.
Defined.

Lemma get_utxo_returns_stored_witness :
  In (snd (get_bucket_fingerprint small_cfg "a3:0"), Scenario.record_of "b1:0")
     (contents (small_table small_ops)).
Proof.
  apply (get_utxo_returns_stored small_cfg "a3:0" (small_table small_ops)
           (Scenario.record_of "b1:0")).
  vm_compute. reflexivity.
Defined.

Lemma run_ignores_values_witness :
  option_map run_outcome
    (run small_cfg (fun n => n) 102
       [Add "a1:0" (Scenario.record_of "a1:0"); Remove "a4:0"]
       (push_back (empty_manager small_cfg) 3
          (mkBucketEntry 8 false (Scenario.record_of "a4:0"))))
  = option_map run_outcome
      (run small_cfg (fun n => n) 102
         [Add "a1:0" (Scenario.record_of "b1:0"); Remove "a4:0"]
         (push_back (empty_manager small_cfg) 3
            (mkBucketEntry 8 false UTXOValue_default))).
Proof.
  apply (run_ignores_values small_cfg (fun n => n) 102).
  - repeat constructor.
  - vm_compute. reflexivity.
  - reflexivity.
Defined.

Lemma get_alt_bucket_fingerprint_inj_witness :
  373 <> 374 /\
  get_alt_bucket perfect_cfg 529 373 <> get_alt_bucket perfect_cfg 529 374.
Proof.
  assert (Hne : 373 <> 374) by discriminate.
  split; [exact Hne |].
  apply (get_alt_bucket_fingerprint_inj perfect_cfg 529 373 374).
  - vm_compute. split; discriminate.
  - vm_compute. split; [discriminate | reflexivity].
  - vm_compute. split; [discriminate | reflexivity].
  - exact Hne.
Defined.

Lemma get_alt_bucket_fixed_point_witness :
  get_alt_bucket perfect_cfg 529 373 = 529 <-> 373 = 0.
Proof.
  apply (get_alt_bucket_fixed_point perfect_cfg 529 373).
  - vm_compute. split; discriminate.
  - vm_compute. split; [discriminate | reflexivity].
Defined.

Lemma same_address_iff_same_digest_witness :
  get_bucket_fingerprint perfect_cfg Scenario.k_new
  = get_bucket_fingerprint perfect_cfg Scenario.k_twin <->
  crc32_hash Scenario.k_new = crc32_hash Scenario.k_twin.
Proof.
  apply (same_address_iff_same_digest perfect_cfg Scenario.k_new
           Scenario.k_twin).
  - vm_compute. discriminate.
  - vm_compute. discriminate.
  - vm_compute. discriminate.
Defined.

Lemma crc32_hash_window_witness :
  "0"%string <> "1"%string /\
  crc32_hash (String.append "000000000002a084:"
                (String.append "0" EmptyString))
  <> crc32_hash (String.append "000000000002a084:"
                   (String.append "1" EmptyString)).
Proof.
  assert (Hne : "0"%string <> "1"%string) by discriminate.
  split; [exact Hne |].
  apply (crc32_hash_window "000000000002a084:" "0" "1" EmptyString).
  - reflexivity.
  - simpl. lia.
  - exact Hne.
Defined.

Lemma rst2_guards_never_fire_witness :
  Rst2.add_utxo small_cfg (fun n => n) 102 "b2:0" (Scenario.record_of "b2:0")
    (small_table small_ops)
  = add_utxo small_cfg (fun n => n) 102 "b2:0" (Scenario.record_of "b2:0")
      (small_table small_ops) /\
  Rst2.get_utxo small_cfg "b2:0" (small_table small_ops)
  = get_utxo small_cfg "b2:0" (small_table small_ops).
Proof.
  apply (rst2_guards_never_fire small_cfg (fun n => n) 102 "b2:0"
           (Scenario.record_of "b2:0") (small_table small_ops)).
  apply small_cfg_wf.
Defined.

Lemma split_utxo_line_fields_witness :
  split_utxo_line
    (String.concat ";" ["a1:0"%string; EmptyString; "170"%string; EmptyString])
    ";"%char
  = ["a1:0"%string; EmptyString; "170"%string].
Proof.
  apply (split_utxo_line_fields ";"%char
           ["a1:0"%string; EmptyString; "170"%string; EmptyString]).
  - reflexivity.
  - repeat (apply List.Forall_cons; [reflexivity |]). apply List.Forall_nil.
  - discriminate.
Defined.

Lemma split_utxo_line_quoted_witness :
  let field := String "'"%char (String.append "a,b" (String "'"%char EmptyString)) in
  split_utxo_line field ","%char = [field].
Proof.
  apply (split_utxo_line_quoted "'"%char "a,b" ","%char).
  - reflexivity.
  - reflexivity.
Defined.

Lemma csv_row_round_trip_witness :
  try_split_utxo_line
    (String.concat "," ["a1:0"; "1"; "170"; "5000"; "76a9"; "addrA"]%string)
  = ["a1:0"; "1"; "170"; "5000"; "76a9"; "addrA"]%string /\
  parse_utxo_data std_stoull
    (try_split_utxo_line
       (String.concat "," ["a1:0"; "1"; "170"; "5000"; "76a9"; "addrA"]%string))
  = mkUTXOValue (String.eqb "1" "1") 170 5000 "76a9" "addrA".
Proof.
  apply (csv_row_round_trip std_stoull "a1:0" "1" "170" "5000" "76a9" "addrA"
           [] 170 5000).
  - repeat (apply List.Forall_cons; [reflexivity |]). apply List.Forall_nil.
  - discriminate.
  - reflexivity.
  - reflexivity.
Defined.

Lemma load_utxo_dataset_accounts_witness :
  exists st,
    load_utxo_dataset small_cfg (fun n => n) std_stoull 102 small_file
      (empty_manager small_cfg) = Some st /\
    line_num st = file_lines small_file /\
    (loaded st + skipped st + header_lines small_file
     = file_lines small_file)%nat.
Proof.
  apply (load_utxo_dataset_accounts small_cfg (fun n => n) std_stoull 102
           small_file (empty_manager small_cfg)).
  apply small_cfg_fuel.
Defined.

Lemma load_utxo_dataset_count_witness :
  match load_utxo_dataset small_cfg (fun n => n) std_stoull 102 small_file
          (empty_manager small_cfg) with
  | Some st =>
      count (manager st) = (count (empty_manager small_cfg) + loaded st)%nat /\
      (count (manager st) <= NUM_BUCKETS small_cfg * BUCKET_SIZE small_cfg)%nat
  | None => True
  end.
Proof.
  apply (load_utxo_dataset_count small_cfg (fun n => n) std_stoull 102
           small_file (empty_manager small_cfg)).
  - apply small_cfg_wf.
  - apply small_cfg_size.
  - apply reachable_empty.
Defined.

Lemma bucket_bits_cover_array_witness :
  let cfg := fst (Rst2.UTXOManager_new 6 4 13) in
  0 <= BUCKET_BITS cfg /\
  Z.of_nat (NUM_BUCKETS cfg) <= 2 ^ BUCKET_BITS cfg
    < 2 * Z.of_nat (NUM_BUCKETS cfg) /\
  (wf_config cfg <-> exists k : nat, 6%nat = (2 ^ k)%nat).
Proof.
  apply (bucket_bits_cover_array 6 4 13).
  vm_compute. split; intros H; discriminate H.
Defined.
